(** * CiderPress: PAW corrections for the CIDER nonlocal functional

    A shallow embedding of [ciderpress/gpaw/fast_atom_utils.py] and proofs
    about it.  Python floats are idealised as the real numbers of the
    Standard Library; numpy arrays are total functions of their indices,
    read only inside the shapes the source gives them; Python exceptions
    are values of [pyerr] returned in the [res] monad. *)

From Stdlib Require Import Reals Lra Lia ZArith List Bool Arith.
From stdpp Require Import base option gmap strings list.

Local Open Scope nat_scope.

(** ** Python results and exceptions *)

Module Py.

(** The exception classes the modelled code can raise. *)
Inductive pyerr : Type :=
| NameError (name : string)
| UnboundLocalError (name : string)
| AttributeError (attr : string)
| KeyError (key : nat)
| TypeError (what : string)
| ValueError (what : string)
| IndexError (index : nat)
| AssertionError
| LinAlgError.

Inductive res (A : Type) : Type :=
| Ok (a : A)
| Raise (e : pyerr).
Arguments Ok {A} a.
Arguments Raise {A} e.

Definition bind {A B} (m : res A) (k : A -> res B) : res B :=
  match m with
  | Ok a => k a
  | Raise e => Raise e
  end.

(** Reading an attribute that is attached at run time: absent, Python
    raises [AttributeError]. *)
Definition getattr {A} (name : string) (o : option A) : res A :=
  match o with
  | Some a => Ok a
  | None => Raise (AttributeError name)
  end.

(** [d[a]] on a dict keyed by atom index. *)
Definition getitem {A} (d : gmap nat A) (a : nat) : res A :=
  match d !! a with
  | Some x => Ok x
  | None => Raise (KeyError a)
  end.

(** [l[a]] on a list. *)
Definition getindex {A} (l : list A) (a : nat) : res A :=
  match l !! a with
  | Some x => Ok x
  | None => Raise (IndexError a)
  end.

Definition is_ok {A} (m : res A) : bool :=
  match m with Ok _ => true | Raise _ => false end.

(** [NameError] and its subclass [UnboundLocalError]. *)
Definition is_name_error (e : pyerr) : bool :=
  match e with
  | NameError _ | UnboundLocalError _ => true
  | _ => false
  end.

End Py.

#[global] Instance res_ret : MRet Py.res := @Py.Ok.
#[global] Instance res_bind : MBind Py.res := fun A B k m => Py.bind m k.

(** ** Hardcoded shell tables of the two per-species setups *)

Module Shells.

Record shell_table : Type := mk_table {
  nlist_j : list nat;
  llist_j : list nat;
  nbas_lst : list nat
}.

Definition table19 : shell_table :=
  mk_table [0; 2; 4; 6; 8; 1; 3; 5; 7; 2; 4; 6; 8; 3; 5; 7; 4; 6; 8]
           [0; 0; 0; 0; 0; 1; 1; 1; 1; 2; 2; 2; 2; 3; 3; 3; 4; 4; 4]
           [5; 4; 4; 3; 3].

Definition table14 : shell_table :=
  mk_table [0; 2; 4; 6; 1; 3; 5; 2; 4; 6; 3; 5; 4; 6]
           [0; 0; 0; 0; 1; 1; 1; 2; 2; 2; 3; 3; 4; 4]
           [4; 3; 3; 2; 2].

Definition table9 : shell_table :=
  mk_table [0; 2; 4; 1; 3; 2; 4; 3; 4]
           [0; 0; 0; 1; 1; 2; 2; 3; 4]
           [3; 2; 2; 1; 1].

Definition table4 : shell_table :=
  mk_table [0; 2; 1; 2]
           [0; 0; 1; 2]
           [2; 1; 1].

(** The [if setup.Z > ...] ladder of [PAugSetup.from_setup]. *)
Definition PAugSetup_from_setup_table (Zat : Z) : shell_table :=
  if (1000 <? Zat)%Z then table19
  else if (18 <? Zat)%Z then table14
  else if (0 <? Zat)%Z then table9
  else table4.

(** The [if setup.Z > ...] ladder of [PSmoothSetup.from_setup]. *)
Definition PSmoothSetup_from_setup_table (Zat : Z) : shell_table :=
  if (100 <? Zat)%Z then table14
  else if (0 <? Zat)%Z then table9
  else table4.

(** [np.cumsum]. *)
Fixpoint cumsum_from (acc : nat) (l : list nat) : list nat :=
  match l with
  | [] => []
  | x :: r => (acc + x) :: cumsum_from (acc + x) r
  end.

(** [nbas_loc = np.append([0], np.cumsum(nbas_lst))]. *)
Definition nbas_loc (t : shell_table) : list nat :=
  0 :: cumsum_from 0 (nbas_lst t).

(** The loop [for j, n in enumerate(nlist_j)] that fills [lmlist_i] and
    [jlist_i]: shell [j] of angular momentum [l] contributes the
    [2 l + 1] pairs [(l * l + m, j)]. *)
Fixpoint expand_shells (j : nat) (ls : list nat) : list (nat * nat) :=
  match ls with
  | [] => []
  | l :: r => map (fun m => (l * l + m, j)) (seq 0 (2 * l + 1))
              ++ expand_shells (S j) r
  end.

Definition lmlist_i (t : shell_table) : list nat :=
  map fst (expand_shells 0 (llist_j t)).
Definition jlist_i (t : shell_table) : list nat :=
  map snd (expand_shells 0 (llist_j t)).

(** [np.max] of a list of naturals (the tables are never empty). *)
Definition list_max (l : list nat) : nat := fold_right Nat.max 0 l.

(** [self.nj], [self.lmax], [nn = np.max(nlist_j) + 1], [self.ni]. *)
Definition nj (t : shell_table) : nat := length (nlist_j t).
Definition lmax (t : shell_table) : nat := list_max (llist_j t).
Definition nn (t : shell_table) : nat := list_max (nlist_j t) + 1.
Definition ni (t : shell_table) : nat := length (lmlist_i t).

(** Number of radial functions in channel [l]. *)
Definition nbas (t : shell_table) (l : nat) : nat := nth l (nbas_lst t) 0.

(** What the specification says of both constructors: one table per
    interval of the thresholds 1000, 18 and 0. *)
Definition selected_by_Z_1000_18_0 (f : Z -> shell_table) : Prop :=
  exists t3 t2 t1 t0 : shell_table,
    forall Zat : Z,
      f Zat = if (1000 <? Zat)%Z then t3
              else if (18 <? Zat)%Z then t2
              else if (0 <? Zat)%Z then t1
              else t0.

(** Never fewer functions in any channel, never a lower [lmax]. *)
Definition table_le (t t' : shell_table) : Prop :=
  nj t <= nj t' /\ lmax t <= lmax t' /\ forall l, nbas t l <= nbas t' l.

(** In every table the bookkeeping derived from it is consistent: the
    channel counts add up to the number of radial functions, there is one
    count per angular momentum up to [lmax], the offsets [nbas_loc] end
    at [nj], and [lmlist_i] has one entry per [(j, m)]. *)
Definition consistent (t : shell_table) : Prop :=
  length (llist_j t) = nj t /\
  List.list_sum (nbas_lst t) = nj t /\
  length (nbas_lst t) = lmax t + 1 /\
  List.last (nbas_loc t) 0 = nj t /\
  ni t = List.list_sum (map (fun l => 2 * l + 1) (llist_j t)) /\
  length (jlist_i t) = ni t.

End Shells.

(** ** The three-stage orchestrator [FastPASDWCiderKernel] *)

Module Kernel.

Import Py.

Section Orchestrator.

(** Arrays and the objects that [initialize_more_things] attaches to a
    GPAW setup are kept abstract here. *)
Context {arr xc_t nlxc_t contribs_t ps_t pa_t : Type}.

(** A GPAW setup with the attributes attached at run time. *)
Record setup : Type := mk_setup {
  rcut_j : arr;
  xc_correction : option xc_t;
  nlxc_correction : option nlxc_t;
  cider_contribs : option contribs_t;
  ps_setup : option ps_t;
  pa_setup : option pa_t
}.

(** The numerical parts of each loop iteration, whose callees
    ([calculate_cider_paw_correction], the radial calculators, the
    convolution backends, the setups' projections) are not modelled
    here.  Each may raise. *)
Record numerics : Type := mk_numerics {
  (** [D_asp[a0].shape[0]] *)
  shape0 : arr -> nat;
  (** lines 890-936: [D_sp] to [(c_siq, df_sgLq, yt_sgLq, dfr_sgLq)] *)
  feature_terms :
    ps_t -> nlxc_t -> xc_t -> arr -> contribs_t -> arr ->
    res (arr * arr * arr * arr);
  (** line 953: [fr[..., :Nalpha_sm] += dfr_sgLq] *)
  add_dfr : ps_t -> arr -> arr -> res arr;
  (** lines 988-1000: [ft_sgLq] from [D_asiq[a]], [df_sgLq], [fr_sgLq] *)
  energy_ft : nat -> pa_t -> xc_t -> arr -> arr -> arr -> res arr;
  (** lines 1001-1034: to [(dvD_siq, deltaE, deltaV, vfr_sgLq, vf_sgLq)] *)
  energy_terms :
    nat -> pa_t -> xc_t -> contribs_t -> arr -> arr -> arr -> arr ->
    res (arr * arr * arr * arr * arr);
  (** lines 1079-1093: [vdy_sgLq] from [vc_siq], [vdf_sgLq], [vyt_sgLq] *)
  potential_solve : ps_t -> arr -> arr -> arr -> res arr;
  (** lines 1094-1119: to [dH_sp] *)
  potential_terms :
    nat -> ps_t -> xc_t -> nlxc_t -> contribs_t -> arr -> arr -> arr -> arr ->
    res arr
}.

(** The instance attributes that carry data from one stage to the next.
    The class body only annotates them ([fr_asgLq: dict]), which creates
    no attribute: each is absent until a stage assigns it. *)
Record kernel : Type := mk_kernel {
  fr_asgLq : option (gmap nat arr);
  df_asgLq : option (gmap nat arr);
  c_asiq : option (gmap nat arr);
  vfr_asgLq : option (gmap nat arr);
  vdf_asgLq : option (gmap nat arr)
}.

(** A kernel on which no stage has run. *)
Definition fresh : kernel := mk_kernel None None None None None.

(** The class attribute [is_cider_functional = True]. *)
Definition is_cider_functional : bool := true.

(** A method body: it reads and assigns the attributes of [self] and
    returns or raises; what it has assigned before raising stays. *)
Definition M (A : Type) : Type := kernel -> res A * kernel.

#[export] Instance M_ret : MRet M := fun A a st => (Ok a, st).
#[export] Instance M_bind : MBind M := fun A B k m st =>
  match m st with
  | (Ok a, st') => k a st'
  | (Raise e, st') => (Raise e, st')
  end.

(** A step that does not touch [self]. *)
Definition pure {A} (r : res A) : M A := fun st => (r, st).

(** [assert cond]. *)
Definition assert_ (cond : bool) : M unit :=
  pure (if cond then Ok tt else Raise AssertionError).

(** [self.name], for each of the five attributes. *)
Definition read_fr : M (gmap nat arr) := fun st => (getattr "fr_asgLq" (fr_asgLq st), st).
Definition read_df : M (gmap nat arr) := fun st => (getattr "df_asgLq" (df_asgLq st), st).
Definition read_c : M (gmap nat arr) := fun st => (getattr "c_asiq" (c_asiq st), st).
Definition read_vfr : M (gmap nat arr) := fun st => (getattr "vfr_asgLq" (vfr_asgLq st), st).
Definition read_vdf : M (gmap nat arr) := fun st => (getattr "vdf_asgLq" (vdf_asgLq st), st).

(** [self.name = d]. *)
Definition assign_fr (d : gmap nat arr) : M unit := fun st =>
  (Ok tt, mk_kernel (Some d) (df_asgLq st) (c_asiq st) (vfr_asgLq st) (vdf_asgLq st)).
Definition assign_df (d : gmap nat arr) : M unit := fun st =>
  (Ok tt, mk_kernel (fr_asgLq st) (Some d) (c_asiq st) (vfr_asgLq st) (vdf_asgLq st)).
Definition assign_c (d : gmap nat arr) : M unit := fun st =>
  (Ok tt, mk_kernel (fr_asgLq st) (df_asgLq st) (Some d) (vfr_asgLq st) (vdf_asgLq st)).
Definition assign_vfr (d : gmap nat arr) : M unit := fun st =>
  (Ok tt, mk_kernel (fr_asgLq st) (df_asgLq st) (c_asiq st) (Some d) (vdf_asgLq st)).
Definition assign_vdf (d : gmap nat arr) : M unit := fun st =>
  (Ok tt, mk_kernel (fr_asgLq st) (df_asgLq st) (c_asiq st) (vfr_asgLq st) (Some d)).

(** [self.name[a] = v]: the attribute is read and the dict it holds is
    updated in place. *)
Definition store_fr (a : nat) (v : arr) : M unit := d ← read_fr; assign_fr (<[a := v]> d).
Definition store_df (a : nat) (v : arr) : M unit := d ← read_df; assign_df (<[a := v]> d).
Definition store_c (a : nat) (v : arr) : M unit := d ← read_c; assign_c (<[a := v]> d).
Definition store_vfr (a : nat) (v : arr) : M unit := d ← read_vfr; assign_vfr (<[a := v]> d).
Definition store_vdf (a : nat) (v : arr) : M unit := d ← read_vdf; assign_vdf (<[a := v]> d).

(** A step that only reads leaves the state alone. *)
Definition keeps_state {A} (m : M A) : Prop := forall st : kernel, snd (m st) = st.

Variable N : numerics.

(** One iteration of the loop of [calculate_paw_cider_features]. The
    array stored in [self.fr_asgLq[a]] is [yt_sgLq] itself, to which
    line 953 then adds [dfr_sgLq] in place. *)
Definition features_body (setups : list setup) (a : nat) (D_sp : arr) : M unit :=
  su ← pure (getindex setups a);
  psetup ← pure (getattr "ps_setup" (ps_setup su));
  nl ← pure (getattr "nlxc_correction" (nlxc_correction su));
  xcc ← pure (getattr "xc_correction" (xc_correction su));
  cc ← pure (getattr "cider_contribs" (cider_contribs su));
  '(c_siq, df_sgLq, yt_sgLq, dfr_sgLq) ←
    pure (feature_terms N psetup nl xcc (rcut_j su) cc D_sp);
  _ ← store_df a df_sgLq;
  _ ← store_fr a yt_sgLq;
  fr_sgLq ← pure (add_dfr N psetup yt_sgLq dfr_sgLq);
  _ ← store_fr a fr_sgLq;
  store_c a c_siq.

(** [for a, D_sp in D_asp.items()], in the order of the dict. *)
Fixpoint for_items (body : nat -> arr -> M unit) (D_asp : list (nat * arr)) : M unit :=
  match D_asp with
  | [] => mret tt
  | (a, D_sp) :: rest => _ ← body a D_sp; for_items body rest
  end.

Definition calculate_paw_cider_features (setups : list setup)
  (D_asp : list (nat * arr)) : M (gmap nat arr * gmap nat arr) :=
  match D_asp with
  | [] => mret (∅, ∅)
  | (a0, D0) :: _ =>
      let nspin := shape0 N D0 in
      _ ← assert_ ((nspin =? 1) || is_cider_functional);
      _ ← assign_fr ∅;
      _ ← assign_df ∅;
      _ ← assign_c ∅;
      _ ← for_items (features_body setups) D_asp;
      c ← read_c;
      df ← read_df;
      mret (c, df)
  end.

(** The local dicts [dvD_asiq], [deltaE], [deltaV] of the energy stage. *)
Record energy_out : Type := mk_energy_out {
  dvD_asiq : gmap nat arr;
  deltaE : gmap nat arr;
  deltaV : gmap nat arr
}.

Definition energy_body (nspin : nat) (setups : list setup) (D_asiq : gmap nat arr)
  (out : energy_out) (a : nat) (D_sp : arr) : M energy_out :=
  su ← pure (getindex setups a);
  psetup ← pure (getattr "pa_setup" (pa_setup su));
  D_siq ← pure (getitem D_asiq a);
  xcc ← pure (getattr "xc_correction" (xc_correction su));
  df_a ← read_df;
  df_sgLq ← pure (getitem df_a a);
  fr_a ← read_fr;
  fr_sgLq ← pure (getitem fr_a a);
  ft_sgLq ← pure (energy_ft N nspin psetup xcc D_siq df_sgLq fr_sgLq);
  cc ← pure (getattr "cider_contribs" (cider_contribs su));
  '(dvD, dE, dV, vfr_sgLq, vf_sgLq) ←
    pure (energy_terms N nspin psetup xcc cc D_sp D_siq ft_sgLq df_sgLq);
  _ ← store_vfr a vfr_sgLq;
  _ ← store_vdf a vf_sgLq;
  mret (mk_energy_out (<[a := dvD]> (dvD_asiq out))
                      (<[a := dE]> (deltaE out))
                      (<[a := dV]> (deltaV out))).

Fixpoint energy_loop (nspin : nat) (setups : list setup) (D_asiq : gmap nat arr)
  (out : energy_out) (D_asp : list (nat * arr)) : M energy_out :=
  match D_asp with
  | [] => mret out
  | (a, D_sp) :: rest =>
      out' ← energy_body nspin setups D_asiq out a D_sp;
      energy_loop nspin setups D_asiq out' rest
  end.

Definition calculate_paw_cider_energy (setups : list setup)
  (D_asp : list (nat * arr)) (D_asiq : gmap nat arr)
  : M (gmap nat arr * gmap nat arr * gmap nat arr) :=
  match D_asp with
  | [] => mret (∅, ∅, ∅)
  | (a0, D0) :: _ =>
      let nspin := shape0 N D0 in
      _ ← assign_vfr ∅;
      _ ← assign_vdf ∅;
      out ← energy_loop nspin setups D_asiq (mk_energy_out ∅ ∅ ∅) D_asp;
      mret (dvD_asiq out, deltaE out, deltaV out)
  end.

(** One iteration of the potential stage; it assigns no attribute. *)
Definition potential_body (nspin : nat) (setups : list setup)
  (vc_asiq : gmap nat arr) (a : nat) (D_sp : arr) : M arr :=
  su ← pure (getindex setups a);
  psetup ← pure (getattr "ps_setup" (ps_setup su));
  xcc ← pure (getattr "xc_correction" (xc_correction su));
  vc_siq ← pure (getitem vc_asiq a);
  vdf_a ← read_vdf;
  vdf_sgLq ← pure (getitem vdf_a a);
  vfr_a ← read_vfr;
  vyt_sgLq ← pure (getitem vfr_a a);
  vdy_sgLq ← pure (potential_solve N psetup vc_siq vdf_sgLq vyt_sgLq);
  nl ← pure (getattr "nlxc_correction" (nlxc_correction su));
  cc ← pure (getattr "cider_contribs" (cider_contribs su));
  pure (potential_terms N nspin psetup xcc nl cc (rcut_j su) D_sp vyt_sgLq vdy_sgLq).

Fixpoint potential_loop (nspin : nat) (setups : list setup)
  (vc_asiq : gmap nat arr) (dH_asp : gmap nat arr) (D_asp : list (nat * arr))
  : M (gmap nat arr) :=
  match D_asp with
  | [] => mret dH_asp
  | (a, D_sp) :: rest =>
      dH ← potential_body nspin setups vc_asiq a D_sp;
      potential_loop nspin setups vc_asiq (<[a := dH]> dH_asp) rest
  end.

Definition calculate_paw_cider_potential (setups : list setup)
  (D_asp : list (nat * arr)) (vc_asiq : gmap nat arr) : M (gmap nat arr) :=
  match D_asp with
  | [] => mret ∅
  | (a0, D0) :: _ =>
      let nspin := shape0 N D0 in
      _ ← assert_ ((nspin =? 1) || is_cider_functional);
      potential_loop nspin setups vc_asiq ∅ D_asp
  end.

(** What [calculate_paw_feat_corrections] returns, by stage. *)
Inductive stage_result : Type :=
| RFeatures (c_df : gmap nat arr * gmap nat arr)
| REnergy (dvD_E_V : gmap nat arr * gmap nat arr * gmap nat arr)
| RPotential (dH_asp : gmap nat arr).

(** The dispatcher: the stage is chosen by which optional arguments are
    given ([None] is Python's [None]). *)
Definition calculate_paw_feat_corrections (setups : list setup)
  (D_asp : list (nat * arr))
  (D_asiq df_asgLq_arg vc_asiq : option (gmap nat arr)) : M stage_result :=
  match D_asiq, vc_asiq with
  | None, None =>
      r ← calculate_paw_cider_features setups D_asp; mret (RFeatures r)
  | Some D, _ =>
      _ ← assert_ (bool_decide (is_Some df_asgLq_arg));
      r ← calculate_paw_cider_energy setups D_asp D; mret (REnergy r)
  | None, Some vc =>
      r ← calculate_paw_cider_potential setups D_asp vc; mret (RPotential r)
  end.

End Orchestrator.

Arguments setup : clear implicits.
Arguments numerics : clear implicits.
Arguments kernel : clear implicits.

(** *** The state machine of the specification

    Modelled from the spec: the per-atom tag [Idle -> FeaturesComputed ->
    EnergyComputed -> Idle] that the specification asks for; the source
    keeps no such tag.  [None] stands for its StateSequenceError. *)
Inductive spec_state : Type := Idle | FeaturesComputed | EnergyComputed.

Inductive stage_call : Type := CallFeatures | CallEnergy | CallPotential.

Definition spec_step (s : spec_state) (c : stage_call) : option spec_state :=
  match s, c with
  | Idle, CallFeatures => Some FeaturesComputed
  | FeaturesComputed, CallEnergy => Some EnergyComputed
  | EnergyComputed, CallPotential => Some Idle
  | _, _ => None
  end.

(** The state of the specification's machine after a sequence of calls. *)
Fixpoint spec_run (s : spec_state) (cs : list stage_call) : option spec_state :=
  match cs with
  | [] => Some s
  | c :: rest =>
      match spec_step s c with
      | Some s' => spec_run s' rest
      | None => None
      end
  end.

(** *** A one-atom run

    One atom with index 0 and a setup on which [initialize_more_things]
    has run; the numerical parts return without raising, as they do in
    a regular calculation. *)
Definition N0 : numerics nat unit unit unit unit unit :=
  mk_numerics
    (fun _ => 1)
    (fun _ _ _ _ _ D_sp => Py.Ok (D_sp, D_sp, D_sp, D_sp))
    (fun _ yt dfr => Py.Ok (yt + dfr))
    (fun _ _ _ _ df _ => Py.Ok df)
    (fun _ _ _ _ D_sp _ ft df => Py.Ok (ft, D_sp, D_sp, ft, df))
    (fun _ vc _ _ => Py.Ok vc)
    (fun _ _ _ _ _ _ D_sp _ _ => Py.Ok D_sp).

Definition setups0 : list (setup nat unit unit unit unit unit) :=
  [mk_setup 0 (Some tt) (Some tt) (Some tt) (Some tt) (Some tt)].

Definition D_asp0 : list (nat * nat) := [(0, 7)].
Definition D_asiq0 : gmap nat nat := {[ 0 := 3 ]}.
Definition vc_asiq0 : gmap nat nat := {[ 0 := 5 ]}.

End Kernel.

(** ** The per-atom interpolation count of [initialize_more_things] *)

Module Nalpha.

Import Py.

Local Open Scope R_scope.

(** [np.max] and [np.min] raise [ValueError] on an empty array. *)
Definition np_max (xs : list R) : res R :=
  match xs with
  | [] => Raise (ValueError "zero-size array to reduction operation maximum")
  | x :: r => Ok (fold_left Rmax r x)
  end.

Definition np_min (xs : list R) : res R :=
  match xs with
  | [] => Raise (ValueError "zero-size array to reduction operation minimum")
  | x :: r => Ok (fold_left Rmin r x)
  end.

(** What [FastPASDWCiderKernel.__init__] keeps of the plan. *)
Record cider_kernel : Type := mk_cider_kernel {
  bas_exp_fit : list R;      (* plan.alphas *)
  _amin : R;                 (* np.min(self.bas_exp_fit) *)
  lambd : R                  (* plan.lambd *)
}.

Definition FastPASDWCiderKernel_init (alphas : list R) (plan_lambd : R)
  : res cider_kernel :=
  amin ← np_min alphas;
  Ok (mk_cider_kernel alphas amin plan_lambd).

(** [encut = setup.Z**2 * 20], an integer. *)
Definition encut_of (Zat : Z) : R := IZR (Zat ^ 2 * 20).

(** Lines 831-848 of [initialize_more_things]: the pair
    [(Nalpha, encut0)] for a setup of atomic number [Zat]; the two
    [assert]s raise [AssertionError]. *)
Definition initialize_more_things_Nalpha (self : cider_kernel) (Zat : Z)
  : res (Z * R) :=
  let encut := encut_of Zat in
  top ← np_max (bas_exp_fit self);
  if Rle_dec (encut - 1e-7) top then
    Ok (Z.of_nat (length (bas_exp_fit self)), top)
  else
    let Nalpha := (Zceil (ln (encut / _amin self) / ln (lambd self)) + 1)%Z in
    let encut0 := _amin self * powerRZ (lambd self) (Nalpha - 1) in
    if Rge_dec encut0 (encut - 1e-6) then
      if Rlt_dec (encut0 / lambd self) encut then Ok (Nalpha, encut0)
      else Raise AssertionError
    else Raise AssertionError.

End Nalpha.

(** ** Name resolution in the bodies of [PSmoothSetup2]

    The two methods of the alternate setup are kept at the level of the
    names they load and store: every statement lists, in evaluation
    order, the names it loads, the points where an operation (attribute
    access, call, arithmetic) may raise, and the names it binds. *)

Module Names.

Import Py.

(** The names bound at module level by [fast_atom_utils.py]: its imports,
    the flag, its functions and its classes. *)
Definition module_globals : list string :=
  [ "ctypes"; "np"; "EquidistantRadialGridDescriptor"; "R_nv"; "Y_nL";
    "weight_n"; "rnablaY_nLv"; "spline"; "interp1d"; "cho_factor";
    "cho_solve"; "get_hgbs_max_exps"; "get_sigma"; "AtomicGridsIndexer";
    "ATCBasis"; "ConvolutionCollection"; "get_etb_from_expnt_range";
    "get_gamma_lists_from_etb_list"; "NLDFAuxiliaryPlan";
    "get_ccl_settings"; "libcider"; "AtomPASDWSlice"; "SBTGridContainer";
    "construct_full_p_matrices"; "get_delta_lpg"; "get_delta_lpk";
    "get_dv"; "get_dvk"; "get_ffunc3"; "get_p11_matrix";
    "get_p12_p21_matrix"; "get_p22_matrix"; "get_pfunc2_norm";
    "get_pfuncs_k"; "get_phi_iabg"; "get_phi_iabk"; "DiffPAWXCCorrection";
    "calculate_cider_paw_correction"; "USE_GAUSSIAN_PAW_CONV"; "_interpc";
    "get_ag_indices"; "FastAtomPASDWSlice"; "_PAWCiderContribs";
    "PAWCiderContribsRecip"; "PAWCiderContribsOrb"; "PAWCiderContribs";
    "CiderRadialFeatureCalculator"; "CiderRadialEnergyCalculator";
    "CiderRadialPotentialCalculator"; "CiderRadialExpansion";
    "FastPASDWCiderKernel"; "PASDWData"; "PAugSetup"; "PSmoothSetup";
    "PSmoothSetup2" ]%string.

(** The builtins the module uses. *)
Definition builtins : list string :=
  [ "range"; "enumerate"; "int"; "list"; "len"; "zip"; "super"; "abs";
    "hasattr"; "ValueError"; "NotImplementedError" ]%string.

(** What is tracked of a value: whether it is the [Ellipsis] object. *)
Inductive pyval : Type := VEllipsis | VObject.

(** The events of a statement, in Python's order of evaluation: a
    [Load] for each name read; an [Op] for each attribute access,
    subscription, call, arithmetic or comparison operator, unpacking,
    in-place operator and store into an attribute or an item (an
    augmented assignment to an item reads the item, evaluates the right
    side, applies the operator and stores); a [NeedInt] where [np.zeros]
    receives a local as a dimension. Constants, tuples, lists and slices
    give no event, and the variable of a comprehension, which is local to
    the comprehension, is not a name of the function. *)
Inductive event : Type :=
| Load (x : string)       (* a name is loaded *)
| Op                      (* an operation that may raise *)
| NeedInt (x : string).   (* a local is used as an array dimension *)

Inductive rhs : Type := RhsEllipsis | RhsValue.

#[warnings="-register-all"]
Inductive stmt : Type :=
| Simple (line : N) (evs : list event) (r : rhs) (stores : list string)
| For (line : N) (evs : list event) (targets : list string) (body : list stmt)
| Return (line : N) (evs : list event).

Record pyfun : Type := mk_pyfun {
  params : list string;
  body : list stmt
}.

(** The names a body binds: Python makes each of them local to the
    function, wherever the binding statement stands. *)
Fixpoint assigned_stmt (s : stmt) : list string :=
  match s with
  | Simple _ _ _ xs => xs
  | For _ _ xs b => xs ++ flat_map assigned_stmt b
  | Return _ _ => []
  end.

Definition local_names (f : pyfun) : list string :=
  params f ++ flat_map assigned_stmt (body f).

(** The names a body loads. *)
Definition loads_of (evs : list event) : list string :=
  flat_map (fun e => match e with Load x => [x] | _ => [] end) evs.

Fixpoint loaded_stmt (s : stmt) : list string :=
  match s with
  | Simple _ evs _ _ => loads_of evs
  | For _ evs _ b => loads_of evs ++ flat_map loaded_stmt b
  | Return _ evs => loads_of evs
  end.

Definition loaded_names (f : pyfun) : list string :=
  flat_map loaded_stmt (body f).

(** A name that is loaded, is not local and is bound neither by the
    module nor by the builtins: evaluating it raises [NameError]. *)
Definition undefined_name (f : pyfun) (x : string) : Prop :=
  (x ∈ loaded_names f) /\ (x ∉ local_names f) /\
  (x ∉ module_globals) /\ (x ∉ builtins).

Definition env : Type := gmap string pyval.

Definition load (locals : list string) (ρ : env) (x : string) : res pyval :=
  if bool_decide (x ∈ locals) then
    match ρ !! x with
    | Some v => Ok v
    | None => Raise (UnboundLocalError x)
    end
  else if bool_decide (x ∈ module_globals ++ builtins) then Ok VObject
  else Raise (NameError x).

(** The behaviour of everything that is not a name: which operation of
    which line raises, and how often each loop iterates. *)
Record oracle : Type := mk_oracle {
  op_raises : N -> nat -> option pyerr;
  iterations : N -> nat
}.

Fixpoint run_events (locals : list string) (orc : oracle) (line : N) (idx : nat)
  (evs : list event) (ρ : env) : res unit :=
  match evs with
  | [] => Ok tt
  | Load x :: r =>
      match load locals ρ x with
      | Ok _ => run_events locals orc line (S idx) r ρ
      | Raise e => Raise e
      end
  | Op :: r =>
      match op_raises orc line idx with
      | Some e => Raise e
      | None => run_events locals orc line (S idx) r ρ
      end
  | NeedInt x :: r =>
      match ρ !! x with
      | Some VEllipsis =>
          Raise (TypeError "'ellipsis' object cannot be interpreted as an integer")
      | _ => run_events locals orc line (S idx) r ρ
      end
  end.

Definition bind_all (xs : list string) (v : pyval) (ρ : env) : env :=
  fold_left (fun m x => <[x := v]> m) xs ρ.

Definition rhs_val (r : rhs) : pyval :=
  match r with RhsEllipsis => VEllipsis | RhsValue => VObject end.

Inductive outcome : Type :=
| Next (ρ : env)      (* fall through to the next statement *)
| Returned.           (* a [return] was executed *)

Fixpoint run_stmt (locals : list string) (orc : oracle) (s : stmt) (ρ : env)
  {struct s} : res outcome :=
  match s with
  | Simple ln evs r xs =>
      match run_events locals orc ln 0 evs ρ with
      | Ok _ => Ok (Next (bind_all xs (rhs_val r) ρ))
      | Raise e => Raise e
      end
  | Return ln evs =>
      match run_events locals orc ln 0 evs ρ with
      | Ok _ => Ok Returned
      | Raise e => Raise e
      end
  | For ln evs xs b =>
      match run_events locals orc ln 0 evs ρ with
      | Raise e => Raise e
      | Ok _ =>
          (fix iter (n : nat) (ρ : env) {struct n} : res outcome :=
             match n with
             | O => Ok (Next ρ)
             | S n' =>
                 match
                   (fix block (ss : list stmt) (ρ : env) {struct ss} : res outcome :=
                      match ss with
                      | [] => Ok (Next ρ)
                      | s' :: ss' =>
                          match run_stmt locals orc s' ρ with
                          | Ok (Next ρ') => block ss' ρ'
                          | Ok Returned => Ok Returned
                          | Raise e => Raise e
                          end
                      end) b (bind_all xs VObject ρ)
                 with
                 | Ok (Next ρ') => iter n' ρ'
                 | Ok Returned => Ok Returned
                 | Raise e => Raise e
                 end
             end) (iterations orc ln) ρ
      end
  end.

Fixpoint run_block (locals : list string) (orc : oracle) (ss : list stmt) (ρ : env)
  : res outcome :=
  match ss with
  | [] => Ok (Next ρ)
  | s :: ss' =>
      match run_stmt locals orc s ρ with
      | Ok (Next ρ') => run_block locals orc ss' ρ'
      | Ok Returned => Ok Returned
      | Raise e => Raise e
      end
  end.

(** A call: every parameter is bound to an argument. *)
Definition call (f : pyfun) (orc : oracle) : res outcome :=
  run_block (local_names f) orc (body f) (bind_all (params f) VObject ∅).

Local Open Scope string_scope.

(** [PSmoothSetup2.initialize_a2g], lines 1804-1885. *)
Definition PSmoothSetup2_initialize_a2g : pyfun :=
  mk_pyfun ["self"]
  [ Simple 1805%N [Load "np"; Op; Load "self"; Op; Op; Op; Load "self"; Op; Op;
                 Op; Load "self"; Op] RhsValue [];
    Simple 1806%N [Load "get_delta_lpg_v2"; Load "betas_lv"; Load "self"; Op;
                 Load "self"; Op; Load "pmin"; Op; Load "self"; Op] RhsValue [];
    Simple 1807%N [Load "self"; Op; Op] RhsValue ["nalpha"];
    Simple 1808%N [Load "self"; Op] RhsValue ["rgd"];
    Simple 1809%N [Load "np"; Op; Load "self"; Op; Load "self"; Op; Op; Op]
                RhsValue ["pfuncs_jg"];
    Simple 1810%N [Load "get_pfuncs_k"; Load "pfuncs_jg"; Load "self"; Op;
                 Load "rgd"; Load "self"; Op; Op] RhsValue ["pfuncs_k"];
    Simple 1811%N [] RhsValue ["p21_l_javb"];
    Simple 1812%N [] RhsValue ["p22_l_jaja"];
    For 1813%N [Load "range"; Load "lp1"; Op] ["l"]
      [ Simple 1814%N [Load "self"; Op; Load "l"; Op; Op; Load "self"; Op;
                     Load "l"; Op; Op] RhsValue ["nj"];
        Simple 1815%N [Load "betas_lv"; Load "l"; Op; Op] RhsValue ["nv"];
        Simple 1816%N [Load "p21_l_javb"; Op; Load "np"; Op; Load "nj";
                     Load "nalpha"; Load "nv"; Load "nalpha";
                     NeedInt "nj"; NeedInt "nalpha"; NeedInt "nv"; Op; Op]
                    RhsValue [];
        Simple 1817%N [Load "p22_l_jaja"; Op; Load "np"; Op; Load "nj";
                     Load "nalpha"; Load "nj"; Load "nalpha";
                     NeedInt "nj"; NeedInt "nalpha"; Op; Op]
                    RhsValue [] ];
    For 1818%N [Load "enumerate"; Load "pfuncs_jg"; Op] ["j"; "pfunc_g"]
      [ Simple 1819%N [Load "self"; Op; Load "j"; Op] RhsValue ["l"];
        Simple 1821%N [Load "self"; Op; Load "pfunc_g"; Load "l"; Op]
                    RhsValue ["phi_abx"];
        Simple 1822%N [Load "phi_abx"; Op; Load "self"; Op; Op; Op; Op]
                    RhsValue [];
        Simple 1823%N [Load "self"; Op; Load "phi_abx"; Op; Load "dv_g"; Op]
                    RhsValue ["phi_abg"];
        Simple 1824%N [Load "phi_abg"; Load "sr_part"; Op] RhsValue ["phisr_abg"];
        Simple 1825%N [Load "self"; Op; Load "phisr_abg"; Op] RhsValue ["phisr_abx"];
        Simple 1826%N [Load "np"; Op; Load "phi_abg"; Load "self"; Op; Load "l";
                     Op; Op; Load "p21_l_javb"; Load "l"; Op; Load "j"; Op]
                    RhsValue [];
        For 1827%N [Load "range"; Load "nalpha"; Op] ["a"]
          [ Simple 1828%N [Load "self"; Op; Load "phi_abx"; Load "a"; Op;
                         Load "l"; Op] RhsValue ["tmp_ag"];
            Simple 1829%N [] RhsEllipsis ["tmp_ja"];
            Simple 1830%N [Load "tmp_ja"; Load "p22_l_jaja"; Load "l"; Op;
                         Load "j"; Load "self"; Op; Load "j"; Op; Op;
                         Load "a"; Op] RhsValue [];
            Simple 1831%N [Load "self"; Op; Load "phisr_abx"; Load "a"; Op;
                         Load "l"; Op] RhsValue ["tmp_ag"];
            Simple 1832%N [] RhsEllipsis ["tmp_ja"];
            Simple 1833%N [Load "p22_l_jaja"; Load "j"; Op; Load "j"; Load "self";
                         Op; Load "j"; Op; Op; Load "a"; Op; Load "FAC22";
                         Load "tmp_ja"; Op; Op; Op] RhsValue [] ] ];
    Simple 1834%N [Load "get_phi_iabk"; Load "pfuncs_k"; Load "rgd"; Op;
                 Load "self"; Op; Load "self"; Op; Op] RhsValue ["phi_jabk"];
    Simple 1835%N [Load "phi_jabk"; Op; Load "self"; Op; Op; Op; Op] RhsValue [];
    Simple 1836%N [Load "phi_jabk"; Op; Load "self"; Op; Op; Op; Op] RhsValue [];
    Simple 1837%N [] RhsValue ["REG11"];
    Simple 1838%N [] RhsValue ["REG22"];
    Simple 1839%N [] RhsValue ["FAC22"];
    Simple 1840%N [Load "get_phi_iabg"; Load "phi_jabk"; Load "self"; Op;
                 Load "rgd"; Op] RhsValue ["phi_jabg"];
    Simple 1841%N [Load "get_p11_matrix"; Load "self"; Op; Load "rgd";
                 Load "REG11"; Op] RhsValue ["p11_lpp"];
    Simple 1842%N [Load "get_p12_p21_matrix"; Load "self"; Op; Load "phi_jabg";
                 Load "rgd"; Load "self"; Op; Load "self"; Op; Op; Op]
                RhsValue ["p12_pbja"; "p21_japb"];
    Simple 1845%N [] RhsValue ["p22_ljaja"];
    For 1846%N [Load "range"; Load "self"; Op; Op; Op] ["l"]
      [ Simple 1847%N [Load "p22_ljaja"; Op; Load "get_p22_matrix";
                     Load "phi_jabg"; Load "rgd"; Load "self"; Op; Load "l";
                     Load "self"; Op; Load "self"; Op; Load "REG22"; Op; Op]
                    RhsValue [];
        Simple 1858%N [Load "p22_ljaja"; Op; Load "FAC22"; Load "get_p22_matrix";
                     Load "phi_jabg"; Load "rgd"; Load "self"; Op; Load "l";
                     Load "self"; Op; Load "self"; Op; Op; Op; Op; Op]
                    RhsValue [] ];
    Simple 1867%N [Load "construct_full_p_matrices"; Load "p11_lpp";
                 Load "p12_pbja"; Load "p21_japb"; Load "p22_ljaja";
                 Load "self"; Op; Load "self"; Op; Op] RhsValue ["p_l_ii"];
    Simple 1875%N [Load "phi_jabk"; Load "self"; Op] RhsValue [];
    Simple 1876%N [Load "phi_jabg"; Load "self"; Op] RhsValue [];
    Simple 1877%N [Load "p_l_ii"; Load "self"; Op] RhsValue [];
    Simple 1878%N [Load "self"; Op] RhsValue [];
    Simple 1879%N [Load "self"; Op] RhsValue [];
    For 1880%N [Load "range"; Load "self"; Op; Op; Op] ["l"]
      [ Simple 1881%N [Load "cho_factor"; Load "p_l_ii"; Load "l"; Op; Op]
                    RhsValue ["c_and_l"];
        Simple 1882%N [Load "np"; Op; Load "p_l_ii"; Load "l"; Op; Op; Op; Op]
                    RhsValue ["idn"];
        Simple 1883%N [Load "self"; Op; Op; Load "c_and_l"; Op] RhsValue [];
        Simple 1884%N [Load "self"; Op; Op; Load "cho_solve"; Load "c_and_l";
                     Load "idn"; Op; Op] RhsValue [] ];
    Simple 1885%N [Load "_interpc"; Load "self"; Op; Load "rgd"; Load "self"; Op;
                 Op; Op; Load "self"; Op] RhsValue [] ].

(** [PSmoothSetup2.get_c_and_df], lines 1887-1910. *)
Definition PSmoothSetup2_get_c_and_df : pyfun :=
  mk_pyfun ["self"; "y_sgLb"; "realspace"]
  [ Simple 1888%N [Load "y_sgLb"; Op; Op] RhsValue ["nspin"; "ng"; "Lmax"; "nb"];
    Simple 1889%N [Load "self"; Op] RhsValue ["rgd"];
    Simple 1890%N [Load "self"; Op; Op] RhsValue ["Nalpha_sm"];
    Simple 1891%N [Load "self"; Op; Op; Op] RhsValue ["NP"];
    Simple 1892%N [Load "np"; Op; Load "nspin"; Load "self"; Op; Load "Nalpha_sm";
                 NeedInt "nspin"; NeedInt "Nalpha_sm"; Op] RhsValue ["c_sib"];
    Simple 1893%N [] RhsEllipsis ["nao"];
    Simple 1894%N [Load "np"; Op; Load "nspin"; Load "nao"; Load "nb";
                 NeedInt "nspin"; NeedInt "nao"; NeedInt "nb"; Op]
                RhsValue ["df_sub"];
    Simple 1895%N [] RhsEllipsis ["lloc_bas"];
    Simple 1896%N [] RhsEllipsis ["lloc_ao"];
    For 1897%N [Load "range"; Load "nspin"; Op] ["s"]
      [ For 1898%N [Load "range"; Load "self"; Op; Op; Op] ["l"]
          [ Simple 1899%N [Load "l"; Load "l"; Op] RhsValue ["Lmin"];
            Simple 1900%N [Load "l"; Op; Op] RhsValue ["dL"];
            For 1901%N [Load "range"; Load "Lmin"; Load "Lmin"; Load "dL"; Op; Op]
                     ["L"]
              [ Simple 1902%N [Load "self"; Op; Load "y_sgLb"; Load "s"; Load "L";
                             Op; Load "l"; Load "rgd"; Op] RhsValue ["b1"];
                Simple 1903%N [Load "self"; Op; Load "y_sgLb"; Load "s"; Load "L";
                             Op; Load "l"; Load "rgd"; Op] RhsValue ["b2"];
                Simple 1904%N [Load "self"; Op; Load "b1"; Load "b2"; Op]
                            RhsValue ["b"];
                Simple 1905%N [Load "cho_solve"; Load "self"; Op; Load "l"; Op;
                             Load "b"; Op] RhsValue ["x"];
                Simple 1906%N [Load "b1"; Op] RhsValue ["N1"];
                Simple 1907%N [Load "df_sLpb"; Load "s"; Load "L"; Op; Load "x";
                             Load "N1"; Op; Op; Load "NP"; Load "nb"; Op; Op; Op]
                            RhsValue [];
                Simple 1908%N [Load "self"; Op; Load "L"; Op] RhsValue ["ilist"];
                Simple 1909%N [Load "c_sib"; Load "s"; Load "ilist"; Op; Load "x";
                             Load "N1"; Op; Op; Load "Nalpha_sm"; Op; Op; Op]
                            RhsValue [] ] ] ];
    Return 1910%N [Load "c_sib"; Load "df_sLpb"] ].

(** The lines on which a body loads, and binds, a name. *)
Definition loads_name (x : string) (evs : list event) : bool :=
  existsb (fun e => match e with Load y => String.eqb x y | _ => false end) evs.

Definition binds_name (x : string) (xs : list string) : bool :=
  existsb (String.eqb x) xs.

Fixpoint load_lines (x : string) (s : stmt) : list N :=
  match s with
  | Simple ln evs _ _ => if loads_name x evs then [ln] else []
  | For ln evs _ b =>
      (if loads_name x evs then [ln] else []) ++ flat_map (load_lines x) b
  | Return ln evs => if loads_name x evs then [ln] else []
  end.

Fixpoint store_lines (x : string) (s : stmt) : list N :=
  match s with
  | Simple ln _ _ xs => if binds_name x xs then [ln] else []
  | For ln _ xs b =>
      (if binds_name x xs then [ln] else []) ++ flat_map (store_lines x) b
  | Return _ _ => []
  end.

(** The run in which every operation succeeds and every loop iterates
    [n] times. *)
Definition all_ok (n : nat) : oracle := mk_oracle (fun _ _ => None) (fun _ => n).

(** The run of [initialize_a2g] on an object whose [alphas_ae] is
    [None], the default of [PASDWData.__init__]: on line 1805 the events
    are [np] (0), [.ones] (1), [self] (2), [.alphas_ae] (3) and [.size]
    (4), and the last one raises. *)
Definition alphas_ae_is_None : oracle :=
  mk_oracle
    (fun line idx =>
       if N.eqb line 1805 && Nat.eqb idx 4
       then Some (AttributeError "size") else None)
    (fun _ => 1).

(** What is shown of a block: every run of it raises, and raises [e0]
    when no operation does. *)
Definition always_raises (L : list string) (ss : list stmt) (ρ : env)
  (e0 : pyerr) : Prop :=
  forall orc, exists e,
    run_block L orc ss ρ = Raise e /\
    ((forall ln k, op_raises orc ln k = None) -> e = e0).

End Names.

(** ** Dense linear algebra: numpy sums and scipy's Cholesky routines *)

Module LA.

Import Py.

Local Open Scope R_scope.

Definition vec : Type := nat -> R.
Definition mat : Type := nat -> nat -> R.

(** The sum of [f 0 .. f (n - 1)], the contraction of one [einsum] index. *)
Fixpoint rsum (n : nat) (f : nat -> R) : R :=
  match n with
  | O => 0
  | S n' => rsum n' f + f n'
  end.

(** [np.identity]. *)
Definition identity : mat := fun i j => if Nat.eqb i j then 1 else 0.

(** What [cho_factor] returns with its default [lower=False]: the order
    of the matrix and the upper triangular factor [c]. *)
Record factor : Type := mk_factor {
  fsize : nat;
  fU : mat
}.

(** Entry [(m, j)] of the factor whose finished rows are [rows]. *)
Definition row_entry (rows : list vec) (m j : nat) : R :=
  nth m rows (fun _ => 0) j.

(** The pivot of row [k]: [A[k,k]] minus the squares above it. *)
Definition chol_pivot (A : mat) (rows : list vec) (k : nat) : R :=
  A k k - rsum k (fun m => row_entry rows m k * row_entry rows m k).

(** Row [k] of the factor; only the upper triangle of [A] is read. *)
Definition chol_row (A : mat) (rows : list vec) (k : nat) : vec :=
  fun j =>
    if Nat.ltb j k then 0
    else if Nat.eqb j k then sqrt (chol_pivot A rows k)
    else (A k j - rsum k (fun m => row_entry rows m k * row_entry rows m j))
         / sqrt (chol_pivot A rows k).

(** The first [k] rows, or [None] when a pivot is not positive (LAPACK's
    [potrf] stops there with a positive [info]). *)
Fixpoint chol_rows (A : mat) (k : nat) : option (list vec) :=
  match k with
  | O => Some []
  | S k' =>
      match chol_rows A k' with
      | None => None
      | Some rows =>
          if Rlt_dec 0 (chol_pivot A rows k')
          then Some (rows ++ [chol_row A rows k'])
          else None
      end
  end.

(** [scipy.linalg.cho_factor(a)] for an [n] by [n] array. *)
Definition cho_factor (n : nat) (A : mat) : res factor :=
  match chol_rows A n with
  | Some rows => Ok (mk_factor n (row_entry rows))
  | None => Raise LinAlgError
  end.

(** Forward substitution with a lower triangular [L]: the first [k]
    unknowns of [L y = b]. *)
Fixpoint tri_solve (L : mat) (b : vec) (k : nat) : list R :=
  match k with
  | O => []
  | S k' =>
      let ys := tri_solve L b k' in
      ys ++ [(b k' - rsum k' (fun m => L k' m * nth m ys 0)) / L k' k']
  end.

Definition fwd_solve (n : nat) (L : mat) (b : vec) : vec :=
  fun i => nth i (tri_solve L b n) 0.

(** Reversal of the index range [0 .. n - 1]. *)
Definition flip (n i : nat) : nat := n - 1 - i.

(** Back substitution with an upper triangular [U], as forward
    substitution on the reversed system. *)
Definition bwd_solve (n : nat) (U : mat) (y : vec) : vec :=
  fun i =>
    fwd_solve n (fun t s => U (flip n t) (flip n s)) (fun t => y (flip n t)) (flip n i).

(** [scipy.linalg.cho_solve((c, False), b)] for a vector [b]: solve
    [c^T y = b], then [c x = y]. *)
Definition cho_solve (F : factor) (b : vec) : vec :=
  let n := fsize F in
  bwd_solve n (fU F) (fwd_solve n (fun i m => fU F m i) b).

(** [cho_solve] for a two-dimensional right-hand side: column by column. *)
Definition cho_solve_mat (F : factor) (B : mat) : mat :=
  fun i g => cho_solve F (fun i' => B i' g) i.

(** The matrix a factorization stands for: the upper triangle of [A]
    mirrored. *)
Definition sym (A : mat) : mat :=
  fun i j => if Nat.leb i j then A i j else A j i.

(** Positive definiteness of the [n] by [n] matrix [A]. *)
Definition posdef (n : nat) (A : mat) : Prop :=
  forall x : vec,
    (exists i, (i < n)%nat /\ x i <> 0) ->
    0 < rsum n (fun i => rsum n (fun j => x i * A i j * x j)).

(** What a successful factorization computes: an upper triangular [U]
    with a positive diagonal whose Gram matrix is the upper triangle
    of [A]. *)
Record is_cholesky (n : nat) (A U : mat) : Prop := mk_is_cholesky {
  chol_upper : forall i j, (j < i)%nat -> U i j = 0;
  chol_diag : forall i, (i < n)%nat -> 0 < U i i;
  chol_gram : forall i j, (i <= j)%nat -> (i < n)%nat ->
                rsum (S i) (fun m => U m i * U m j) = A i j
}.

End LA.

(** ** The per-species setups [PASDWData], [PAugSetup], [PSmoothSetup] *)

Module Setups.

Import Py LA.

Local Open Scope R_scope.

Definition arr3 : Type := nat -> nat -> nat -> R.
Definition arr4 : Type := nat -> nat -> nat -> nat -> R.

(** A radial grid descriptor: its size, [r_g], [dr_g] and [k_g]. *)
Record rgd_t : Type := mk_rgd {
  n_g : nat;
  r_g : vec;
  dr_g : vec;
  k_g : vec
}.

(** The attributes [PASDWData.__init__] stores. *)
Record PASDWData : Type := mk_PASDWData {
  nn : nat;
  ng : nat;
  nt : nat;
  ni : nat;
  nj : nat;
  lmax : nat;
  pfuncs_ng : mat;
  pfuncs_ntp : arr3;
  nbas_loc : list nat;
  nlist_j : list nat;
  llist_j : list nat;
  lmlist_i : list nat;
  jlist_i : list nat;
  interp_rgd : rgd_t;
  slrgd : rgd_t;
  sbt_rgd : rgd_t;
  rcut_func : R;
  rcut_feat : R;
  alphas : list R;
  alphas_ae : list R;
  alpha_norms : list R;
  pmax : option R
}.

(** Entry [i] of a one-dimensional array held as a list. *)
Definition item (l : list R) (i : nat) : R := nth i l 0.
Definition itemn (l : list nat) (i : nat) : nat := nth i l O.

(** [a[lo:hi]] on an array of [n] entries selects [lo' .. hi' - 1] with
    both bounds clipped to [n]. *)
Definition clip (n i : nat) : nat := Nat.min i n.

(** *** [PAugSetup] *)

(** Functions of other modules that [PAugSetup] calls: gpaw's [spline]
    (number of knots, values; result indexed by knot and coefficient)
    and [get_ffunc3] of [fit_paw_gauss_pot]. *)
Record aug_ext : Type := mk_aug_ext {
  spline : nat -> vec -> mat;
  get_ffunc3 : nat -> vec -> R -> vec
}.

Record PAugSetup : Type := mk_PAugSetup {
  pa_data : PASDWData;
  ffuncs_jg : mat;
  ffuncs_jtp : arr3;
  exact_ovlp_pf : mat
}.

(** [PAugSetup.get_filt]. *)
Definition get_filt (self : PASDWData) (r : vec) : vec :=
  fun g =>
    if Rlt_dec (rcut_feat self) (r g) then 0
    else 0.5 + 0.5 * cos (PI * r g / rcut_feat self).

(** [dv_g = r_g * r_g * dr_g]. *)
Definition g2a_dv_g (self : PASDWData) : vec :=
  fun g => r_g (slrgd self) g * r_g (slrgd self) g * dr_g (slrgd self) g.

(** The rows [pfuncs_ng[nlist_j[jmin:jmax]]] of one channel. *)
Definition channel_rows (self : PASDWData) (jmin : nat) : mat :=
  fun i g => pfuncs_ng self (itemn (nlist_j self) (jmin + i)) g.

(** [np.einsum("ig,jg,g->ij", p, p, dv_g * filt)]. *)
Definition channel_ovlp (self : PASDWData) (jmin : nat) : mat :=
  fun i j =>
    rsum (ng self) (fun g =>
      channel_rows self jmin i g * channel_rows self jmin j g *
      (g2a_dv_g self g * get_filt self (r_g (slrgd self)) g)).

(** [a[jmin:jmax] = x]: rows [jmin .. jmax - 1] are overwritten. *)
Definition set_rows (a : mat) (jmin jmax : nat) (x : mat) : mat :=
  fun j g =>
    if Nat.leb jmin j && Nat.ltb j jmax then x (j - jmin)%nat g else a j g.

(** One iteration of the loop over [l] in [initialize_g2a]. *)
Definition g2a_channel (self : PASDWData) (acc : mat * mat) (l : nat)
  : res (mat * mat) :=
  let '(ffuncs_jg, ffuncs_jt) := acc in
  jmin0 ← getindex (nbas_loc self) l;
  jmax0 ← getindex (nbas_loc self) (l + 1);
  let jmin := clip (nj self) jmin0 in
  let jmax := clip (nj self) jmax0 in
  let ovlp := channel_ovlp self jmin in
  c_and_l ← cho_factor (jmax - jmin) ovlp;
  Ok (set_rows ffuncs_jg jmin jmax
        (cho_solve_mat c_and_l (channel_rows self jmin)),
      set_rows ffuncs_jt jmin jmax
        (cho_solve_mat c_and_l
           (fun i t => pfuncs_ntp self (itemn (nlist_j self) (jmin + i)) t O))).

Fixpoint g2a_loop (self : PASDWData) (acc : mat * mat) (ls : list nat)
  : res (mat * mat) :=
  match ls with
  | [] => Ok acc
  | l :: rest => acc' ← g2a_channel self acc l; g2a_loop self acc' rest
  end.

(** [PAugSetup.initialize_g2a]: the attributes after the call.  The
    in-place product [self.pfuncs_ng *= filt] changes the array that the
    overlaps were computed from. *)
Definition initialize_g2a (E : aug_ext) (self : PASDWData) : res PAugSetup :=
  let zeros : mat := fun _ _ => 0 in
  '(ffuncs_jg, ffuncs_jt) ← g2a_loop self (zeros, zeros) (seq 0 (lmax self + 1));
  let ntk := n_g (interp_rgd self) in
  let ffuncs_jtp : arr3 :=
    fun j t p => if Nat.ltb j (nj self) then spline E ntk (ffuncs_jt j) t p else 0 in
  let filt := get_filt self (r_g (slrgd self)) in
  let filt_t := get_filt self (r_g (interp_rgd self)) in
  let pfuncs_ng' : mat := fun n g => pfuncs_ng self n g * filt g in
  let pfuncs_ntp' : arr3 :=
    fun n t p =>
      if Nat.ltb n (nn self) then
        spline E ntk
          (fun t' => get_ffunc3 E n (r_g (interp_rgd self)) (rcut_func self) t'
                      * filt_t t')
          t p
      else pfuncs_ntp self n t p in
  Ok (mk_PAugSetup
        (mk_PASDWData (nn self) (ng self) (nt self) (ni self) (nj self) (lmax self)
           pfuncs_ng' pfuncs_ntp' (nbas_loc self) (nlist_j self) (llist_j self)
           (lmlist_i self) (jlist_i self) (interp_rgd self) (slrgd self)
           (sbt_rgd self) (rcut_feat self) (rcut_feat self) (alphas self)
           (alphas_ae self) (alpha_norms self) (pmax self))
        ffuncs_jg ffuncs_jtp identity).

(** The channel boundaries grow with [l], as [np.cumsum] makes them. *)
Definition sorted_loc (self : PASDWData) : Prop :=
  forall l l' a b,
    (l <= l')%nat -> nbas_loc self !! l = Some a -> nbas_loc self !! l' = Some b ->
    (a <= b)%nat.

(** Row [j] lies in the slice [jmin:jmax] of channel [l]. *)
Definition in_channel (self : PASDWData) (l j : nat) : Prop :=
  exists a b,
    nbas_loc self !! l = Some a /\ nbas_loc self !! (l + 1)%nat = Some b /\
    (a <= j < b)%nat /\ (j < nj self)%nat.

(** The radial integral [sum_g f[g] p[g] w[g]] over the grid of [self]. *)
Definition radial_dot (self : PASDWData) (f p w : vec) : R :=
  rsum (ng self) (fun g => f g * p g * w g).

(** *** [PSmoothSetup] *)

(** Functions that [PSmoothSetup] calls and that are defined elsewhere:
    those of [ciderpress.gpaw.fit_paw_gauss_pot], and scipy's cubic
    [interp1d] with the grid's [r2g] used by [_interpc].  A keyword
    argument that a call leaves out is [None] here: the callee's default
    applies. *)
Record fit_ext : Type := mk_fit_ext {
  get_dv : rgd_t -> vec;
  get_dvk : rgd_t -> vec;
  get_delta_lpg : list R -> R -> rgd_t -> R -> nat -> nat * arr3;
  get_delta_lpk : arr3 -> rgd_t -> arr3;
  get_pfuncs_k : mat -> list nat -> rgd_t -> list nat -> mat;
  get_phi_iabk : mat -> vec -> list R -> list R -> arr4;
  get_phi_iabg : arr4 -> list nat -> rgd_t -> arr4;
  get_p11_matrix : arr3 -> rgd_t -> option R -> arr3;
  get_p12_p21_matrix : arr3 -> arr4 -> rgd_t -> list nat -> list R -> arr4 * arr4;
  get_p22_matrix :
    arr4 -> rgd_t -> R -> nat -> list R -> list nat -> option R -> option bool -> arr4;
  construct_full_p_matrices :
    arr3 -> arr4 -> arr4 -> list arr4 -> list R -> list nat -> list (nat * mat);
  interp1d_cubic : nat -> arr4 -> vec -> arr4;
  r2g : rgd_t -> vec -> vec
}.

(** [_interpc(func, ref_rgd, r_g)]. *)
Definition _interpc (E : fit_ext) (func : arr4) (ref_rgd : rgd_t) (r : vec) : arr4 :=
  interp1d_cubic E (n_g ref_rgd) func (r2g E ref_rgd r).

(** The attributes of a [PSmoothSetup] once [initialize_a2g] has run;
    [NP] is [delta_lpg.shape[1]], and each entry of [p_l_ii] carries the
    order of the matrix. *)
Record PSmoothSetup : Type := mk_PSmoothSetup {
  ps_data : PASDWData;
  pfuncs_ng2 : mat;
  w_b : list R;
  NP : nat;
  delta_lpg : arr3;
  delta_lpk : arr3;
  deltasl_lpg : arr3;
  phi_jabk : arr4;
  phi_jabg : arr4;
  phi_sr_jabg : arr4;
  p_l_ii : list (nat * mat);
  pinv_l_ii : list mat;
  p_cl_l_ii : list factor
}.

(** [np.ones(n) / norms**2] with numpy's broadcasting of two
    one-dimensional operands. *)
Definition ones_over_square (n : nat) (norms : list R) : res (list R) :=
  if Nat.eqb (length norms) n then Ok (map (fun x => 1 / x ^ 2) norms)
  else if Nat.eqb (length norms) 1 then Ok (repeat (1 / item norms 0 ^ 2) n)
  else if Nat.eqb n 1 then Ok (map (fun x => 1 / x ^ 2) norms)
  else Raise (ValueError "operands could not be broadcast together").

Definition REG11 : R := 1e-6.
Definition REG22 : R := 1e-5.
Definition FAC22 : R := 1e-2.

(** [p22_ljaja[l]]: the call with [reg=REG22] plus [FAC22] times the
    call with [cut_func=True]. *)
Definition p22_channel (E : fit_ext) (self : PASDWData) (phi_jabg : arr4)
  (w_b : list R) (l : nat) : arr4 :=
  let rgd := sbt_rgd self in
  let first := get_p22_matrix E phi_jabg rgd (rcut_feat self) l w_b
                 (nbas_loc self) (Some REG22) None in
  let second := get_p22_matrix E phi_jabg rgd (rcut_feat self) l w_b
                  (nbas_loc self) None (Some true) in
  fun j a j' a' => first j a j' a' + FAC22 * second j a j' a'.

(** The last loop of [initialize_a2g]: one [cho_factor] per channel,
    kept in [p_cl_l_ii], and the inverse obtained from it by
    [cho_solve].  The third component records, in order, the channels
    on which [cho_factor] has been called. *)
Fixpoint factor_loop (p_l_ii : list (nat * mat)) (ls : list nat)
  (acc : list factor * list mat) (calls : list nat) {struct ls}
  : res (list factor * list mat) * list nat :=
  match ls with
  | [] => (Ok acc, calls)
  | l :: rest =>
      match getindex p_l_ii l with
      | Raise e => (Raise e, calls)
      | Ok (n, P) =>
          match cho_factor n P with
          | Raise e => (Raise e, calls ++ [l])
          | Ok c_and_l =>
              factor_loop p_l_ii rest
                (fst acc ++ [c_and_l],
                 snd acc ++ [cho_solve_mat c_and_l identity])
                (calls ++ [l])
          end
      end
  end.

(** Everything [initialize_a2g] computes before it factorizes. *)
Record a2g_matrices : Type := mk_a2g_matrices {
  m_w_b : list R;
  m_NP : nat;
  m_delta_lpg : arr3;
  m_delta_lpk : arr3;
  m_deltasl_lpg : arr3;
  m_phi_jabk : arr4;
  m_phi_jabg : arr4;
  m_p11_lpp : arr3;
  m_p22_ljaja : list arr4;
  m_p_l_ii : list (nat * mat)
}.

Definition a2g_assemble (E : fit_ext) (self : PASDWData) (pfuncs_ng2 : mat)
  : res a2g_matrices :=
  w_b ← ones_over_square (length (alphas_ae self)) (alpha_norms self);
  pmax ← match pmax self with
          | None => m ← Nalpha.np_max (alphas_ae self); Ok (4 * m)
          | Some p => Ok (2 * p)
          end;
  let pmin := 2 / rcut_feat self ^ 2 in
  let lambd := 1.8 in
  let N := (Zceil (ln (pmax / pmin) / ln lambd) + 1)%Z in
  let dd := ln (pmax / pmin) / IZR (N - 1) in
  let alphas_bas := map (fun i => pmax * exp (- dd * INR i)) (seq 0 (Z.to_nat N)) in
  let '(NP, delta_lpg) :=
    get_delta_lpg E alphas_bas (rcut_feat self) (sbt_rgd self) pmin (lmax self) in
  let delta_lpk := get_delta_lpk E delta_lpg (sbt_rgd self) in
  let deltasl_lpg :=
    snd (get_delta_lpg E alphas_bas (rcut_feat self) (slrgd self) pmin (lmax self)) in
  let rgd := sbt_rgd self in
  let pfuncs_jg : mat := fun j g => pfuncs_ng2 (itemn (nlist_j self) j) g in
  let pfuncs_k := get_pfuncs_k E pfuncs_jg (llist_j self) rgd (nlist_j self) in
  let phi0 := get_phi_iabk E pfuncs_k (k_g rgd) (alphas self) (alphas_ae self) in
  let phi_jabk : arr4 :=
    fun j a b k => phi0 j a b k * item (alpha_norms self) a * item (alpha_norms self) b in
  let phi_jabg := get_phi_iabg E phi_jabk (llist_j self) rgd in
  let p11_lpp := get_p11_matrix E delta_lpg rgd (Some REG11) in
  let '(p12_pbja, p21_japb) :=
    get_p12_p21_matrix E delta_lpg phi_jabg rgd (llist_j self) w_b in
  let p22_ljaja := map (p22_channel E self phi_jabg w_b) (seq 0 (lmax self + 1)) in
  let p_l_ii :=
    construct_full_p_matrices E p11_lpp p12_pbja p21_japb p22_ljaja w_b
      (nbas_loc self) in
  Ok (mk_a2g_matrices w_b NP delta_lpg delta_lpk deltasl_lpg phi_jabk phi_jabg
        p11_lpp p22_ljaja p_l_ii).

(** [PSmoothSetup.initialize_a2g], with the list of [cho_factor] calls. *)
Definition initialize_a2g (E : fit_ext) (self : PASDWData) (pfuncs_ng2 : mat)
  : res PSmoothSetup * list nat :=
  match a2g_assemble E self pfuncs_ng2 with
  | Raise e => (Raise e, [])
  | Ok m =>
      match factor_loop (m_p_l_ii m) (seq 0 (lmax self + 1)) ([], []) [] with
      | (Raise e, calls) => (Raise e, calls)
      | (Ok (p_cl, pinv), calls) =>
          (Ok (mk_PSmoothSetup self pfuncs_ng2 (m_w_b m) (m_NP m) (m_delta_lpg m)
                 (m_delta_lpk m) (m_deltasl_lpg m) (m_phi_jabk m) (m_phi_jabg m)
                 (_interpc E (m_phi_jabg m) (sbt_rgd self) (r_g (slrgd self)))
                 (m_p_l_ii m) pinv p_cl),
           calls)
      end
  end.

(** *** [PSmoothSetup.get_c_and_df]

    The input [y_sbLg] carries its shape; the arrays of the setup are
    read at the shapes [initialize_a2g] gave them, and the input is
    taken to conform to them (numpy raises otherwise). *)

Record shaped4 : Type := mk_shaped4 {
  dim0 : nat;
  dim1 : nat;
  dim2 : nat;
  dim3 : nat;
  data4 : arr4
}.

(** [m.flatten()] and [v.reshape(-1, ncol)], row-major. *)
Definition flatten (ncol : nat) (m : mat) : vec :=
  fun i => m (i / ncol)%nat (i mod ncol)%nat.
Definition reshape (ncol : nat) (v : vec) : mat :=
  fun r c => v (r * ncol + c)%nat.

(** [cat_b_vecs]: [np.append(b1.flatten(), b2.flatten())], [n1] being
    [b1.size]. *)
Definition cat_b_vecs (n1 : nat) (b1 b2 : vec) : vec :=
  fun i => if Nat.ltb i n1 then b1 i else b2 (i - n1)%nat.

Definition get_b1_pb (E : fit_ext) (self : PSmoothSetup) (n_grid : nat)
  (FL_bg : mat) (l : nat) (rgd : rgd_t) : mat :=
  fun p b =>
    rsum n_grid (fun g => FL_bg b g * delta_lpg self l p g * get_dv E rgd g)
    * item (w_b self) b.

Definition get_b2_ja (E : fit_ext) (self : PSmoothSetup) (nb n_grid : nat)
  (FL_bg : mat) (l : nat) (rgd : rgd_t) : mat :=
  fun j a =>
    rsum nb (fun b => rsum n_grid (fun g =>
      FL_bg b g
      * phi_jabg self (itemn (nbas_loc (ps_data self)) l + j)%nat a b g
      * item (w_b self) b * get_dv E rgd g)).

Definition get_b1_pb_recip (E : fit_ext) (self : PSmoothSetup) (n_grid : nat)
  (FL_bg : mat) (l : nat) (rgd : rgd_t) : mat :=
  fun p b =>
    rsum n_grid (fun g => FL_bg b g * delta_lpk self l p g * get_dvk E rgd g)
    * item (w_b self) b.

Definition get_b2_ja_recip (E : fit_ext) (self : PSmoothSetup) (nb n_grid : nat)
  (FL_bg : mat) (l : nat) (rgd : rgd_t) : mat :=
  fun j a =>
    rsum nb (fun b => rsum n_grid (fun g =>
      FL_bg b g
      * phi_jabk self (itemn (nbas_loc (ps_data self)) l + j)%nat a b g
      * item (w_b self) b * get_dvk E rgd g)).

(** The position of row [i] among the rows selected by the boolean mask
    [lmlist_i == L]. *)
Definition mask_rank (lm : list nat) (L i : nat) : nat :=
  length (filter (fun x => Nat.eqb x L) (firstn i lm)).

(** The triples [(s, l, L)] in the order the three nested loops visit
    them. *)
Definition c_and_df_loops (nspin lmax : nat) : list (nat * nat * nat) :=
  flat_map (fun s =>
    flat_map (fun l => map (fun L => (s, l, L)) (seq (l * l) (2 * l + 1)))
             (seq 0 (lmax + 1)))
    (seq 0 nspin).

(** The factorization a solve for channel [l] reads. *)
Definition stored_factor (self : PSmoothSetup) (l : nat) : factor :=
  nth l (p_cl_l_ii self) (mk_factor 0 (fun _ _ => 0)).

(** The body of the innermost loop. *)
Definition c_and_df_step (E : fit_ext) (self : PSmoothSetup) (y_sbLg : shaped4)
  (realspace : bool) (acc : arr3 * arr4) (slL : nat * nat * nat) : arr3 * arr4 :=
  let '(c_sib, df_sLpb) := acc in
  let '(s, l, L) := slL in
  let nb := dim1 y_sbLg in
  let n_grid := dim3 y_sbLg in
  let rgd := sbt_rgd (ps_data self) in
  let Nalpha_sm := length (alphas (ps_data self)) in
  let FL_bg : mat := fun b g => data4 y_sbLg s b L g in
  let b1 := if realspace then get_b1_pb E self n_grid FL_bg l rgd
            else get_b1_pb_recip E self n_grid FL_bg l rgd in
  let b2 := if realspace then get_b2_ja E self nb n_grid FL_bg l rgd
            else get_b2_ja_recip E self nb n_grid FL_bg l rgd in
  let N1 := (NP self * nb)%nat in
  let b := cat_b_vecs N1 (flatten nb b1) (flatten Nalpha_sm b2) in
  let x := cho_solve (stored_factor self l) b in
  let df' : arr4 :=
    fun s' L' p q =>
      if Nat.eqb s' s && Nat.eqb L' L
      then df_sLpb s' L' p q + reshape nb x p q
      else df_sLpb s' L' p q in
  let lm := lmlist_i (ps_data self) in
  let c' : arr3 :=
    fun s' i q =>
      if Nat.eqb s' s && Nat.ltb i (length lm) && Nat.eqb (itemn lm i) L
      then c_sib s' i q
           + reshape Nalpha_sm (fun t => x (N1 + t)%nat) (mask_rank lm L i) q
      else c_sib s' i q in
  (c', df').

Definition get_c_and_df (E : fit_ext) (self : PSmoothSetup) (y_sbLg : shaped4)
  (realspace : bool) : arr3 * arr4 :=
  fold_left (c_and_df_step E self y_sbLg realspace)
    (c_and_df_loops (dim0 y_sbLg) (lmax (ps_data self)))
    (fun _ _ _ => 0, fun _ _ _ _ => 0).

(** Inputs of one shape, and the field [a x + b y]. *)
Definition same_shape (x y : shaped4) : Prop :=
  dim0 x = dim0 y /\ dim1 x = dim1 y /\ dim2 x = dim2 y /\ dim3 x = dim3 y.

Definition lincomb (a : R) (x : shaped4) (b : R) (y : shaped4) : shaped4 :=
  mk_shaped4 (dim0 x) (dim1 x) (dim2 x) (dim3 x)
    (fun s q L g => a * data4 x s q L g + b * data4 y s q L g).

(** Two accumulators [(c_sib, df_sLpb)] combined entry by entry. *)
Definition lin_acc (a b : R) (z x y : arr3 * arr4) : Prop :=
  (forall s i q, fst z s i q = a * fst x s i q + b * fst y s i q) /\
  (forall s L p q, snd z s L p q = a * snd x s L p q + b * snd y s L p q).

(** *** A one-function setup

    One radial function in the single channel [l = 0] on a one-point
    grid with [r = dr = 1] and a cutoff radius of 2, and collaborators
    that return constants. *)
Definition rgd1 : rgd_t := mk_rgd 1 (fun _ => 1) (fun _ => 1) (fun _ => 1).

Definition data1 : PASDWData :=
  mk_PASDWData 1 1 1 1 1 0 (fun _ _ => 1) (fun _ _ _ => 1)
    [0; 1]%nat [0]%nat [0]%nat [0]%nat [0]%nat rgd1 rgd1 rgd1 2 2 [1] [1] [1] None.

(** The smallest shell table on a grid of three points, with the unit
    vectors as projectors. *)
Definition rgd3 : rgd_t := mk_rgd 3 (fun _ => 1) (fun _ => 1) (fun _ => 1).

Definition data2 : PASDWData :=
  mk_PASDWData 3 3 1 10 4 2 identity (fun _ _ _ => 1)
    [0; 2; 3; 4]%nat [0; 2; 1; 2]%nat [0; 0; 1; 2]%nat
    [0; 0; 1; 2; 3; 4; 5; 6; 7; 8]%nat [0; 1; 2; 2; 2; 3; 3; 3; 3; 3]%nat
    rgd1 rgd3 rgd1 2 2 [1] [1] [1] None.

Definition aug1 : aug_ext :=
  mk_aug_ext (fun _ v t _ => v t) (fun _ _ _ _ => 1).

Definition fit1 : fit_ext :=
  mk_fit_ext
    (fun _ _ => 1) (fun _ _ => 1)
    (fun _ _ _ _ _ => (1%nat, fun _ _ _ => 1))
    (fun d _ => d)
    (fun p _ _ _ => p)
    (fun _ _ _ _ _ _ _ _ => 1)
    (fun phi _ _ => phi)
    (fun _ _ _ _ _ _ => 1)
    (fun _ phi _ _ _ => (phi, phi))
    (fun phi _ _ _ _ _ _ _ => phi)
    (fun _ _ _ _ _ _ => [(1%nat, fun _ _ => 1)])
    (fun _ phi _ => phi)
    (fun _ r => r).

Definition smooth1 : PSmoothSetup :=
  mk_PSmoothSetup data1 (fun _ _ => 1) [1] 1 (fun _ _ _ => 1) (fun _ _ _ => 1)
    (fun _ _ _ => 1) (fun _ _ _ _ => 1) (fun _ _ _ _ => 1) (fun _ _ _ _ => 1)
    [(2%nat, fun i j => if Nat.eqb i j then 1 else 0)]
    [fun i j => if Nat.eqb i j then 1 else 0]
    [mk_factor 2 (fun i j => if Nat.eqb i j then 1 else 0)].

Definition field1 : shaped4 := mk_shaped4 1 1 1 1 (fun _ _ _ _ => 1).
Definition field2 : shaped4 := mk_shaped4 1 1 1 1 (fun _ _ _ _ => 2).

End Setups.

(** ** The shell bookkeeping of the [from_setup] constructors *)

Module ShellLoops.

Import Shells.

(** What the code that uses a table relies on: function [j] of angular
    momentum [l] lies in the slice [nbas_loc[l] : nbas_loc[l + 1]], its
    radial index [n = nlist_j[j]] is a row of the arrays of [nn] radial
    functions, is at least [l] and has the parity of [l]; and two
    neighbours of one channel have increasing radial indices. *)
Definition well_formed (t : shell_table) : Prop :=
  length (llist_j t) = length (nlist_j t) /\
  (forall j, j < nj t ->
     exists l n a b,
       llist_j t !! j = Some l /\ nlist_j t !! j = Some n /\
       nbas_loc t !! l = Some a /\ nbas_loc t !! (l + 1) = Some b /\
       a <= j < b /\ l <= lmax t /\ l <= n /\ Nat.even (n - l) = true /\ n < nn t) /\
  (forall j l n n',
     llist_j t !! j = Some l -> llist_j t !! (j + 1) = Some l ->
     nlist_j t !! j = Some n -> nlist_j t !! (j + 1) = Some n' -> n < n').

End ShellLoops.

(** ** Radial cutoff functions *)

Module Cutoffs.

Import LA Setups.

Local Open Scope R_scope.

(** [PAugSetup.get_fcut]: one up to [R = rcut_feat], a cosine ramp
    between [R] and [2 R], zero beyond. The second masked assignment
    overrides the first. *)
Definition get_fcut (self : PASDWData) (r : vec) : vec :=
  fun g =>
    let R := rcut_feat self in
    if Rlt_dec (2 * R) (r g) then 0
    else if Rlt_dec R (r g) then 0.5 + 0.5 * cos (PI * (r g - R) / R)
    else 1.

(** The cutoff that [calculate_paw_cider_features] (lines 903-906) and
    [calculate_paw_cider_potential] (lines 1099-1102) build on the grid
    [slgd.r_g], with [rcut = np.max(setup.rcut_j)] and
    [rmax = slgd.r_g[-1]]; the array that is cut is multiplied by it
    along the radial axis. *)
Definition stage_fcut (rcut rmax : R) (r : vec) : vec :=
  fun g =>
    if Rlt_dec rmax (r g) then 0
    else if Rlt_dec (r g) rcut then 1
    else 0.5 + 0.5 * cos (PI * (r g - rcut) / (rmax - rcut)).

(** [x_sgLq *= fcut[:, None, None]] on an array indexed [s, g, L, q]. *)
Definition apply_fcut (fcut : vec) (x_sgLq : arr4) : arr4 :=
  fun s g L q => x_sgLq s g L q * fcut g.

(** The one-function setup of [data1] with a projector that vanishes
    identically. *)
Definition data_zero : PASDWData :=
  mk_PASDWData 1 1 1 1 1 0 (fun _ _ => 0) (fun _ _ _ => 1)
    [0; 1]%nat [0]%nat [0]%nat [0]%nat [0]%nat rgd1 rgd1 rgd1 2 2 [1] [1] [1] None.

End Cutoffs.

(** ** [PSmoothSetup]: the remaining projections and their transposes *)

Module SmoothOps.

Import Py LA Setups.

Local Open Scope R_scope.

(** A three-dimensional array with its shape. *)
Record shaped3 : Type := mk_shaped3 {
  d3_0 : nat;
  d3_1 : nat;
  d3_2 : nat;
  data3 : arr3
}.

(** [out[sel] += term]: the entries selected are incremented, the rest
    is kept. *)
Definition add3 (sel : nat -> nat -> nat -> bool) (term acc : arr3) : arr3 :=
  fun a b c => if sel a b c then acc a b c + term a b c else acc a b c.

Definition add4 (sel : nat -> nat -> nat -> nat -> bool) (term acc : arr4) : arr4 :=
  fun a b c d => if sel a b c d then acc a b c d + term a b c d else acc a b c d.

(** [np.sum(x * y)] over arrays of the shape given. *)
Definition dot3 (A B C : nat) (x y : arr3) : R :=
  rsum A (fun a => rsum B (fun b => rsum C (fun c => x a b c * y a b c))).

Definition dot4 (A B C D : nat) (x y : arr4) : R :=
  rsum A (fun a => rsum B (fun b => rsum C (fun c => rsum D (fun d =>
    x a b c d * y a b c d)))).

Definition dot2 (A B : nat) (x y : mat) : R :=
  rsum A (fun a => rsum B (fun b => x a b * y a b)).

(** The number of rows of the slice [nbas_loc[l] : nbas_loc[l + 1]] of
    an array with [nj] rows; row [k] of the slice is row
    [nbas_loc[l] + k] of the array. *)
Definition chan_size (self : PSmoothSetup) (l : nat) : nat :=
  let d := ps_data self in
  (clip (nj d) (itemn (nbas_loc d) (l + 1)) - clip (nj d) (itemn (nbas_loc d) l))%nat.

Definition chan_off (self : PSmoothSetup) (l : nat) : nat :=
  itemn (nbas_loc (ps_data self)) l.

(** [self.alphas.size], the extent of the axis [a] of [phi_jabg]. *)
Definition Nalpha_sm (self : PSmoothSetup) : nat := length (alphas (ps_data self)).

(** [get_vb1_pb]: [einsum("pb,pg->bg", b_pb, delta_lpg[l]) * w_b[:, None]]. *)
Definition get_vb1_pb (self : PSmoothSetup) (b_pb : mat) (l : nat) : mat :=
  fun b g =>
    rsum (NP self) (fun p => b_pb p b * delta_lpg self l p g) * item (w_b self) b.

(** [get_vb2_ja]: [einsum("ja,jabg->bg", b_ja, phi_jabg[slice]) * w_b[:, None]]. *)
Definition get_vb2_ja (self : PSmoothSetup) (b_ja : mat) (l : nat) : mat :=
  fun b g =>
    rsum (chan_size self l) (fun j => rsum (Nalpha_sm self) (fun a =>
      b_ja j a * phi_jabg self (chan_off self l + j)%nat a b g))
    * item (w_b self) b.

Definition get_vb1_pb_recip (self : PSmoothSetup) (b_pb : mat) (l : nat) : mat :=
  fun b g =>
    rsum (NP self) (fun p => b_pb p b * delta_lpk self l p g) * item (w_b self) b.

Definition get_vb2_ja_recip (self : PSmoothSetup) (b_ja : mat) (l : nat) : mat :=
  fun b g =>
    rsum (chan_size self l) (fun j => rsum (Nalpha_sm self) (fun a =>
      b_ja j a * phi_jabk self (chan_off self l + j)%nat a b g))
    * item (w_b self) b.

(** The rows that the boolean mask [lmlist_i == L] selects, in order. *)
Definition mask_rows (lm : list nat) (L : nat) : list nat :=
  filter (fun i => Nat.eqb (itemn lm i) L) (seq 0 (length lm)).

(** The vector [x = cat_b_vecs(x1, x2)] that [get_v_from_c_and_df]
    solves for at [(s, L)]: [vdf_sLpb[s, L]] flattened, then the rows
    [vc_sib[s, ilist, :]] flattened. *)
Definition v_rhs (self : PSmoothSetup) (vc_sib : shaped3) (vdf_sLpb : shaped4)
  (s L : nat) : vec :=
  let nb := dim3 vdf_sLpb in
  let rows := mask_rows (lmlist_i (ps_data self)) L in
  let x1 := flatten nb (fun p b => data4 vdf_sLpb s L p b) in
  let x2 : vec :=
    fun t => data3 vc_sib s (nth (t / d3_2 vc_sib) rows O) (t mod d3_2 vc_sib) in
  cat_b_vecs (dim2 vdf_sLpb * nb) x1 x2.

(** The body of the innermost loop of [get_v_from_c_and_df]: the two
    in-place additions to [vy_sbLg[s, :, L, :]]. *)
Definition v_step (self : PSmoothSetup) (vc_sib : shaped3) (vdf_sLpb : shaped4)
  (realspace : bool) (vy_sbLg : arr4) (slL : nat * nat * nat) : arr4 :=
  let '(s, l, L) := slL in
  let nb := dim3 vdf_sLpb in
  let N1 := (dim2 vdf_sLpb * nb)%nat in
  let b := cho_solve (stored_factor self l) (v_rhs self vc_sib vdf_sLpb s L) in
  let B1 := reshape nb b in
  let B2 := reshape (Nalpha_sm self) (fun t => b (N1 + t)%nat) in
  let v1 := if realspace then get_vb1_pb self B1 l else get_vb1_pb_recip self B1 l in
  let v2 := if realspace then get_vb2_ja self B2 l else get_vb2_ja_recip self B2 l in
  let here : nat -> nat -> nat -> nat -> bool :=
    fun s' _ L' _ => Nat.eqb s' s && Nat.eqb L' L in
  add4 here (fun _ b' _ g => v2 b' g)
    (add4 here (fun _ b' _ g => v1 b' g) vy_sbLg).

(** [PSmoothSetup.get_v_from_c_and_df]; the result has the shape
    [(nspin, nb, Lmax, ng)] with [ng = rgd.r_g.size]. *)
Definition get_v_from_c_and_df (self : PSmoothSetup) (vc_sib : shaped3)
  (vdf_sLpb : shaped4) (realspace : bool) : shaped4 :=
  mk_shaped4 (dim0 vdf_sLpb) (dim3 vdf_sLpb) (dim1 vdf_sLpb)
    (n_g (sbt_rgd (ps_data self)))
    (fold_left (v_step self vc_sib vdf_sLpb realspace)
       (c_and_df_loops (dim0 vdf_sLpb) (lmax (ps_data self)))
       (fun _ _ _ _ => 0)).

(** The vector [b = cat_b_vecs(b1, b2)] that [get_c_and_df] solves for
    at [(s, l, L)]. *)
Definition c_rhs (E : fit_ext) (self : PSmoothSetup) (y_sbLg : shaped4)
  (realspace : bool) (s l L : nat) : vec :=
  let nb := dim1 y_sbLg in
  let n_grid := dim3 y_sbLg in
  let rgd := sbt_rgd (ps_data self) in
  let FL_bg : mat := fun b g => data4 y_sbLg s b L g in
  let b1 := if realspace then get_b1_pb E self n_grid FL_bg l rgd
            else get_b1_pb_recip E self n_grid FL_bg l rgd in
  let b2 := if realspace then get_b2_ja E self nb n_grid FL_bg l rgd
            else get_b2_ja_recip E self nb n_grid FL_bg l rgd in
  cat_b_vecs (NP self * nb) (flatten nb b1) (flatten (Nalpha_sm self) b2).

(** What the solves of a setup need of its arrays: every stored factor
    is a Cholesky factor, of the order of the vector [cat_b_vecs] builds
    for the channel, and the mask [lmlist_i == L] selects one row per
    radial function of the channel of [L]. *)
Record solve_shapes (self : PSmoothSetup) (nb : nat) : Prop := mk_solve_shapes {
  factors_ok : forall l, (l <= lmax (ps_data self))%nat ->
    exists A, is_cholesky (fsize (stored_factor self l)) A (fU (stored_factor self l));
  sizes_ok : forall l L, (l <= lmax (ps_data self))%nat ->
    (l * l <= L < l * l + (2 * l + 1))%nat ->
    length (mask_rows (lmlist_i (ps_data self)) L) = chan_size self l /\
    fsize (stored_factor self l)
    = (NP self * nb + chan_size self l * Nalpha_sm self)%nat
}.

(** The shapes of [y_sbLg], [vc_sib] and [vdf_sLpb] that belong
    together: [y] is [(nspin, nb, Lmax, ng)] on the grid of the setup
    with room for every [L] of the loops, [vdf] is [(nspin, Lmax, NP, nb)]
    and [vc] is [(nspin, ni, Nalpha_sm)]. *)
Definition transposed_shapes (self : PSmoothSetup) (y : shaped4) (vc : shaped3)
  (vdf : shaped4) : Prop :=
  dim0 vdf = dim0 y /\ dim1 vdf = dim2 y /\ dim2 vdf = NP self /\
  dim3 vdf = dim1 y /\
  d3_0 vc = dim0 y /\ d3_1 vc = length (lmlist_i (ps_data self)) /\
  d3_2 vc = Nalpha_sm self /\
  dim3 y = n_g (sbt_rgd (ps_data self)) /\
  ((lmax (ps_data self) + 1) * (lmax (ps_data self) + 1) <= dim2 y)%nat.

(** The quadrature weights of the two modes. *)
Definition solve_dv (E : fit_ext) (self : PSmoothSetup) (realspace : bool) : vec :=
  if realspace then get_dv E (sbt_rgd (ps_data self))
  else get_dvk E (sbt_rgd (ps_data self)).

(** *** The real-space and reciprocal-space contributions

    As in [get_c_and_df], the arrays of the setup are read at the
    shapes [initialize_a2g] gave them.  What is checked is the index
    [L] into the axis of the spherical harmonics, whose extent comes
    from the caller's array, or is the constant 25: out of range,
    numpy raises [IndexError]. *)

(** A loop whose body may raise. *)
Fixpoint for_res {K A : Type} (body : A -> K -> res A) (ks : list K) (acc : A)
  : res A :=
  match ks with
  | [] => Ok acc
  | k :: rest =>
      match body acc k with
      | Ok acc' => for_res body rest acc'
      | Raise e => Raise e
      end
  end.

(** [self.phi_sr_jabg if sl else self.phi_jabg], and the extent of its
    last axis: the grid [slrgd] of the first, the grid [sbt_rgd] of the
    second. *)
Definition phi_of (self : PSmoothSetup) (sl : bool) : arr4 :=
  if sl then phi_sr_jabg self else phi_jabg self.

Definition grid_of (self : PSmoothSetup) (sl : bool) : nat :=
  if sl then n_g (slrgd (ps_data self)) else n_g (sbt_rgd (ps_data self)).

(** [self.deltasl_lpg if sl else self.delta_lpg]. *)
Definition delta_of (self : PSmoothSetup) (sl : bool) : arr3 :=
  if sl then deltasl_lpg self else delta_lpg self.

(** [Lmax = 25] of [get_f_realspace_contribs]. *)
Definition Lmax_f : nat := 25.

(** [yt_sbLg[:, :, L, :] += einsum("abg,sa->sbg", phi_jabg[j], c_sib[:, i, :])]. *)
Definition f_add (self : PSmoothSetup) (c_sib : shaped3) (sl : bool)
  (yt_sbLg : arr4) (i : nat) : arr4 :=
  let L := itemn (lmlist_i (ps_data self)) i in
  let j := itemn (jlist_i (ps_data self)) i in
  add4 (fun _ _ L' _ => Nat.eqb L' L)
    (fun s b _ g =>
       rsum (d3_2 c_sib) (fun a => phi_of self sl j a b g * data3 c_sib s i a))
    yt_sbLg.

(** [PSmoothSetup.get_f_realspace_contribs]. *)
Definition get_f_realspace_contribs (self : PSmoothSetup) (c_sib : shaped3)
  (sl : bool) : res shaped4 :=
  let d := ps_data self in
  yt ← for_res
         (fun acc i =>
            if Nat.ltb (itemn (lmlist_i d) i) Lmax_f
            then Ok (f_add self c_sib sl acc i)
            else Raise (IndexError (itemn (lmlist_i d) i)))
         (seq 0 (ni d)) (fun _ _ _ _ => 0);
  Ok (mk_shaped4 (d3_0 c_sib) (length (alphas_ae d)) Lmax_f (grid_of self sl) yt).

(** [dv_g]: ones when [rgd is None], [get_dv(rgd)] otherwise. *)
Definition dv_or_ones (E : fit_ext) (rgd : option rgd_t) : vec :=
  match rgd with
  | None => fun _ => 1
  | Some r => get_dv E r
  end.

(** [vc_sib[:, i, :] += einsum("abg,sbg,g->sa", phi_jabg[j],
    vyt_sbLg[:, :, L, :], dv_g)]. *)
Definition vf_add (E : fit_ext) (self : PSmoothSetup) (vyt_sbLg : shaped4)
  (rgd : option rgd_t) (sl : bool) (vc_sib : arr3) (i : nat) : arr3 :=
  let L := itemn (lmlist_i (ps_data self)) i in
  let j := itemn (jlist_i (ps_data self)) i in
  add3 (fun _ i' _ => Nat.eqb i' i)
    (fun s _ a =>
       rsum (dim1 vyt_sbLg) (fun b => rsum (dim3 vyt_sbLg) (fun g =>
         phi_of self sl j a b g * data4 vyt_sbLg s b L g * dv_or_ones E rgd g)))
    vc_sib.

(** [PSmoothSetup.get_vf_realspace_contribs]. *)
Definition get_vf_realspace_contribs (E : fit_ext) (self : PSmoothSetup)
  (vyt_sbLg : shaped4) (rgd : option rgd_t) (sl : bool) : res shaped3 :=
  let d := ps_data self in
  vc ← for_res
         (fun acc i =>
            if Nat.ltb (itemn (lmlist_i d) i) (dim2 vyt_sbLg)
            then Ok (vf_add E self vyt_sbLg rgd sl acc i)
            else Raise (IndexError (itemn (lmlist_i d) i)))
         (seq 0 (ni d)) (fun _ _ _ => 0);
  Ok (mk_shaped3 (dim0 vyt_sbLg) (ni d) (dim1 vyt_sbLg) vc).

(** The triples [(s, l, L)] of the loops
    [for s: for l: for L in range(l * l, (l + 1) * (l + 1))]. *)
Definition sq_loops (nspin lmax : nat) : list (nat * nat * nat) :=
  flat_map (fun s =>
    flat_map (fun l =>
                map (fun L => (s, l, L))
                    (seq (l * l) ((l + 1) * (l + 1) - l * l)))
             (seq 0 (lmax + 1)))
    (seq 0 nspin).

(** [y_sbLg[s, :, L, :] += df_sbLp[s, :, L, :].dot(delta_lpg[l])]. *)
Definition df_real_add (self : PSmoothSetup) (df_sLpb : shaped4) (sl : bool)
  (y_sbLg : arr4) (slL : nat * nat * nat) : arr4 :=
  let '(s, l, L) := slL in
  add4 (fun s' _ L' _ => Nat.eqb s' s && Nat.eqb L' L)
    (fun _ b _ g =>
       rsum (dim2 df_sLpb) (fun p => data4 df_sLpb s L p b * delta_of self sl l p g))
    y_sbLg.

(** [PSmoothSetup.get_df_realspace_contribs]. *)
Definition get_df_realspace_contribs (self : PSmoothSetup) (df_sLpb : shaped4)
  (sl : bool) : res shaped4 :=
  y ← for_res
        (fun acc (slL : nat * nat * nat) =>
           if Nat.ltb (snd slL) (dim1 df_sLpb)
           then Ok (df_real_add self df_sLpb sl acc slL)
           else Raise (IndexError (snd slL)))
        (sq_loops (dim0 df_sLpb) (lmax (ps_data self))) (fun _ _ _ _ => 0);
  Ok (mk_shaped4 (dim0 df_sLpb) (dim3 df_sLpb) (dim1 df_sLpb) (grid_of self sl) y).

(** [vdf_sbLp[s, :, L, :] += einsum("bg,pg,g->bp", vy_sbLg[s, :, L, :],
    delta_lpg[l], dv_g)], written on the transposed array
    [vdf_sbLp.transpose(0, 2, 3, 1)] that the method returns. *)
Definition vdf_real_add (E : fit_ext) (self : PSmoothSetup) (vy_sbLg : shaped4)
  (rgd : option rgd_t) (sl : bool) (vdf_sLpb : arr4) (slL : nat * nat * nat)
  : arr4 :=
  let '(s, l, L) := slL in
  add4 (fun s' L' _ _ => Nat.eqb s' s && Nat.eqb L' L)
    (fun _ _ p b =>
       rsum (dim3 vy_sbLg) (fun g =>
         data4 vy_sbLg s b L g * delta_of self sl l p g * dv_or_ones E rgd g))
    vdf_sLpb.

(** [PSmoothSetup.get_vdf_realspace_contribs]. *)
Definition get_vdf_realspace_contribs (E : fit_ext) (self : PSmoothSetup)
  (vy_sbLg : shaped4) (rgd : option rgd_t) (sl : bool) : res shaped4 :=
  vdf ← for_res
          (fun acc (slL : nat * nat * nat) =>
             if Nat.ltb (snd slL) (dim2 vy_sbLg)
             then Ok (vdf_real_add E self vy_sbLg rgd sl acc slL)
             else Raise (IndexError (snd slL)))
          (sq_loops (dim0 vy_sbLg) (lmax (ps_data self))) (fun _ _ _ _ => 0);
  Ok (mk_shaped4 (dim0 vy_sbLg) (dim2 vy_sbLg) (NP self) (dim1 vy_sbLg) vdf).

(** The pairs [(l, L)] of the loops
    [for l: for L in range(L0, L0 + dL)]. *)
Definition lL_loops (lmax : nat) : list (nat * nat) :=
  flat_map (fun l => map (fun L => (l, L)) (seq (l * l) (2 * l + 1)))
           (seq 0 (lmax + 1)).

(** The choice of basis and weights in [get_df_only] and
    [get_vdf_only]; [assert not sl] in reciprocal space. *)
Definition only_delta (self : PSmoothSetup) (sl realspace : bool) : res arr3 :=
  if realspace then Ok (delta_of self sl)
  else if sl then Raise AssertionError
  else Ok (delta_lpk self).

Definition only_dv (E : fit_ext) (rgd : rgd_t) (realspace : bool) : vec :=
  if realspace then get_dv E rgd else get_dvk E rgd.

(** The extent of the last axis of the basis chosen: the k-grid of
    [sbt_rgd] has the size of its r-grid. *)
Definition only_grid (self : PSmoothSetup) (sl realspace : bool) : nat :=
  if realspace then grid_of self sl else n_g (sbt_rgd (ps_data self)).

(** [df_sLpb[:, L, :, :] += einsum("sbg,pg,g->spb", y_sbLg[:, :, L, :],
    delta_lpg[l], dv_g)]. *)
Definition df_only_add (y_sbLg : shaped4) (delta : arr3) (dv : vec)
  (df_sLpb : arr4) (lL : nat * nat) : arr4 :=
  let '(l, L) := lL in
  add4 (fun _ L' _ _ => Nat.eqb L' L)
    (fun s _ p b =>
       rsum (dim3 y_sbLg) (fun g => data4 y_sbLg s b L g * delta l p g * dv g))
    df_sLpb.

(** [PSmoothSetup.get_df_only]. *)
Definition get_df_only (E : fit_ext) (self : PSmoothSetup) (y_sbLg : shaped4)
  (rgd : rgd_t) (sl realspace : bool) : res shaped4 :=
  delta ← only_delta self sl realspace;
  df ← for_res
         (fun acc (lL : nat * nat) =>
            if Nat.ltb (snd lL) (dim2 y_sbLg)
            then Ok (df_only_add y_sbLg delta (only_dv E rgd realspace) acc lL)
            else Raise (IndexError (snd lL)))
         (lL_loops (lmax (ps_data self))) (fun _ _ _ _ => 0);
  Ok (mk_shaped4 (dim0 y_sbLg) (dim2 y_sbLg) (NP self) (dim1 y_sbLg) df).

(** [y_sbLg[:, :, L, :] += einsum("spb,pg->sbg", df_sLpb[:, L, :, :],
    delta_lpg[l])]. *)
Definition vdf_only_add (df_sLpb : shaped4) (delta : arr3)
  (y_sbLg : arr4) (lL : nat * nat) : arr4 :=
  let '(l, L) := lL in
  add4 (fun _ _ L' _ => Nat.eqb L' L)
    (fun s b _ g =>
       rsum (dim2 df_sLpb) (fun p => data4 df_sLpb s L p b * delta l p g))
    y_sbLg.

(** [PSmoothSetup.get_vdf_only]. *)
Definition get_vdf_only (self : PSmoothSetup) (df_sLpb : shaped4)
  (sl realspace : bool) : res shaped4 :=
  delta ← only_delta self sl realspace;
  y ← for_res
        (fun acc (lL : nat * nat) =>
           if Nat.ltb (snd lL) (dim1 df_sLpb)
           then Ok (vdf_only_add df_sLpb delta acc lL)
           else Raise (IndexError (snd lL)))
        (lL_loops (lmax (ps_data self))) (fun _ _ _ _ => 0);
  Ok (mk_shaped4 (dim0 df_sLpb) (dim3 df_sLpb) (dim1 df_sLpb)
        (only_grid self sl realspace) y).

(** An array of coefficients for the one-function setup. *)
Definition vc1 : shaped3 := mk_shaped3 1 1 1 (fun _ _ _ => 1).

End SmoothOps.

(** ** The orchestrator: rounds of the three stages *)

Module KernelMore.

Import Py Kernel.

Section Rounds.

Context {arr xc_t nlxc_t contribs_t ps_t pa_t : Type}.

Local Abbreviation setup := (setup arr xc_t nlxc_t contribs_t ps_t pa_t).
Local Abbreviation numerics := (numerics arr xc_t nlxc_t contribs_t ps_t pa_t).

(** The numerical parts return: none of them raises. *)
Record numerics_total (N : numerics) : Prop := mk_numerics_total {
  feature_terms_ok : forall ps nl xcc r cc D,
    exists out, feature_terms N ps nl xcc r cc D = Ok out;
  add_dfr_ok : forall ps yt dfr, exists out, add_dfr N ps yt dfr = Ok out;
  energy_ft_ok : forall n pa xcc D df fr,
    exists out, energy_ft N n pa xcc D df fr = Ok out;
  energy_terms_ok : forall n pa xcc cc D Ds ft df,
    exists out, energy_terms N n pa xcc cc D Ds ft df = Ok out;
  potential_solve_ok : forall ps vc vdf vyt,
    exists out, potential_solve N ps vc vdf vyt = Ok out;
  potential_terms_ok : forall n ps xcc nl cc r D vyt vdy,
    exists out, potential_terms N n ps xcc nl cc r D vyt vdy = Ok out
}.

(** A setup on which [initialize_more_things] has run. *)
Definition initialized (su : setup) : Prop :=
  is_Some (xc_correction su) /\ is_Some (nlxc_correction su) /\
  is_Some (cider_contribs su) /\ is_Some (ps_setup su) /\ is_Some (pa_setup su).

(** Every atom of [D_asp] has an initialized setup. *)
Definition setups_ready (setups : list setup) (D_asp : list (nat * arr)) : Prop :=
  forall a D, In (a, D) D_asp ->
    exists su, setups !! a = Some su /\ initialized su.

(** The atoms of [D_asp]. *)
Definition atoms (D_asp : list (nat * arr)) : gset nat :=
  list_to_set (map fst D_asp).

End Rounds.

End KernelMore.

(** ** Grid points around an atom: [get_ag_indices] and
    [FastAtomPASDWSlice.from_gd_and_setup] *)

Module Slices.

Import Py LA Setups.

Local Open Scope R_scope.

(** Integer arrays are lists of [Z]; a conversion from float is applied
    to floats that hold an integer.  The conversion to [int] gives that
    integer; the one to [np.int32] is written out with its range. *)

(** [np.floor], [np.ceil] and [np.round] (halves go to the even
    neighbour) return floats. *)
Definition np_floor (x : R) : R := IZR (Zfloor x).
Definition np_ceil (x : R) : R := IZR (Zceil x).
Definition np_round (x : R) : R :=
  let f := Zfloor x in
  if Rlt_dec (x - IZR f) (1 / 2) then IZR f
  else if Rlt_dec (1 / 2) (x - IZR f) then IZR (f + 1)
  else if Z.even f then IZR f else IZR (f + 1).

(** [x.astype(int)]: the fractional part is dropped. *)
Definition astype_int (x : R) : Z :=
  if Rle_dec 0 x then Zfloor x else Zceil x.

(** The range of [np.int32]. *)
Definition int32_fits (z : Z) : bool :=
  (-2147483648 <=? z)%Z && (z <? 2147483648)%Z.

(** [x.astype(np.int32)]: the integer part when it fits; outside the
    range numpy leaves the result to the platform, [oor x]. *)
Definition astype_int32 (oor : R -> Z) (x : R) : Z :=
  let z := astype_int x in
  if int32_fits z then z else oor x.

(** [np.arange(lo, hi)] on integers. *)
Definition arange (lo hi : Z) : list Z :=
  map (fun k => (lo + Z.of_nat k)%Z) (seq 0 (Z.to_nat (hi - lo))).

(** [a % s] on an integer array: the sign of the divisor, and 0 where
    the divisor is 0. *)
Definition np_mod (a s : Z) : Z :=
  if (s =? 0)%Z then 0%Z else (a mod s)%Z.

(** [a[cond]] with a boolean array [cond] of the length of [a]. *)
Definition bool_index {A} (cond : list bool) (a : list A) : list A :=
  map snd (List.filter fst (combine cond a)).

(** [np.cross], [np.linalg.norm] and [np.linalg.det] in three
    dimensions. *)
Definition cross (u v : vec) : vec :=
  fun i =>
    match i with
    | O => u 1%nat * v 2%nat - u 2%nat * v 1%nat
    | S O => u 2%nat * v 0%nat - u 0%nat * v 2%nat
    | _ => u 0%nat * v 1%nat - u 1%nat * v 0%nat
    end.

Definition norm (u : vec) : R :=
  sqrt (u 0%nat * u 0%nat + u 1%nat * u 1%nat + u 2%nat * u 2%nat).

Definition det (m : mat) : R :=
  m 0%nat 0%nat * (m 1%nat 1%nat * m 2%nat 2%nat - m 1%nat 2%nat * m 2%nat 1%nat)
  - m 0%nat 1%nat * (m 1%nat 0%nat * m 2%nat 2%nat - m 1%nat 2%nat * m 2%nat 0%nat)
  + m 0%nat 2%nat * (m 1%nat 0%nat * m 2%nat 1%nat - m 1%nat 1%nat * m 2%nat 0%nat).

(** What the code reads of gpaw's grid descriptor [gd]. *)
Record gd_t : Type := mk_gd {
  cell_cv : mat;
  get_size_of_global_array : nat -> Z;
  dv : R
}.

(** One row of the three arrays [indset], [rad_g], [rhat_gv] that
    [fft_obj.get_radial_info_for_atom] returns. *)
Record point : Type := mk_point {
  p_ind : Z * Z * Z;
  p_rad : R;
  p_rhat : vec
}.

(** What the code calls of [fft_obj]. *)
Record fft_t : Type := mk_fft {
  get_bound_inds : (nat -> Z) * (nat -> Z);
  get_radial_info_for_atom : list (list Z) -> list (list R) -> res (list point)
}.

(** The three axes [range(3)]. *)
Definition axes : list nat := [0; 1; 2]%nat.

Definition ag_center (shape : nat -> Z) (spos_c : vec) (i : nat) : Z :=
  astype_int (np_round (spos_c i * IZR (shape i))).

Definition ag_disp (gd : gd_t) (shape : nat -> Z) (rmax : R) (buffer : Z)
    (i : nat) : Z :=
  let lattice := cell_cv gd in
  let vol := Rabs (det lattice) in
  let res := cross (lattice ((i + 1) mod 3)%nat) (lattice ((i + 2) mod 3)%nat) in
  astype_int (np_ceil (norm res * rmax / vol * IZR (shape i)) + 1 + IZR buffer).

(** [indices] before the reduction modulo [shape]. *)
Definition ag_window (gd : gd_t) (shape : nat -> Z) (spos_c : vec) (rmax : R)
    (buffer : Z) (i : nat) : list Z :=
  let center := ag_center shape spos_c i in
  let disp := ag_disp gd shape rmax buffer i in
  arange (center - disp) (center + disp + 1).

(** [get_ag_indices]. *)
Definition get_ag_indices (fft_obj : fft_t) (gd : gd_t) (shape : nat -> Z)
    (spos_c : vec) (rmax : R) (buffer : Z) (get_global_disps : bool)
  : list (list Z) * list (list R) :=
  let indices0 := fun i => ag_window gd shape spos_c rmax buffer i in
  let fdisps := fun i => map (fun a => IZR a / IZR (shape i) - spos_c i) (indices0 i) in
  let indices := fun i => map (fun a => np_mod a (shape i)) (indices0 i) in
  if get_global_disps then (map indices axes, map fdisps axes)
  else
    let '(lbound_inds, ubound_inds) := get_bound_inds fft_obj in
    let conds := fun i =>
      map (fun a => (lbound_inds i <=? a)%Z && (a <? ubound_inds i)%Z) (indices i) in
    let local_indices := fun i =>
      map (fun a => (a - lbound_inds i)%Z) (bool_index (conds i) (indices i)) in
    let local_fdisps := fun i => bool_index (conds i) (fdisps i) in
    (map local_indices axes, map local_fdisps axes).

(** The arguments [from_gd_and_setup] hands to the constructor of the
    slice. *)
Record slice_args : Type := mk_slice_args {
  sl_indset : list (Z * Z * Z);
  sl_g : list Z;
  sl_dg : list R;
  sl_rad_g : list R;
  sl_rhat_gv : list vec;
  sl_rmax : R;
  sl_psetup : PASDWData;
  sl_dv : R;
  sl_h : R;
  sl_ovlp_fit : bool;
  sl_store_funcs : bool
}.

(** What lies outside the file: the result of a conversion to
    [np.int32] outside its range, [np.minimum] of an [int32] array with
    a bound that is no [int32] (a wider array or an [OverflowError],
    by the version of numpy), the constructor of the parent class
    [AtomPASDWSlice], and the attribute [indset] of the object [S] it
    builds. *)
Record slice_ext (S : Type) : Type := mk_slice_ext {
  int32_out_of_range : R -> Z;
  minimum_wide : list Z -> Z -> res (list Z);
  AtomPASDWSlice_init : slice_args -> res S;
  get_indset : S -> option (list (Z * Z * Z));
  set_indset : S -> list (Z * Z * Z) -> S
}.
Arguments int32_out_of_range {S} _ _.
Arguments minimum_wide {S} _ _ _.
Arguments AtomPASDWSlice_init {S} _ _.
Arguments get_indset {S} _ _.
Arguments set_indset {S} _ _ _.

(** [FastAtomPASDWSlice.__init__]: the parent's constructor, then
    [self.indset] is replaced by its conversion to [np.int64], which
    keeps the entries of an integer array. *)
Definition FastAtomPASDWSlice_init {S} (E : slice_ext S) (args : slice_args)
  : res S :=
  self ← AtomPASDWSlice_init E args;
  indset ← getattr "indset" (get_indset E self);
  Ok (set_indset E self indset).

(** [np.minimum(g, bound)] on an [int32] array [g]. *)
Definition minimum_int32 {S} (E : slice_ext S) (g : list Z) (bound : Z)
  : res (list Z) :=
  if int32_fits bound then Ok (map (fun z => Z.min z bound) g)
  else minimum_wide E g bound.

(** [rgd.r_g[i]] on a grid of [n_g] points. *)
Definition r_g_at (rgd : rgd_t) (i : nat) : res R :=
  if (i <? n_g rgd)%nat then Ok (r_g rgd i) else Raise (IndexError i).

(** [FastAtomPASDWSlice.from_gd_and_setup]; [rcut] is the attribute
    [psetup.rcut], [None] for a setup that has none. *)
Definition from_gd_and_setup {S} (E : slice_ext S) (gd : gd_t) (spos_c : vec)
    (psetup : PASDWData) (rcut : option R) (fft_obj : fft_t) (rmax : R)
    (sphere ovlp_fit store_funcs is_global : bool) : res S :=
  if ovlp_fit && negb is_global then
    Raise (ValueError "Need global grid set for overlap fitting")
  else
    let rgd := interp_rgd psetup in
    rmax ← (if Req_dec_T rmax 0 then getattr "rcut" rcut else Ok rmax);
    let shape := get_size_of_global_array gd in
    let '(indices, fdisps) :=
      get_ag_indices fft_obj gd shape spos_c rmax 0 is_global in
    pts ← get_radial_info_for_atom fft_obj indices fdisps;
    let pts :=
      if sphere then
        List.filter (fun p => if Rle_dec (p_rad p) rmax then true else false) pts
      else pts in
    r1 ← r_g_at rgd 1;
    r0 ← r_g_at rgd 0;
    let h := r1 - r0 in
    let dg := map (fun p => p_rad p / h) pts in
    let g :=
      map (fun x => astype_int32 (int32_out_of_range E) (np_floor x)) dg in
    g ← minimum_int32 E g (Z.of_nat (n_g rgd) - 1);
    let dg := zip_with (fun x z => x - IZR z) dg g in
    FastAtomPASDWSlice_init E
      (mk_slice_args (map p_ind pts) g dg (map p_rad pts) (map p_rhat pts)
         rmax psetup (dv gd) h ovlp_fit store_funcs).

(** A cubic cell of four grid points a side, a grid routine that finds
    two points, and a setup with an equidistant interpolation grid. *)
Definition gd0 : gd_t := mk_gd identity (fun _ => 4%Z) 1.

Definition pts0 : list point :=
  [mk_point (0, 0, 0)%Z (5 / 2) (fun _ => 0);
   mk_point (1, 0, 0)%Z 10 (fun _ => 0)].

Definition fft0 : fft_t :=
  mk_fft (fun _ => 0%Z, fun _ => 4%Z) (fun _ _ => Ok pts0).

Definition rgd_lin : rgd_t := mk_rgd 4 INR (fun _ => 1) (fun _ => 1).

Definition data_lin : PASDWData :=
  mk_PASDWData 1 1 1 1 1 0 (fun _ _ => 1) (fun _ _ _ => 1)
    [0; 1]%nat [0]%nat [0]%nat [0]%nat [0]%nat rgd_lin rgd1 rgd1 2 2 [1] [1] [1]
    None.

(** A platform that answers the smallest [int32] outside the range,
    and a parent constructor that keeps its arguments. *)
Definition slice_ext0 : slice_ext slice_args :=
  mk_slice_ext slice_args (fun _ => (-2147483648)%Z) (fun g _ => Ok g)
    (fun args => Ok args) (fun s => Some (sl_indset s)) (fun s _ => s).

End Slices.

(** * Proofs *)

(** ** Finite sums *)

Module LAFacts.

Import Py LA.

Local Open Scope R_scope.

Lemma rsum_ext n (f g : nat -> R) :
  (forall i, (i < n)%nat -> f i = g i) -> rsum n f = rsum n g.
Proof.
  induction n as [|n IH]; intros H; simpl; [reflexivity|].
  rewrite IH by (intros i Hi; apply H; lia).
  rewrite (H n) by lia. reflexivity.
Qed.

Lemma rsum_zero n (f : nat -> R) :
  (forall i, (i < n)%nat -> f i = 0) -> rsum n f = 0.
Proof.
  induction n as [|n IH]; intros H; simpl; [reflexivity|].
  rewrite IH by (intros i Hi; apply H; lia).
  rewrite (H n) by lia. lra.
Qed.

Lemma rsum_plus n (f g : nat -> R) :
  rsum n (fun i => f i + g i) = rsum n f + rsum n g.
Proof. induction n as [|n IH]; simpl; [lra|rewrite IH; lra]. Qed.

Lemma rsum_scal n (c : R) (f : nat -> R) :
  rsum n (fun i => c * f i) = c * rsum n f.
Proof. induction n as [|n IH]; simpl; [lra|rewrite IH; lra]. Qed.

Lemma rsum_scal_r n (c : R) (f : nat -> R) :
  rsum n (fun i => f i * c) = rsum n f * c.
Proof. induction n as [|n IH]; simpl; [lra|rewrite IH; lra]. Qed.

Lemma rsum_lincomb n (a b : R) (f g : nat -> R) :
  rsum n (fun i => a * f i + b * g i) = a * rsum n f + b * rsum n g.
Proof. rewrite rsum_plus, !rsum_scal. reflexivity. Qed.

Lemma rsum_swap n m (f : nat -> nat -> R) :
  rsum n (fun i => rsum m (fun j => f i j)) =
  rsum m (fun j => rsum n (fun i => f i j)).
Proof.
  induction n as [|n IH]; simpl.
  - symmetry. apply rsum_zero. reflexivity.
  - rewrite IH, <- rsum_plus. reflexivity.
Qed.

Lemma rsum_nonneg n (f : nat -> R) :
  (forall i, (i < n)%nat -> 0 <= f i) -> 0 <= rsum n f.
Proof.
  induction n as [|n IH]; intros H; simpl; [lra|].
  assert (0 <= rsum n f) by (apply IH; intros i Hi; apply H; lia).
  assert (0 <= f n) by (apply H; lia). lra.
Qed.

Lemma rsum_nonneg_zero n (f : nat -> R) :
  (forall i, (i < n)%nat -> 0 <= f i) -> rsum n f = 0 ->
  forall i, (i < n)%nat -> f i = 0.
Proof.
  induction n as [|n IH]; intros H Hs i Hi; [lia|].
  simpl in Hs.
  assert (H1 : 0 <= rsum n f) by (apply rsum_nonneg; intros k Hk; apply H; lia).
  assert (H2 : 0 <= f n) by (apply H; lia).
  destruct (Nat.eq_dec i n) as [->|Hne]; [lra|].
  apply IH; [intros k Hk; apply H; lia|lra|lia].
Qed.

(** A sum whose terms vanish from index [k] on stops at [k]. *)
Lemma rsum_trunc n k (f : nat -> R) :
  (k <= n)%nat -> (forall i, (k <= i < n)%nat -> f i = 0) ->
  rsum n f = rsum k f.
Proof.
  induction n as [|n IH]; intros Hk H.
  - replace k with O by lia. reflexivity.
  - destruct (Nat.eq_dec k (S n)) as [->|Hne]; [reflexivity|].
    simpl. rewrite (H n) by lia. rewrite IH; [lra|lia|intros i Hi; apply H; lia].
Qed.

(** Selecting one index of a sum. *)
Lemma rsum_single n k (f : nat -> R) :
  (k < n)%nat -> (forall i, (i < n)%nat -> i <> k -> f i = 0) ->
  rsum n f = f k.
Proof.
  induction n as [|n IH]; intros Hk H; [lia|].
  simpl. destruct (Nat.eq_dec k n) as [->|Hne].
  - rewrite rsum_zero; [lra|]. intros i Hi. apply H; lia.
  - rewrite IH; [|lia|intros i Hi Hik; apply H; lia].
    rewrite (H n) by lia. lra.
Qed.

Lemma rsum_shift n (h : nat -> R) :
  rsum (S n) h = rsum n (fun i => h (S i)) + h O.
Proof.
  induction n as [|n IH]; simpl; [lra|].
  simpl in IH. rewrite IH. lra.
Qed.

(** Reversing the order of summation. *)
Lemma rsum_flip n (f : nat -> R) :
  rsum n (fun i => f (flip n i)) = rsum n f.
Proof.
  unfold flip. induction n as [|n IH]; [reflexivity|].
  rewrite rsum_shift. simpl rsum at 2. rewrite <- IH.
  f_equal.
  - apply rsum_ext. intros i Hi. f_equal. lia.
  - f_equal. lia.
Qed.

(** ** Triangular solves *)

Lemma tri_solve_length L b k : length (tri_solve L b k) = k.
Proof.
  induction k as [|k IH]; simpl; [reflexivity|].
  rewrite length_app, IH. simpl. lia.
Qed.

Lemma tri_solve_stable L b k k' i :
  (i < k)%nat -> (k <= k')%nat ->
  nth i (tri_solve L b k') 0 = nth i (tri_solve L b k) 0.
Proof.
  intros Hi Hk. induction Hk as [|k' Hk IH]; [reflexivity|].
  simpl. rewrite app_nth1 by (rewrite tri_solve_length; lia). exact IH.
Qed.

Lemma fwd_solve_eq n L b i :
  (i < n)%nat ->
  fwd_solve n L b i =
  (b i - rsum i (fun m => L i m * fwd_solve n L b m)) / L i i.
Proof.
  intros Hi. unfold fwd_solve.
  rewrite (tri_solve_stable L b (S i) n i) by lia.
  simpl. rewrite app_nth2 by (rewrite tri_solve_length; lia).
  rewrite tri_solve_length, Nat.sub_diag. simpl.
  f_equal. f_equal. apply rsum_ext. intros m Hm.
  rewrite (tri_solve_stable L b i n m) by lia. reflexivity.
Qed.

Lemma fwd_solve_out n L b i : (n <= i)%nat -> fwd_solve n L b i = 0.
Proof.
  intros Hi. unfold fwd_solve. apply nth_overflow.
  rewrite tri_solve_length. exact Hi.
Qed.

(** The forward solve does solve the triangular system. *)
Lemma fwd_solve_correct n L b :
  (forall i, (i < n)%nat -> L i i <> 0) ->
  forall i, (i < n)%nat ->
    rsum (S i) (fun m => L i m * fwd_solve n L b m) = b i.
Proof.
  intros Hd i Hi. simpl. rewrite (fwd_solve_eq n L b i Hi).
  field. apply Hd, Hi.
Qed.

Lemma fwd_solve_ext n L L' b b' :
  (forall i m, (m <= i < n)%nat -> L i m = L' i m) ->
  (forall i, (i < n)%nat -> b i = b' i) ->
  forall i, fwd_solve n L b i = fwd_solve n L' b' i.
Proof.
  intros HL Hb i. destruct (Nat.lt_ge_cases i n) as [Hi|Hi].
  2:{ rewrite !fwd_solve_out by exact Hi. reflexivity. }
  induction i as [i IH] using lt_wf_ind.
  rewrite !fwd_solve_eq by exact Hi.
  rewrite (Hb i Hi), (HL i i) by lia. f_equal. f_equal.
  apply rsum_ext. intros m Hm. rewrite (HL i m) by lia.
  rewrite (IH m) by lia. reflexivity.
Qed.

(** The forward solve is linear in its right-hand side. *)
Lemma fwd_solve_linear n L (a c : R) (b1 b2 : vec) :
  forall i,
    fwd_solve n L (fun k => a * b1 k + c * b2 k) i =
    a * fwd_solve n L b1 i + c * fwd_solve n L b2 i.
Proof.
  intros i. destruct (Nat.lt_ge_cases i n) as [Hi|Hi].
  2:{ rewrite !fwd_solve_out by exact Hi. lra. }
  induction i as [i IH] using lt_wf_ind.
  rewrite !fwd_solve_eq by exact Hi.
  rewrite (rsum_ext i _ (fun m => a * (L i m * fwd_solve n L b1 m)
                                  + c * (L i m * fwd_solve n L b2 m))).
  2:{ intros m Hm. rewrite IH by lia. ring. }
  rewrite rsum_lincomb. unfold Rdiv. ring.
Qed.

Lemma flip_flip n i : (i < n)%nat -> flip n (flip n i) = i.
Proof. unfold flip. lia. Qed.

Lemma flip_lt n i : (i < n)%nat -> (flip n i < n)%nat.
Proof. unfold flip. lia. Qed.

(** Back substitution solves the upper triangular system. *)
Lemma bwd_solve_correct n U y :
  (forall i j, (j < i)%nat -> U i j = 0) ->
  (forall i, (i < n)%nat -> U i i <> 0) ->
  forall i, (i < n)%nat ->
    rsum n (fun m => U i m * bwd_solve n U y m) = y i.
Proof.
  intros Hup Hd i Hi.
  set (L' := fun t s => U (flip n t) (flip n s)).
  set (y' := fun t => y (flip n t)).
  assert (HL : forall t, (t < n)%nat -> L' t t <> 0).
  { intros t Ht. apply Hd, flip_lt, Ht. }
  pose proof (fwd_solve_correct n L' y' HL (flip n i) (flip_lt n i Hi)) as E.
  unfold y' in E at 2. rewrite flip_flip in E by exact Hi.
  rewrite <- E. clear E.
  rewrite <- (rsum_flip n (fun m => U i m * bwd_solve n U y m)).
  rewrite (rsum_trunc n (S (flip n i))).
  - apply rsum_ext. intros s Hs. unfold bwd_solve, L'.
    fold L' y'. rewrite !flip_flip by (unfold flip in *; lia). reflexivity.
  - unfold flip. lia.
  - intros s Hs. rewrite Hup; [ring|]. unfold flip in *. lia.
Qed.

Lemma bwd_solve_linear n U (a c : R) (y1 y2 : vec) :
  forall i,
    bwd_solve n U (fun k => a * y1 k + c * y2 k) i =
    a * bwd_solve n U y1 i + c * bwd_solve n U y2 i.
Proof. intros i. unfold bwd_solve. apply fwd_solve_linear. Qed.

Lemma bwd_solve_ext n U y y' :
  (forall i, (i < n)%nat -> y i = y' i) ->
  forall i, bwd_solve n U y i = bwd_solve n U y' i.
Proof.
  intros H i. unfold bwd_solve. apply fwd_solve_ext; [reflexivity|].
  intros t Ht. apply H, flip_lt, Ht.
Qed.

(** A triangular matrix with a nonzero diagonal has a trivial kernel. *)
Lemma upper_kernel n U (x : vec) :
  (forall i j, (j < i)%nat -> U i j = 0) ->
  (forall i, (i < n)%nat -> U i i <> 0) ->
  (forall m, (m < n)%nat -> rsum n (fun j => U m j * x j) = 0) ->
  forall i, (i < n)%nat -> x i = 0.
Proof.
  intros Hup Hd H.
  assert (K : forall k i, (n - k <= i < n)%nat -> x i = 0).
  { induction k as [|k IH]; intros i Hi; [lia|].
    destruct (Nat.eq_dec i (n - S k)%nat) as [E|E]; [|apply IH; lia].
    pose proof (H i ltac:(lia)) as Hs.
    rewrite (rsum_single n i) in Hs.
    - apply Rmult_integral in Hs. destruct Hs as [Hs|Hs]; [|exact Hs].
      exfalso. apply (Hd i); [lia|exact Hs].
    - lia.
    - intros j Hj Hji. destruct (Nat.lt_ge_cases j i) as [Hlt|Hge].
      + rewrite Hup by exact Hlt. ring.
      + rewrite (IH j) by lia. ring. }
  intros i Hi. apply (K n). lia.
Qed.

Lemma lower_kernel n U (z : vec) :
  (forall i j, (j < i)%nat -> U i j = 0) ->
  (forall i, (i < n)%nat -> U i i <> 0) ->
  (forall i, (i < n)%nat -> rsum n (fun m => U m i * z m) = 0) ->
  forall i, (i < n)%nat -> z i = 0.
Proof.
  intros Hup Hd H i. induction i as [i IH] using lt_wf_ind. intros Hi.
  pose proof (H i Hi) as Hs.
  rewrite (rsum_single n i) in Hs.
  - apply Rmult_integral in Hs. destruct Hs as [Hs|Hs]; [|exact Hs].
    exfalso. apply (Hd i Hi Hs).
  - exact Hi.
  - intros m Hm Hmi. destruct (Nat.lt_ge_cases m i) as [Hlt|Hge].
    + rewrite (IH m) by lia. ring.
    + rewrite Hup by lia. ring.
Qed.

(** ** The Cholesky factorization *)

Lemma chol_rows_length A k rows : chol_rows A k = Some rows -> length rows = k.
Proof.
  revert rows. induction k as [|k IH]; intros rows H; simpl in H.
  - injection H as <-. reflexivity.
  - destruct (chol_rows A k) as [r|]; [|discriminate].
    destruct (Rlt_dec 0 (chol_pivot A r k)); [|discriminate].
    injection H as <-. rewrite length_app, (IH r eq_refl). simpl. lia.
Qed.

Lemma row_entry_old rows r m j :
  (m < length rows)%nat -> row_entry (rows ++ [r]) m j = row_entry rows m j.
Proof. intros H. unfold row_entry. rewrite app_nth1 by exact H. reflexivity. Qed.

Lemma row_entry_new rows r j : row_entry (rows ++ [r]) (length rows) j = r j.
Proof.
  unfold row_entry. rewrite app_nth2 by lia. rewrite Nat.sub_diag. reflexivity.
Qed.

Lemma row_entry_out rows m j : (length rows <= m)%nat -> row_entry rows m j = 0.
Proof. intros H. unfold row_entry. rewrite nth_overflow by exact H. reflexivity. Qed.

Lemma chol_rows_correct A k rows :
  chol_rows A k = Some rows -> is_cholesky k A (row_entry rows).
Proof.
  revert rows. induction k as [|k IH]; intros rows H; simpl in H.
  - injection H as <-. split; intros; try lia.
    unfold row_entry. destruct i; reflexivity.
  - destruct (chol_rows A k) as [r|] eqn:Er; [|discriminate].
    destruct (Rlt_dec 0 (chol_pivot A r k)) as [Hp|]; [|discriminate].
    injection H as <-.
    pose proof (chol_rows_length A k r Er) as Hlen.
    destruct (IH r eq_refl) as [Hup Hdg Hgr].
    assert (Hs : 0 < sqrt (chol_pivot A r k)) by (apply sqrt_lt_R0; exact Hp).
    assert (Hnew : forall j, row_entry (r ++ [chol_row A r k]) k j = chol_row A r k j).
    { intros j. rewrite <- Hlen at 2. apply row_entry_new. }
    assert (Hsum : forall i j, (i <= k)%nat ->
              rsum i (fun m => row_entry (r ++ [chol_row A r k]) m i *
                               row_entry (r ++ [chol_row A r k]) m j) =
              rsum i (fun m => row_entry r m i * row_entry r m j)).
    { intros i j Hi. apply rsum_ext. intros m Hm.
      rewrite !row_entry_old by lia. reflexivity. }
    split.
    + intros i j Hji. destruct (Nat.lt_ge_cases i k) as [Hi|Hi].
      * rewrite row_entry_old by lia. apply Hup, Hji.
      * destruct (Nat.eq_dec i k) as [->|Hne].
        -- rewrite Hnew. unfold chol_row.
           destruct (Nat.ltb_spec j k); [reflexivity|lia].
        -- apply row_entry_out. rewrite length_app. simpl. lia.
    + intros i Hi. destruct (Nat.eq_dec i k) as [->|Hne].
      * rewrite Hnew. unfold chol_row.
        destruct (Nat.ltb_spec k k); [lia|]. rewrite Nat.eqb_refl. exact Hs.
      * rewrite row_entry_old by lia. apply Hdg. lia.
    + intros i j Hij Hi. destruct (Nat.eq_dec i k) as [->|Hne].
      * simpl. rewrite Hsum by lia. rewrite !Hnew. unfold chol_row.
        destruct (Nat.ltb_spec k k); [lia|]. rewrite Nat.eqb_refl.
        destruct (Nat.ltb_spec j k); [lia|].
        destruct (Nat.eqb_spec j k) as [->|Hjk].
        -- unfold chol_pivot at 1 2. rewrite sqrt_sqrt by (left; exact Hp).
           unfold chol_pivot. ring.
        -- field. lra.
      * simpl. rewrite Hsum by lia. rewrite !row_entry_old by lia.
        apply (Hgr i j Hij). lia.
Qed.

Lemma cho_factor_correct n A F :
  cho_factor n A = Ok F -> fsize F = n /\ is_cholesky n A (fU F).
Proof.
  unfold cho_factor. destruct (chol_rows A n) as [rows|] eqn:E; [|discriminate].
  intros H. injection H as <-. simpl. split; [reflexivity|].
  apply chol_rows_correct, E.
Qed.

(** The Gram matrix of the factor over the whole index range. *)
Lemma is_cholesky_gram_full n A U i j :
  is_cholesky n A U -> (i < n)%nat -> (j < n)%nat ->
  rsum n (fun m => U m i * U m j) = sym A i j.
Proof.
  intros [Hup Hdg Hgr] Hi Hj. unfold sym.
  destruct (Nat.leb_spec i j) as [Hij|Hij].
  - rewrite (rsum_trunc n (S i)); [apply Hgr; assumption|lia|].
    intros m Hm. rewrite (Hup m i) by lia. ring.
  - rewrite (rsum_trunc n (S j)); [|lia|].
    + rewrite <- (Hgr j i) by lia. apply rsum_ext. intros m Hm. ring.
    + intros m Hm. rewrite (Hup m j) by lia. ring.
Qed.

(** [cho_solve] returns the solution of the factorized system. *)
Lemma cho_solve_correct n A F b :
  fsize F = n -> is_cholesky n A (fU F) ->
  forall i, (i < n)%nat ->
    rsum n (fun j => sym A i j * cho_solve F b j) = b i.
Proof.
  intros Hn HC i Hi. pose proof HC as [Hup Hdg Hgr].
  unfold cho_solve. rewrite Hn.
  set (U := fU F) in *.
  set (y := fwd_solve n (fun i m => U m i) b).
  assert (Hd : forall k, (k < n)%nat -> U k k <> 0).
  { intros k Hk. pose proof (Hdg k Hk). lra. }
  rewrite (rsum_ext n _ (fun j => rsum n (fun m => U m i * (U m j * bwd_solve n U y j)))).
  2:{ intros j Hj. rewrite <- (is_cholesky_gram_full n A U i j HC Hi Hj).
      rewrite <- rsum_scal_r. apply rsum_ext. intros m Hm. ring. }
  rewrite rsum_swap.
  rewrite (rsum_ext n _ (fun m => U m i * y m)).
  2:{ intros m Hm. rewrite rsum_scal. f_equal.
      apply (bwd_solve_correct n U y Hup Hd m Hm). }
  rewrite (rsum_trunc n (S i)); [|lia|].
  - apply (fwd_solve_correct n (fun i m => U m i) b Hd i Hi).
  - intros m Hm. rewrite (Hup m i) by lia. ring.
Qed.

(** [cho_solve] is linear in its right-hand side. *)
Lemma cho_solve_linear F (a c : R) (b1 b2 : vec) :
  forall i,
    cho_solve F (fun k => a * b1 k + c * b2 k) i =
    a * cho_solve F b1 i + c * cho_solve F b2 i.
Proof.
  intros i. unfold cho_solve.
  rewrite <- bwd_solve_linear. apply bwd_solve_ext.
  intros k Hk. apply fwd_solve_linear.
Qed.

Lemma cho_solve_ext F b b' :
  (forall i, (i < fsize F)%nat -> b i = b' i) ->
  forall i, cho_solve F b i = cho_solve F b' i.
Proof.
  intros H i. unfold cho_solve. apply bwd_solve_ext.
  intros k Hk. apply fwd_solve_ext; [reflexivity|exact H].
Qed.

(** A factorized matrix has a trivial kernel. *)
Lemma is_cholesky_kernel n A U (x : vec) :
  is_cholesky n A U ->
  (forall i, (i < n)%nat -> rsum n (fun j => sym A i j * x j) = 0) ->
  forall i, (i < n)%nat -> x i = 0.
Proof.
  intros HC H. pose proof HC as [Hup Hdg Hgr].
  assert (Hd : forall k, (k < n)%nat -> U k k <> 0).
  { intros k Hk. pose proof (Hdg k Hk). lra. }
  apply (upper_kernel n U x Hup Hd).
  apply (lower_kernel n U (fun m => rsum n (fun j => U m j * x j)) Hup Hd).
  intros i Hi. rewrite <- (H i Hi).
  rewrite (rsum_ext n (fun j => sym A i j * x j)
             (fun j => rsum n (fun m => U m i * (U m j * x j)))).
  2:{ intros j Hj. rewrite <- (is_cholesky_gram_full n A U i j HC Hi Hj).
      rewrite <- rsum_scal_r. apply rsum_ext. intros m Hm. ring. }
  rewrite rsum_swap. apply rsum_ext. intros m Hm. rewrite rsum_scal. reflexivity.
Qed.

(** A matrix that [cho_factor] accepts is positive definite. *)
Lemma is_cholesky_posdef n A U : is_cholesky n A U -> posdef n (sym A).
Proof.
  intros HC x [i0 [Hi0 Hx]]. pose proof HC as [Hup Hdg Hgr].
  assert (Hd : forall k, (k < n)%nat -> U k k <> 0).
  { intros k Hk. pose proof (Hdg k Hk). lra. }
  set (y := fun m => rsum n (fun j => U m j * x j)).
  assert (E : rsum n (fun i => rsum n (fun j => x i * sym A i j * x j)) =
              rsum n (fun m => y m * y m)).
  { rewrite (rsum_ext n _ (fun i => rsum n (fun m =>
               (U m i * x i) * y m))).
    2:{ intros i Hi.
        rewrite (rsum_ext n _ (fun j => rsum n (fun m =>
                  x i * (U m i * (U m j * x j))))).
        2:{ intros j Hj. rewrite <- (is_cholesky_gram_full n A U i j HC Hi Hj).
            rewrite (rsum_ext n (fun m => x i * (U m i * (U m j * x j)))
                       (fun m => (x i * x j) * (U m i * U m j)))
              by (intros m Hm; ring).
            rewrite rsum_scal. ring. }
        rewrite rsum_swap. apply rsum_ext. intros m Hm. unfold y.
        rewrite <- rsum_scal. apply rsum_ext. intros j Hj. ring. }
    rewrite rsum_swap. apply rsum_ext. intros m Hm.
    rewrite rsum_scal_r. reflexivity. }
  rewrite E.
  assert (Hnn : forall m, (m < n)%nat -> 0 <= y m * y m).
  { intros m _. apply Rle_0_sqr. }
  destruct (Rle_lt_or_eq_dec 0 _ (rsum_nonneg n _ Hnn)) as [Hpos|Hz]; [exact Hpos|].
  exfalso. apply Hx.
  apply (upper_kernel n U x Hup Hd); [|exact Hi0].
  intros m Hm. fold (y m).
  pose proof (rsum_nonneg_zero n _ Hnn (eq_sym Hz) m Hm) as Hy.
  apply Rmult_integral in Hy. destruct Hy; assumption.
Qed.

Lemma cho_factor_not_posdef n A :
  ~ posdef n (sym A) -> cho_factor n A = Raise LinAlgError.
Proof.
  intros H. destruct (cho_factor n A) as [F|e] eqn:E.
  - exfalso. apply H. destruct (cho_factor_correct n A F E) as [_ HC].
    apply (is_cholesky_posdef n A (fU F) HC).
  - unfold cho_factor in E. destruct (chol_rows A n); [discriminate|].
    symmetry. exact E.
Qed.

(** [cho_solve] distributes over finite linear combinations. *)
Lemma cho_solve_zero F : forall i, cho_solve F (fun _ => 0) i = 0.
Proof.
  intros i.
  rewrite (cho_solve_ext F (fun _ => 0) (fun k => 0 * 0 + 0 * 0))
    by (intros; ring).
  rewrite (cho_solve_linear F 0 0 (fun _ => 0) (fun _ => 0)). ring.
Qed.

Lemma cho_solve_sum F m (c : vec) (B : nat -> vec) :
  forall i,
    cho_solve F (fun k => rsum m (fun t => c t * B t k)) i =
    rsum m (fun t => c t * cho_solve F (B t) i).
Proof.
  intros i. induction m as [|m IH]; simpl.
  - apply cho_solve_zero.
  - rewrite <- IH.
    rewrite (cho_solve_ext F _
               (fun k => 1 * rsum m (fun t => c t * B t k) + c m * B m k))
      by (intros; ring).
    rewrite cho_solve_linear. ring.
Qed.

(** Each row of a matrix solve is a linear combination of the rows of
    the right-hand side. *)
Lemma cho_solve_mat_span F (B : mat) i g :
  cho_solve_mat F B i g =
  rsum (fsize F) (fun k =>
    cho_solve F (fun i' => if Nat.eqb i' k then 1 else 0) i * B k g).
Proof.
  unfold cho_solve_mat.
  rewrite (cho_solve_ext F _
             (fun i' => rsum (fsize F) (fun k =>
                B k g * (if Nat.eqb i' k then 1 else 0)))).
  - rewrite cho_solve_sum. apply rsum_ext. intros k _. ring.
  - intros i' Hi'. rewrite (rsum_single (fsize F) i').
    + rewrite Nat.eqb_refl. ring.
    + exact Hi'.
    + intros k Hk Hne. destruct (Nat.eqb_spec i' k); [congruence|ring].
Qed.

End LAFacts.

(** ** [PAugSetup.initialize_g2a]: the dual basis *)

Module AugFacts.

Import Py LA LAFacts Setups.

Local Open Scope R_scope.

Lemma getindex_ok {A} (l : list A) i x : getindex l i = Ok x <-> l !! i = Some x.
Proof.
  unfold getindex. destruct (l !! i); split; intros H; try discriminate.
  - injection H as ->. reflexivity.
  - injection H as ->. reflexivity.
Qed.

(** The offsets [np.cumsum] produces never decrease, so the tables of
    both [from_setup] constructors give sorted channel boundaries. *)
Lemma cumsum_from_ge acc l : forall i a,
  Shells.cumsum_from acc l !! i = Some a -> (acc <= a)%nat.
Proof.
  revert acc. induction l as [|x r IH]; intros acc i a H; [destruct i; discriminate|].
  destruct i as [|i]; simpl in H.
  - injection H as <-. lia.
  - apply IH in H. lia.
Qed.

Lemma cumsum_from_mono acc l : forall i j a b,
  (i <= j)%nat ->
  Shells.cumsum_from acc l !! i = Some a ->
  Shells.cumsum_from acc l !! j = Some b -> (a <= b)%nat.
Proof.
  revert acc. induction l as [|x r IH]; intros acc i j a b Hij Ha Hb;
    [destruct i; discriminate|].
  destruct i as [|i], j as [|j]; simpl in Ha, Hb; try lia.
  - injection Ha as <-. injection Hb as <-. lia.
  - injection Ha as <-. apply cumsum_from_ge in Hb. exact Hb.
  - apply (IH (acc + x)%nat i j a b); [lia|exact Ha|exact Hb].
Qed.

Lemma table_sorted_loc (self : PASDWData) (t : Shells.shell_table) :
  nbas_loc self = Shells.nbas_loc t -> sorted_loc self.
Proof.
  intros E l l' a b Hl Ha Hb. rewrite E in Ha, Hb. unfold Shells.nbas_loc in *.
  destruct l as [|l], l' as [|l']; simpl in Ha, Hb; try lia.
  - injection Ha as <-. injection Hb as <-. lia.
  - injection Ha as <-. lia.
  - apply (cumsum_from_mono 0 (Shells.nbas_lst t) l l' a b); [lia|exact Ha|exact Hb].
Qed.

Lemma set_rows_in a jmin jmax x j g :
  (jmin <= j < jmax)%nat -> set_rows a jmin jmax x j g = x (j - jmin)%nat g.
Proof.
  intros H. unfold set_rows.
  destruct (Nat.leb_spec jmin j); [|lia].
  destruct (Nat.ltb_spec j jmax); [|lia]. reflexivity.
Qed.

Lemma set_rows_out a jmin jmax x j g :
  ~ (jmin <= j < jmax)%nat -> set_rows a jmin jmax x j g = a j g.
Proof.
  intros H. unfold set_rows.
  destruct (Nat.leb_spec jmin j); [|reflexivity].
  destruct (Nat.ltb_spec j jmax); [lia|reflexivity].
Qed.

(** What one iteration does, when it returns. *)
Lemma g2a_channel_ok self acc l out :
  g2a_channel self acc l = Ok out ->
  exists a b F,
    nbas_loc self !! l = Some a /\ nbas_loc self !! (l + 1)%nat = Some b /\
    cho_factor (clip (nj self) b - clip (nj self) a)
               (channel_ovlp self (clip (nj self) a)) = Ok F /\
    fst out = set_rows (fst acc) (clip (nj self) a) (clip (nj self) b)
                (cho_solve_mat F (channel_rows self (clip (nj self) a))).
Proof.
  unfold g2a_channel. destruct acc as [fj ft].
  destruct (getindex (nbas_loc self) l) as [a|] eqn:Ea; [|discriminate].
  destruct (getindex (nbas_loc self) (l + 1)) as [b|] eqn:Eb; [|discriminate].
  cbn. destruct (cho_factor _ _) as [F|] eqn:EF; [|discriminate].
  cbn. intros H. injection H as <-.
  exists a, b, F. rewrite <- !getindex_ok. auto.
Qed.

(** Rows outside the channels of [ls] are left alone by the loop. *)
Lemma g2a_loop_frame self ls : forall acc out j g,
  g2a_loop self acc ls = Ok out ->
  (forall l, In l ls -> ~ in_channel self l j) ->
  (j < nj self)%nat ->
  fst out j g = fst acc j g.
Proof.
  induction ls as [|l rest IH]; intros acc out j g H Hout Hj; simpl in H.
  - injection H as <-. reflexivity.
  - destruct (g2a_channel self acc l) as [acc'|] eqn:E; [|discriminate].
    cbn in H. rewrite (IH acc' out j g H); [|intros l' Hl'; apply Hout; right; exact Hl'|exact Hj].
    destruct (g2a_channel_ok self acc l acc' E) as (a & b & F & Ha & Hb & _ & ->).
    apply set_rows_out. intros Hin. apply (Hout l); [left; reflexivity|].
    exists a, b. unfold clip in Hin. repeat split; try assumption; lia.
Qed.

Lemma g2a_loop_app self ls1 ls2 acc out :
  g2a_loop self acc (ls1 ++ ls2) = Ok out ->
  exists mid, g2a_loop self acc ls1 = Ok mid /\ g2a_loop self mid ls2 = Ok out.
Proof.
  revert acc. induction ls1 as [|l r IH]; intros acc H; simpl in *.
  - exists acc. auto.
  - destruct (g2a_channel self acc l) as [acc'|]; [|discriminate].
    cbn in *. apply IH, H.
Qed.

(** After the loop, the rows of channel [l] are the solve of that
    channel's own overlap system. *)
Lemma g2a_loop_channel self out l a b :
  sorted_loc self ->
  g2a_loop self (fun _ _ => 0, fun _ _ => 0) (seq 0 (lmax self + 1)) = Ok out ->
  (l <= lmax self)%nat ->
  nbas_loc self !! l = Some a -> nbas_loc self !! (l + 1)%nat = Some b ->
  exists F,
    cho_factor (clip (nj self) b - clip (nj self) a)
               (channel_ovlp self (clip (nj self) a)) = Ok F /\
    forall j g, (a <= j < b)%nat -> (j < nj self)%nat ->
      fst out j g =
      cho_solve_mat F (channel_rows self (clip (nj self) a)) (j - a)%nat g.
Proof.
  intros Hs H Hl Ha Hb.
  replace (seq 0 (lmax self + 1))
    with (seq 0 l ++ l :: seq (S l) (lmax self - l)) in H.
  2:{ replace (lmax self + 1)%nat with (l + S (lmax self - l))%nat by lia.
      rewrite seq_app. reflexivity. }
  destruct (g2a_loop_app _ _ _ _ _ H) as (mid & _ & H2). simpl in H2.
  destruct (g2a_channel self mid l) as [acc'|] eqn:E; [|discriminate]. cbn in H2.
  destruct (g2a_channel_ok self mid l acc' E) as (a' & b' & F & Ha' & Hb' & HF & Hacc).
  rewrite Ha in Ha'. injection Ha' as <-. rewrite Hb in Hb'. injection Hb' as <-.
  exists F. split; [exact HF|]. intros j g Hj Hjn.
  rewrite (g2a_loop_frame self _ acc' out j g H2); [| |exact Hjn].
  - rewrite Hacc. rewrite set_rows_in by (unfold clip; lia).
    unfold clip. replace (Nat.min a (nj self)) with a by lia. reflexivity.
  - intros l' Hl' (a' & b' & Ha' & Hb' & Hr & _).
    apply in_seq in Hl'.
    pose proof (Hs (l + 1)%nat l' b a' ltac:(lia) Hb Ha'). lia.
Qed.

(** The overlap of a channel is symmetric, so its mirrored upper
    triangle is the overlap itself. *)
Lemma channel_ovlp_sym self jmin i j :
  sym (channel_ovlp self jmin) i j = channel_ovlp self jmin i j.
Proof.
  unfold sym. destruct (Nat.leb i j); [reflexivity|].
  unfold channel_ovlp. apply rsum_ext. intros g _. ring.
Qed.

(** Rows obtained by solving a channel's overlap system against the
    channel's own rows are dual to those rows under the weight of the
    overlap. *)
Lemma solve_dual self jmin n F i i' :
  cho_factor n (channel_ovlp self jmin) = Ok F ->
  (i < n)%nat -> (i' < n)%nat ->
  rsum (ng self) (fun g =>
    cho_solve_mat F (channel_rows self jmin) i g * channel_rows self jmin i' g *
    (g2a_dv_g self g * get_filt self (r_g (slrgd self)) g))
  = if Nat.eqb i i' then 1 else 0.
Proof.
  intros HF Hi Hi'.
  destruct (cho_factor_correct _ _ _ HF) as [Hn HC].
  set (A := channel_ovlp self jmin) in *.
  set (P := channel_rows self jmin).
  set (w := fun g => g2a_dv_g self g * get_filt self (r_g (slrgd self)) g).
  set (X := cho_solve_mat F P).
  set (G := fun j => rsum (ng self) (fun g => X j g * P i' g * w g)).
  change (G i = if Nat.eqb i i' then 1 else 0).
  assert (K : forall k, (k < n)%nat ->
            (fun j => G j - (if Nat.eqb j i' then 1 else 0)) k = 0).
  { apply (is_cholesky_kernel n A (fU F) _ HC). intros k Hk.
    rewrite (rsum_ext n _ (fun j => sym A k j * G j
                                    - sym A k j * (if Nat.eqb j i' then 1 else 0)))
      by (intros; ring).
    rewrite <- (Rplus_opp_r (sym A k i')). unfold Rminus.
    rewrite rsum_plus. f_equal.
    - unfold G.
      rewrite (rsum_ext n _ (fun j => rsum (ng self) (fun g =>
                 (sym A k j * X j g) * (P i' g * w g)))).
      2:{ intros j Hj. rewrite <- rsum_scal. apply rsum_ext. intros g _. ring. }
      rewrite rsum_swap.
      rewrite (rsum_ext (ng self) _ (fun g => P k g * (P i' g * w g))).
      2:{ intros g _. rewrite rsum_scal_r. f_equal.
          apply (cho_solve_correct n A F (fun i0 => P i0 g) Hn HC k Hk). }
      unfold A. rewrite channel_ovlp_sym. unfold channel_ovlp.
      apply rsum_ext. intros g _. fold P. unfold w. ring.
    - rewrite (rsum_single n i').
      + rewrite Nat.eqb_refl. ring.
      + exact Hi'.
      + intros j Hj Hne. destruct (Nat.eqb_spec j i'); [contradiction|ring]. }
  specialize (K i Hi). simpl in K. lra.
Qed.

(** C10. In exact arithmetic, once [PAugSetup.initialize_g2a] has
    returned, the functions [ffuncs_jg] are dual to the projector
    functions under the filtered radial measure: for every channel [l]
    and every [j], [j'] of that channel, the sum over the grid of
    [ffuncs_jg[j] * pfuncs_ng[nlist_j[j']] * filt * r^2 dr] is 1 when
    [j = j'] and 0 otherwise, [pfuncs_ng] being the projectors the
    overlaps were computed from; against the array the call leaves in
    [self.pfuncs_ng], which it has multiplied by the filter in place, the
    same holds under the plain measure [r^2 dr].  [exact_ovlp_pf] is
    the identity.  Channels are never mixed: [ffuncs_jg[j]] is a
    combination of the projectors of the functions
    [nbas_loc[l] .. nbas_loc[l + 1] - 1] of its own channel, and of no
    other. *)
Theorem C10_dual_basis (E : aug_ext) (self : PASDWData) (out : PAugSetup)
    (l j j' : nat) :
  sorted_loc self ->
  initialize_g2a E self = Ok out ->
  (l <= lmax self)%nat -> in_channel self l j -> in_channel self l j' ->
  radial_dot self (ffuncs_jg out j)
    (pfuncs_ng self (itemn (nlist_j self) j'))
    (fun g => get_filt self (r_g (slrgd self)) g * g2a_dv_g self g)
  = (if Nat.eqb j j' then 1 else 0)
  /\ radial_dot (pa_data out) (ffuncs_jg out j)
       (pfuncs_ng (pa_data out) (itemn (nlist_j (pa_data out)) j'))
       (g2a_dv_g (pa_data out))
     = (if Nat.eqb j j' then 1 else 0)
  /\ exact_ovlp_pf out = identity
  /\ exists (a b : nat) (c : vec),
       nbas_loc self !! l = Some a /\ nbas_loc self !! (l + 1)%nat = Some b /\
       (forall k, (k < Nat.min b (nj self) - a)%nat -> in_channel self l (a + k)) /\
       forall g, ffuncs_jg out j g =
                 rsum (Nat.min b (nj self) - a)
                   (fun k => c k * pfuncs_ng self (itemn (nlist_j self) (a + k)) g).
Proof.
  intros Hs H Hl (a & b & Ha & Hb & Hj & Hjn) (a' & b' & Ha' & Hb' & Hj' & Hjn').
  rewrite Ha in Ha'. injection Ha' as <-. rewrite Hb in Hb'. injection Hb' as <-.
  unfold initialize_g2a in H.
  destruct (g2a_loop self _ _) as [[fj ft]|] eqn:EL; [|discriminate].
  cbn in H. injection H as <-. cbn [ffuncs_jg pa_data exact_ovlp_pf pfuncs_ng
                                     nlist_j ng slrgd].
  destruct (g2a_loop_channel self (fj, ft) l a b Hs EL Hl Ha Hb) as (F & HF & Hrow).
  cbn [fst] in Hrow.
  assert (Ea : clip (nj self) a = a) by (unfold clip; lia).
  rewrite Ea in *.
  assert (Hin : forall i, (a <= i < b)%nat -> (i < nj self)%nat ->
                 (i - a < clip (nj self) b - a)%nat) by (unfold clip; lia).
  assert (D : rsum (ng self) (fun g =>
                fj j g * pfuncs_ng self (itemn (nlist_j self) j') g *
                (get_filt self (r_g (slrgd self)) g * g2a_dv_g self g))
              = if Nat.eqb j j' then 1 else 0).
  { assert (Eq : Nat.eqb j j' = Nat.eqb (j - a) (j' - a)).
    { destruct (Nat.eqb_spec j j'), (Nat.eqb_spec (j - a) (j' - a)); lia. }
    rewrite Eq.
    rewrite <- (solve_dual self a _ F (j - a) (j' - a) HF (Hin j Hj Hjn) (Hin j' Hj' Hjn')).
    apply rsum_ext. intros g _.
    rewrite (Hrow j g Hj Hjn). unfold channel_rows.
    replace (a + (j' - a))%nat with j' by lia. ring. }
  split; [exact D|]. split.
  - unfold radial_dot. cbn [ng pfuncs_ng nlist_j pa_data].
    rewrite <- D. apply rsum_ext. intros g _. unfold g2a_dv_g. cbn [slrgd]. ring.
  - split; [reflexivity|].
    destruct (cho_factor_correct _ _ _ HF) as [Hn _].
    exists a, b,
      (fun k => cho_solve F (fun i' => if Nat.eqb i' k then 1 else 0) (j - a)%nat).
    split; [exact Ha|]. split; [exact Hb|]. split.
    + intros k Hk. exists a, b. repeat split; try assumption; lia.
    + intros g.
      rewrite (Hrow j g Hj Hjn), cho_solve_mat_span, Hn. reflexivity.
Qed.

(** The call returns when every channel has boundaries and an overlap
    that [cho_factor] accepts. *)
Lemma g2a_loop_returns self ls : forall acc,
  (forall l, In l ls ->
     exists a b F,
       nbas_loc self !! l = Some a /\ nbas_loc self !! (l + 1)%nat = Some b /\
       cho_factor (clip (nj self) b - clip (nj self) a)
                  (channel_ovlp self (clip (nj self) a)) = Ok F) ->
  exists out, g2a_loop self acc ls = Ok out.
Proof.
  induction ls as [|l ls IH]; intros acc H; simpl.
  - exists acc. reflexivity.
  - destruct (H l (or_introl eq_refl)) as (a & b & F & Ha & Hb & HF).
    unfold g2a_channel. destruct acc as [fj ft].
    apply getindex_ok in Ha. apply getindex_ok in Hb.
    rewrite Ha. cbn [mbind res_bind bind]. rewrite Hb. cbn [mbind res_bind bind].
    rewrite HF. cbn [mbind res_bind bind].
    apply IH. intros l' Hl'. apply H. right. exact Hl'.
Qed.

Lemma initialize_g2a_returns E self :
  (forall l, (l <= lmax self)%nat ->
     exists a b F,
       nbas_loc self !! l = Some a /\ nbas_loc self !! (l + 1)%nat = Some b /\
       cho_factor (clip (nj self) b - clip (nj self) a)
                  (channel_ovlp self (clip (nj self) a)) = Ok F) ->
  exists out, initialize_g2a E self = Ok out.
Proof.
  intros H. unfold initialize_g2a. cbv zeta.
  destruct (g2a_loop_returns self (seq 0 (lmax self + 1)) (fun _ _ => 0, fun _ _ => 0))
    as (out & Ho).
  - intros l Hl. apply H. apply in_seq in Hl. lia.
  - destruct (g2a_loop self _ _) as [[fj ft]|e] eqn:EL.
    + cbn [mbind res_bind bind]. eexists. reflexivity.
    + discriminate Ho.
Defined.

(** A one by one matrix with a positive entry is accepted. *)
Lemma cho_factor_1 (A : mat) : 0 < A O O -> exists F, cho_factor 1 A = Ok F.
Proof.
  intros H. unfold cho_factor. cbn [chol_rows].
  assert (Hp : chol_pivot A [] 0 = A O O) by (unfold chol_pivot; simpl; ring).
  destruct (Rlt_dec 0 (chol_pivot A [] 0)) as [|Hn].
  - eexists. reflexivity.
  - exfalso. apply Hn. rewrite Hp. exact H.
Defined.

Lemma data1_overlap : channel_ovlp data1 0 O O = / 2.
Proof.
  unfold channel_ovlp, channel_rows, g2a_dv_g, get_filt. cbn [ng data1 rsum
    pfuncs_ng slrgd rgd1 r_g dr_g rcut_feat nlist_j itemn nth Nat.add].
  destruct (Rlt_dec 2 1) as [Hlt|_]; [exfalso; lra|].
  replace (PI * 1 / 2) with (PI / 2) by field. rewrite cos_PI2. lra.
Defined.

(** A two by two matrix with a positive diagonal and no entry above it
    is accepted. *)
Lemma cho_factor_2 (A : mat) :
  0 < A 0%nat 0%nat -> A 0%nat 1%nat = 0 -> 0 < A 1%nat 1%nat ->
  exists F, cho_factor 2 A = Ok F.
Proof.
  intros H0 H01 H1. unfold cho_factor. cbn [chol_rows].
  assert (Hp : chol_pivot A [] 0 = A O O) by (unfold chol_pivot; simpl; ring).
  destruct (Rlt_dec 0 (chol_pivot A [] 0)) as [Hp0|Hn].
  2:{ exfalso. apply Hn. rewrite Hp. exact H0. }
  cbn [app].
  assert (Hq : chol_pivot A [chol_row A [] 0] 1 = A 1%nat 1%nat).
  { unfold chol_pivot, row_entry, chol_row. cbn [rsum nth Nat.ltb Nat.leb Nat.eqb].
    rewrite H01. unfold Rdiv. ring. }
  destruct (Rlt_dec 0 (chol_pivot A [chol_row A [] 0] 1)) as [_|Hn].
  - eexists. reflexivity.
  - exfalso. apply Hn. rewrite Hq. exact H1.
Defined.

Lemma data2_weight g :
  g2a_dv_g data2 g * get_filt data2 (r_g (slrgd data2)) g = / 2.
Proof.
  unfold g2a_dv_g, get_filt. cbn [data2 slrgd rgd3 r_g dr_g rcut_feat].
  destruct (Rlt_dec 2 1) as [Hlt|_]; [exfalso; lra|].
  replace (PI * 1 / 2) with (PI / 2) by field. rewrite cos_PI2. lra.
Defined.

Lemma data2_overlap jmin i j :
  channel_ovlp data2 jmin i j =
  rsum 3 (fun g => identity (itemn [0; 2; 1; 2]%nat (jmin + i)) g *
                   identity (itemn [0; 2; 1; 2]%nat (jmin + j)) g * / 2).
Proof.
  unfold channel_ovlp, channel_rows. cbn [ng data2 pfuncs_ng nlist_j].
  apply rsum_ext. intros g _. rewrite data2_weight. reflexivity.
Defined.

Lemma data2_sorted : sorted_loc data2.
Proof.
  intros l l' a b Hl Ha Hb. cbn [nbas_loc data2] in Ha, Hb.
  destruct l as [|[|[|[|l]]]], l' as [|[|[|[|l']]]]; cbn in Ha, Hb;
    try discriminate; try lia;
    injection Ha as <-; injection Hb as <-; lia.
Defined.

Lemma data2_returns : exists out, initialize_g2a aug1 data2 = Ok out.
Proof.
  apply initialize_g2a_returns. intros l Hl. cbn [lmax data2] in Hl.
  destruct l as [|[|[|l]]]; [| | |lia].
  - destruct (cho_factor_2 (channel_ovlp data2 0)) as [F HF].
    + rewrite data2_overlap. unfold identity. cbn. lra.
    + rewrite data2_overlap. unfold identity. cbn. lra.
    + rewrite data2_overlap. unfold identity. cbn. lra.
    + exists 0%nat, 2%nat, F. cbn. repeat split. exact HF.
  - destruct (cho_factor_1 (channel_ovlp data2 2)) as [F HF].
    + rewrite data2_overlap. unfold identity. cbn. lra.
    + exists 2%nat, 3%nat, F. cbn. repeat split. exact HF.
  - destruct (cho_factor_1 (channel_ovlp data2 3)) as [F HF].
    + rewrite data2_overlap. unfold identity. cbn. lra.
    + exists 3%nat, 4%nat, F. cbn. repeat split. exact HF.
Defined.

(** The theorem on the smallest shell table: the first channel has
    two functions. *)
Lemma C10_dual_basis_witness :
  exists out,
    initialize_g2a aug1 data2 = Ok out /\
    radial_dot data2 (ffuncs_jg out 0%nat) (pfuncs_ng data2 2%nat)
      (fun g => get_filt data2 (r_g (slrgd data2)) g * g2a_dv_g data2 g) = 0 /\
    radial_dot data2 (ffuncs_jg out 1%nat) (pfuncs_ng data2 2%nat)
      (fun g => get_filt data2 (r_g (slrgd data2)) g * g2a_dv_g data2 g) = 1 /\
    exists c : vec,
      forall g, ffuncs_jg out 0%nat g =
                rsum 2 (fun k => c k * pfuncs_ng data2
                                         (itemn (nlist_j data2) k) g).
Proof.
  assert (Hc0 : in_channel data2 0 0).
  { exists 0%nat, 2%nat. cbn. repeat split; lia. }
  assert (Hc1 : in_channel data2 0 1).
  { exists 0%nat, 2%nat. cbn. repeat split; lia. }
  destruct data2_returns as [out Hout].
  exists out. split; [exact Hout|].
  destruct (C10_dual_basis aug1 data2 out 0 0 1 data2_sorted Hout
              ltac:(cbn; lia) Hc0 Hc1)
    as (H1 & _ & _ & a & b & c & Ha & Hb & _ & Hspan).
  destruct (C10_dual_basis aug1 data2 out 0 1 1 data2_sorted Hout
              ltac:(cbn; lia) Hc1 Hc1)
    as (H2 & _).
  cbn in Ha, Hb. injection Ha as <-. injection Hb as <-.
  split; [exact H1|]. split; [exact H2|].
  exists c. exact Hspan.
Defined.

End AugFacts.

(** ** The shell tables *)

Module ShellsFacts.

Import Shells.

Lemma tables_consistent :
  consistent table19 /\ consistent table14 /\ consistent table9 /\ consistent table4.
Proof. unfold consistent. repeat split; reflexivity. Qed.

(** The bookkeeping of the smallest and of the default table, as the
    loops of [from_setup] compute it. *)
Example table4_bookkeeping :
  nbas_loc table4 = [0; 2; 3; 4] /\
  lmlist_i table4 = [0; 0; 1; 2; 3; 4; 5; 6; 7; 8] /\
  jlist_i table4 = [0; 1; 2; 2; 2; 3; 3; 3; 3; 3].
Proof. repeat split. Qed.

Example table9_bookkeeping :
  nbas_loc table9 = [0; 3; 5; 7; 8; 9] /\
  nj table9 = 9 /\ lmax table9 = 4 /\ nn table9 = 5 /\ ni table9 = 35.
Proof. repeat split. Qed.

Lemma table_le_refl t : table_le t t.
Proof. unfold table_le. repeat split; intros; lia. Qed.

Lemma nth_le_prefix (xs pre suf : list nat) :
  Forall2 le xs pre -> forall k, nth k xs 0 <= nth k (pre ++ suf) 0.
Proof.
  intros HF. induction HF as [|x y xs ys Hxy HF IH]; intros k.
  - destruct k; simpl; lia.
  - destruct k; simpl; [exact Hxy|apply IH].
Qed.

Lemma nbas_le_by_list t t' pre suf :
  nbas_lst t' = pre ++ suf -> Forall2 le (nbas_lst t) pre ->
  forall l, nbas t l <= nbas t' l.
Proof.
  intros Heq HF l. unfold nbas. rewrite Heq. apply nth_le_prefix, HF.
Qed.

Lemma table4_le_table9 : table_le table4 table9.
Proof.
  split; [cbn; lia|]. split; [cbn; lia|].
  apply (nbas_le_by_list _ _ [3; 2; 2] [1; 1]); [reflexivity|].
  repeat constructor.
Qed.

Lemma table9_le_table14 : table_le table9 table14.
Proof.
  split; [cbn; lia|]. split; [cbn; lia|].
  apply (nbas_le_by_list _ _ [4; 3; 3; 2; 2] []); [reflexivity|].
  repeat constructor.
Qed.

Lemma table14_le_table19 : table_le table14 table19.
Proof.
  split; [cbn; lia|]. split; [cbn; lia|].
  apply (nbas_le_by_list _ _ [5; 4; 4; 3; 3] []); [reflexivity|].
  repeat constructor.
Qed.

Lemma table_le_trans t1 t2 t3 : table_le t1 t2 -> table_le t2 t3 -> table_le t1 t3.
Proof.
  intros (A1 & B1 & C1) (A2 & B2 & C2). repeat split; try lia.
  intros l. specialize (C1 l). specialize (C2 l). lia.
Qed.

(** C5 as the specification states it fails: [PSmoothSetup.from_setup]
    gives atomic numbers 100 and 101 different tables although no
    threshold of 1000, 18, 0 lies between them, and it gives 18 and 19
    the same table. *)
Lemma C5_counterexample :
  PSmoothSetup_from_setup_table 100 <> PSmoothSetup_from_setup_table 101 /\
  PSmoothSetup_from_setup_table 18 = PSmoothSetup_from_setup_table 19 /\
  ~ (selected_by_Z_1000_18_0 PAugSetup_from_setup_table /\
     selected_by_Z_1000_18_0 PSmoothSetup_from_setup_table).
Proof.
  split; [discriminate|]. split; [reflexivity|].
  intros [_ (t3 & t2 & t1 & t0 & H)].
  pose proof (H 100%Z) as H100. pose proof (H 101%Z) as H101.
  cbn in H100, H101. rewrite <- H101 in H100. discriminate.
Qed.

(** C5, amended. [PAugSetup.from_setup] selects its table by the
    thresholds [Z > 1000], [Z > 18], [Z > 0], else;
    [PSmoothSetup.from_setup] selects among three tables by [Z > 100],
    [Z > 0], else.  In both, a larger [Z] never receives fewer radial
    functions in any channel nor a lower [lmax], and every table is
    consistent with the index lists derived from it. *)
Theorem C5_shell_tables (Z1 Z2 : Z) :
  (Z1 <= Z2)%Z ->
  selected_by_Z_1000_18_0 PAugSetup_from_setup_table /\
  (forall Zat : Z,
     PAugSetup_from_setup_table Zat =
       if (1000 <? Zat)%Z then table19
       else if (18 <? Zat)%Z then table14
       else if (0 <? Zat)%Z then table9 else table4) /\
  (forall Zat : Z,
     PSmoothSetup_from_setup_table Zat =
       if (100 <? Zat)%Z then table14
       else if (0 <? Zat)%Z then table9 else table4) /\
  table_le (PAugSetup_from_setup_table Z1) (PAugSetup_from_setup_table Z2) /\
  table_le (PSmoothSetup_from_setup_table Z1) (PSmoothSetup_from_setup_table Z2) /\
  consistent (PAugSetup_from_setup_table Z1) /\
  consistent (PSmoothSetup_from_setup_table Z1).
Proof.
  intros HZ.
  pose proof tables_consistent as (K19 & K14 & K9 & K4).
  pose proof table4_le_table9 as L49.
  pose proof table9_le_table14 as L914.
  pose proof table14_le_table19 as L1419.
  pose proof (table_le_trans _ _ _ L49 L914) as L414.
  pose proof (table_le_trans _ _ _ L914 L1419) as L919.
  pose proof (table_le_trans _ _ _ L414 L1419) as L419.
  split; [exists table19, table14, table9, table4; reflexivity|].
  split; [reflexivity|]. split; [reflexivity|].
  unfold PAugSetup_from_setup_table, PSmoothSetup_from_setup_table.
  split; [|split; [|split]].
  - destruct (Z.ltb_spec 1000 Z1), (Z.ltb_spec 18 Z1), (Z.ltb_spec 0 Z1),
      (Z.ltb_spec 1000 Z2), (Z.ltb_spec 18 Z2), (Z.ltb_spec 0 Z2);
      try lia; auto using table_le_refl.
  - destruct (Z.ltb_spec 100 Z1), (Z.ltb_spec 0 Z1),
      (Z.ltb_spec 100 Z2), (Z.ltb_spec 0 Z2);
      try lia; auto using table_le_refl.
  - destruct (Z.ltb_spec 1000 Z1), (Z.ltb_spec 18 Z1), (Z.ltb_spec 0 Z1); auto.
  - destruct (Z.ltb_spec 100 Z1), (Z.ltb_spec 0 Z1); auto.
Qed.

(** The theorem at hydrogen and calcium. *)
Lemma C5_shell_tables_witness :
  table_le (PAugSetup_from_setup_table 1) (PAugSetup_from_setup_table 20) /\
  table_le (PSmoothSetup_from_setup_table 1) (PSmoothSetup_from_setup_table 20).
Proof.
  assert (H : (1 <= 20)%Z) by lia.
  destruct (C5_shell_tables 1 20 H) as (_ & _ & _ & HA & HS & _).
  split; [exact HA|exact HS].
Defined.

End ShellsFacts.

(** ** The orchestrator *)

Module KernelFacts.

Import Py Kernel.

Section Stages.

Context {arr xc_t nlxc_t contribs_t ps_t pa_t : Type}.
Local Abbreviation setup := (setup arr xc_t nlxc_t contribs_t ps_t pa_t).
Local Abbreviation numerics := (numerics arr xc_t nlxc_t contribs_t ps_t pa_t).
Local Abbreviation kernel := (kernel arr).

(** Symbolic execution of a method body. *)
Ltac run_M :=
  cbv [mbind M_bind mret M_ret pure assert_ getattr
       read_fr read_df read_c read_vfr read_vdf
       assign_fr assign_df assign_c assign_vfr assign_vdf
       store_fr store_df store_c store_vfr store_vdf];
  cbv beta iota;
  cbn [fr_asgLq df_asgLq c_asiq vfr_asgLq vdf_asgLq fst snd].

Lemma bind_pure {A B} (r : res A) (k : A -> M (arr := arr) B) (st : kernel) :
  (pure r ≫= k) st = match r with Ok a => k a st | Raise e => (Raise e, st) end.
Proof. destruct r; reflexivity. Qed.

(** C8. With an empty mapping of atomic density matrices each of the
    three stages returns empty mappings, whatever the stored per-atom
    state is, and leaves that state as it was. *)
Theorem C8_empty_is_noop (N : numerics) (st : kernel) (setups : list setup)
    (D_asiq vc_asiq : gmap nat arr) :
  calculate_paw_cider_features N setups [] st = (Ok (∅, ∅), st) /\
  calculate_paw_cider_energy N setups [] D_asiq st = (Ok (∅, ∅, ∅), st) /\
  calculate_paw_cider_potential N setups [] vc_asiq st = (Ok ∅, st).
Proof. repeat split. Qed.

Lemma keeps_pure {A} (r : res A) : keeps_state (arr := arr) (pure r).
Proof. intros st. reflexivity. Qed.

Lemma keeps_ret {A} (a : A) : keeps_state (arr := arr) (mret a).
Proof. intros st. reflexivity. Qed.

Lemma keeps_bind {A B} (m : M (arr := arr) A) (k : A -> M (arr := arr) B) :
  keeps_state m -> (forall a, keeps_state (k a)) -> keeps_state (m ≫= k).
Proof.
  intros Hm Hk st. unfold mbind, M_bind. specialize (Hm st).
  destruct (m st) as [[a|e] st']; cbn [snd] in Hm; subst st'.
  - apply Hk.
  - reflexivity.
Qed.

Lemma keeps_read_vdf : keeps_state (read_vdf (arr := arr)).
Proof. intros st. reflexivity. Qed.

Lemma keeps_read_vfr : keeps_state (read_vfr (arr := arr)).
Proof. intros st. reflexivity. Qed.

Lemma potential_body_keeps (N : numerics) nspin setups vc_asiq a D_sp :
  keeps_state (potential_body N nspin setups vc_asiq a D_sp).
Proof.
  unfold potential_body.
  repeat (first [ apply keeps_pure | apply keeps_read_vdf | apply keeps_read_vfr
                | apply keeps_bind; [|intros ?] ]).
Qed.

Lemma potential_loop_keeps (N : numerics) nspin setups vc_asiq D_asp :
  forall dH, keeps_state (potential_loop N nspin setups vc_asiq dH D_asp).
Proof.
  induction D_asp as [|[a D_sp] rest IH]; intros dH; cbn [potential_loop].
  - apply keeps_ret.
  - apply keeps_bind; [apply potential_body_keeps|]. intros dH'. apply IH.
Qed.

(** The potential stage assigns no attribute. *)
Lemma potential_keeps_state (N : numerics) setups D_asp vc_asiq :
  keeps_state (calculate_paw_cider_potential N setups D_asp vc_asiq).
Proof.
  unfold calculate_paw_cider_potential. destruct D_asp as [|[a0 D0] rest].
  - apply keeps_ret.
  - apply keeps_bind; [apply keeps_pure|]. intros _. apply potential_loop_keeps.
Qed.


End Stages.



End KernelFacts.

(** ** The interpolation count *)

Module NalphaFacts.

Import Py Nalpha.

Local Open Scope R_scope.

Lemma fold_min_le (r : list R) : forall x, fold_left Rmin r x <= x.
Proof.
  induction r as [|y r IH]; intros x; simpl; [lra|].
  pose proof (IH (Rmin x y)). pose proof (Rmin_l x y). lra.
Qed.

Lemma fold_max_ge (r : list R) : forall x, x <= fold_left Rmax r x.
Proof.
  induction r as [|y r IH]; intros x; simpl; [lra|].
  pose proof (IH (Rmax x y)). pose proof (Rmax_l x y). lra.
Qed.

Lemma fold_min_pos (r : list R) : forall x,
  0 < x -> Forall (fun y => 0 < y) r -> 0 < fold_left Rmin r x.
Proof.
  induction r as [|y r IH]; intros x Hx Hr; simpl; [exact Hx|].
  inversion Hr; subst. apply IH; [|assumption].
  apply Rmin_case; assumption.
Qed.

(** On a non-empty array of positive exponents both reductions return,
    and [0 < min <= max]. *)
Lemma min_max_pos (alphas : list R) :
  alphas <> [] -> Forall (fun y => 0 < y) alphas ->
  exists lo hi, np_min alphas = Ok lo /\ np_max alphas = Ok hi /\ 0 < lo <= hi.
Proof.
  intros Hne Hpos. destruct alphas as [|x r]; [contradiction|].
  inversion Hpos; subst.
  exists (fold_left Rmin r x), (fold_left Rmax r x). simpl.
  split; [reflexivity|]. split; [reflexivity|]. split.
  - apply fold_min_pos; assumption.
  - pose proof (fold_min_le r x). pose proof (fold_max_ge r x). lra.
Qed.

(** The ladder [amin * lambd^n] against a target above [amin]: the
    exponent [ceil (ln (encut / amin) / ln lambd)] reaches the target
    and the one below it does not. *)
Lemma ladder_ceil (amin lam encut : R) :
  0 < amin -> 1 < lam -> amin < encut ->
  let n := Zceil (ln (encut / amin) / ln lam) in
  encut <= amin * powerRZ lam n /\
  amin * powerRZ lam n / lam < encut /\
  forall m : Z, (m < n)%Z -> amin * powerRZ lam m < encut.
Proof.
  intros Ha Hl He n.
  assert (Hlam : 0 < lam) by lra.
  assert (HL : 0 < ln lam).
  { rewrite <- ln_1. apply ln_increasing; lra. }
  assert (Hx : 0 < encut / amin) by (apply Rdiv_lt_0_compat; lra).
  destruct (Zceil_bound (ln (encut / amin) / ln lam)) as [Hlo Hhi]. fold n in Hlo, Hhi.
  assert (Hq : ln (encut / amin) = ln (encut / amin) / ln lam * ln lam)
    by (field; lra).
  assert (Hup : ln (encut / amin) <= IZR n * ln lam).
  { rewrite Hq. apply Rmult_le_compat_r; lra. }
  assert (Hdn : (IZR n - 1) * ln lam < ln (encut / amin)).
  { rewrite Hq. apply Rmult_lt_compat_r; lra. }
  assert (Hbelow : forall m : Z, (m < n)%Z -> amin * powerRZ lam m < encut).
  { intros m Hm. rewrite powerRZ_Rpower by exact Hlam. unfold Rpower.
    assert (Hm' : IZR m <= IZR n - 1).
    { replace (IZR n - 1) with (IZR (n - 1)) by (rewrite minus_IZR; reflexivity).
      apply IZR_le. lia. }
    assert (IZR m * ln lam < ln (encut / amin)).
    { apply Rle_lt_trans with ((IZR n - 1) * ln lam); [|exact Hdn].
      apply Rmult_le_compat_r; lra. }
    assert (exp (IZR m * ln lam) < encut / amin).
    { rewrite <- (exp_ln (encut / amin)) at 1 by exact Hx.
      apply exp_increasing. assumption. }
    replace encut with (amin * (encut / amin)) at 1 by (field; lra).
    apply Rmult_lt_compat_l; assumption. }
  split; [|split; [|exact Hbelow]].
  - rewrite powerRZ_Rpower by exact Hlam. unfold Rpower.
    replace encut with (amin * (encut / amin)) at 1 by (field; lra).
    apply Rmult_le_compat_l; [lra|].
    rewrite <- (exp_ln (encut / amin)) at 1 by exact Hx.
    destruct Hup as [Hup|Hup]; [left; apply exp_increasing; exact Hup|].
    right. rewrite Hup. reflexivity.
  - replace (amin * powerRZ lam n / lam) with (amin * powerRZ lam (n - 1)).
    + apply Hbelow. lia.
    + unfold Z.sub. rewrite powerRZ_add by lra. simpl. field. lra.
Qed.



End NalphaFacts.


(** ** The alternate setup [PSmoothSetup2] *)

Module NamesFacts.

Import Py Names.

Local Open Scope string_scope.

Lemma run_block_cons L orc s ss ρ :
  run_block L orc (s :: ss) ρ =
  match run_stmt L orc s ρ with
  | Ok (Next ρ') => run_block L orc ss ρ'
  | Ok Returned => Ok Returned
  | Raise e => Raise e
  end.
Proof. reflexivity. Qed.

Lemma run_stmt_simple L orc ln evs r xs ρ :
  run_stmt L orc (Simple ln evs r xs) ρ =
  match run_events L orc ln 0 evs ρ with
  | Ok _ => Ok (Next (bind_all xs (rhs_val r) ρ))
  | Raise e => Raise e
  end.
Proof. reflexivity. Qed.

(** A run of one statement's events that raises when every operation
    succeeds raises under every oracle: an operation may only raise
    earlier. *)
Lemma run_events_raise L orc ln evs ρ e0 : forall idx,
  run_events L (all_ok 0) ln idx evs ρ = Raise e0 ->
  exists e,
    run_events L orc ln idx evs ρ = Raise e /\
    ((forall k, op_raises orc ln k = None) -> e = e0).
Proof.
  induction evs as [|ev r IH]; intros idx H; simpl in H; [discriminate|].
  destruct ev as [x| |x]; simpl.
  - destruct (load L ρ x) as [v|e].
    + apply IH, H.
    + injection H as <-. exists e. split; [reflexivity|]. reflexivity.
  - destruct (op_raises orc ln idx) as [e|] eqn:E.
    + exists e. split; [reflexivity|]. intros Hok. rewrite Hok in E. discriminate.
    + apply IH, H.
  - destruct (ρ !! x) as [[|]|].
    + injection H as <-. eexists. split; reflexivity.
    + apply IH, H.
    + apply IH, H.
Qed.

(** Events that succeed when every operation does either succeed or
    stop at an operation. *)
Lemma run_events_ok L orc ln evs ρ : forall idx,
  run_events L (all_ok 0) ln idx evs ρ = Ok tt ->
  run_events L orc ln idx evs ρ = Ok tt \/
  exists e, run_events L orc ln idx evs ρ = Raise e /\
            ~ (forall k, op_raises orc ln k = None).
Proof.
  induction evs as [|ev r IH]; intros idx H; simpl in H; [left; reflexivity|].
  destruct ev as [x| |x]; simpl.
  - destruct (load L ρ x) as [v|e]; [apply IH, H|discriminate].
  - destruct (op_raises orc ln idx) as [e|] eqn:E.
    + right. exists e. split; [reflexivity|]. intros Hok. rewrite Hok in E. discriminate.
    + apply IH, H.
  - destruct (ρ !! x) as [[|]|]; [discriminate|apply IH, H|apply IH, H].
Qed.

Lemma always_raises_here L ln evs r xs ss ρ e0 :
  run_events L (all_ok 0) ln 0 evs ρ = Raise e0 ->
  always_raises L (Simple ln evs r xs :: ss) ρ e0.
Proof.
  intros H orc. rewrite run_block_cons, run_stmt_simple.
  destruct (run_events_raise L orc ln evs ρ e0 0 H) as (e & -> & He).
  exists e. split; [reflexivity|]. intros Hok. apply He. intros k. apply Hok.
Qed.

Lemma always_raises_later L ln evs r xs ss ρ e0 :
  run_events L (all_ok 0) ln 0 evs ρ = Ok tt ->
  always_raises L ss (bind_all xs (rhs_val r) ρ) e0 ->
  always_raises L (Simple ln evs r xs :: ss) ρ e0.
Proof.
  intros H Hss orc. rewrite run_block_cons, run_stmt_simple.
  destruct (run_events_ok L orc ln evs ρ 0 H) as [->|(e & -> & Hne)].
  - apply Hss.
  - exists e. split; [reflexivity|]. intros Hok. exfalso. apply Hne.
    intros k. apply Hok.
Qed.

(** Whatever the operations do and however often the loops iterate, a
    call of [PSmoothSetup2.initialize_a2g] raises; once line 1805 has
    evaluated, it raises the [NameError] of line 1806. *)
Lemma initialize_a2g_raises (orc : oracle) :
  exists e,
    call PSmoothSetup2_initialize_a2g orc = Raise e /\
    ((forall k, op_raises orc 1805%N k = None) ->
     e = NameError "get_delta_lpg_v2").
Proof.
  unfold call. cbn [body PSmoothSetup2_initialize_a2g].
  set (L := local_names _). set (ρ := bind_all _ _ _).
  rewrite run_block_cons, run_stmt_simple.
  match goal with
  | |- context [run_events L orc ?ln 0 ?evs ρ] =>
      assert (H0 : run_events L (all_ok 0) ln 0 evs ρ = Ok tt)
        by (vm_compute; reflexivity);
      destruct (run_events_ok L orc ln evs ρ 0 H0) as [->|(e & -> & Hne)]
  end.
  - rewrite run_block_cons, run_stmt_simple. cbn [run_events].
    match goal with
    | |- context [load L ?ρ' ?x] =>
        assert (El : load L ρ' x = Raise (NameError x))
          by (vm_compute; reflexivity);
        rewrite El
    end.
    eexists. split; [reflexivity|]. intros _. reflexivity.
  - exists e. split; [reflexivity|]. intros Hok. contradiction.
Qed.

(** A call of [PSmoothSetup2.get_c_and_df] raises as well; when every
    operation before it succeeds, the error is the [TypeError] of
    [np.zeros((nspin, nao, nb))], [nao] being [Ellipsis]. *)
Lemma get_c_and_df_raises :
  always_raises (local_names PSmoothSetup2_get_c_and_df)
    (body PSmoothSetup2_get_c_and_df)
    (bind_all (params PSmoothSetup2_get_c_and_df) VObject ∅)
    (TypeError "'ellipsis' object cannot be interpreted as an integer").
Proof.
  cbn [body PSmoothSetup2_get_c_and_df].
  set (L := local_names _).
  do 6 (apply always_raises_later; [vm_compute; reflexivity|]).
  apply always_raises_here. vm_compute. reflexivity.
Qed.

Ltac decide_prop :=
  match goal with
  | |- ?P => apply (bool_decide_unpack P); vm_compute; exact I
  end.

Ltac decide_names := repeat split; decide_prop.

(** C9 as the specification states it fails on two points. In
    [PSmoothSetup2.get_c_and_df] the name [nao] is not undefined: line
    1893 binds it to [Ellipsis] before line 1894, its only reference,
    loads it, and the run in which every operation succeeds stops there
    with a [TypeError], which is no unbound-name error. And
    [initialize_a2g] on an object whose [alphas_ae] is [None] stops at
    line 1805 with an [AttributeError]. *)
Lemma C9_counterexample :
  ~ undefined_name PSmoothSetup2_get_c_and_df "nao" /\
  (flat_map (store_lines "nao") (body PSmoothSetup2_get_c_and_df) = [1893%N] /\
   flat_map (load_lines "nao") (body PSmoothSetup2_get_c_and_df) = [1894%N]) /\
  (call PSmoothSetup2_get_c_and_df (all_ok 1)
   = Raise (TypeError "'ellipsis' object cannot be interpreted as an integer") /\
   is_name_error (TypeError "'ellipsis' object cannot be interpreted as an integer")
   = false) /\
  (call PSmoothSetup2_initialize_a2g alphas_ae_is_None
   = Raise (AttributeError "size") /\
   is_name_error (AttributeError "size") = false).
Proof.
  split.
  - intros (_ & Hloc & _). apply Hloc. decide_prop.
  - repeat split; vm_compute; reflexivity.
Qed.

(** C9, amended. No call into the alternate setup completes. Every
    call of [PSmoothSetup2.initialize_a2g] raises before returning: as
    soon as its first statement has evaluated, the [NameError] of the
    undefined [get_delta_lpg_v2] on line 1806; its body also refers to
    the undefined names [betas_lv], [pmin], [lp1], [dv_g] and [sr_part],
    and loads [FAC22] on line 1833 although the only binding of that
    local is on line 1839. Every call of [PSmoothSetup2.get_c_and_df]
    raises too: [nao] is bound to the [Ellipsis] placeholder, so
    [np.zeros((nspin, nao, nb))] raises [TypeError] unless an earlier
    operation has raised, and the name [df_sLpb] that the loop and the
    [return] refer to is undefined. *)
Theorem C9_v2_cannot_complete (orc : oracle) :
  (exists e,
     call PSmoothSetup2_initialize_a2g orc = Raise e /\
     ((forall k, op_raises orc 1805%N k = None) ->
      e = NameError "get_delta_lpg_v2")) /\
  (exists e,
     call PSmoothSetup2_get_c_and_df orc = Raise e /\
     ((forall ln k, op_raises orc ln k = None) ->
      e = TypeError "'ellipsis' object cannot be interpreted as an integer")) /\
  Forall (undefined_name PSmoothSetup2_initialize_a2g)
    ["get_delta_lpg_v2"; "betas_lv"; "pmin"; "lp1"; "dv_g"; "sr_part"] /\
  ("FAC22" ∈ local_names PSmoothSetup2_initialize_a2g /\
   flat_map (load_lines "FAC22") (body PSmoothSetup2_initialize_a2g)
   = [1833%N; 1858%N] /\
   flat_map (store_lines "FAC22") (body PSmoothSetup2_initialize_a2g)
   = [1839%N]) /\
  undefined_name PSmoothSetup2_get_c_and_df "df_sLpb" /\
  ("nao" ∈ local_names PSmoothSetup2_get_c_and_df /\
   flat_map (store_lines "nao") (body PSmoothSetup2_get_c_and_df) = [1893%N] /\
   flat_map (load_lines "nao") (body PSmoothSetup2_get_c_and_df) = [1894%N]).
Proof.
  split; [apply initialize_a2g_raises|].
  split; [apply get_c_and_df_raises|].
  split; [repeat constructor; decide_names|].
  split.
  { split; [decide_prop|].
    split; vm_compute; reflexivity. }
  split; [decide_names|].
  split; [decide_prop|].
  split; vm_compute; reflexivity.
Qed.

End NamesFacts.

(** ** [PSmoothSetup]: the projection solve and the factorization *)

Module SmoothFacts.

Import Py LA LAFacts Setups.

Local Open Scope R_scope.

Lemma rsum_lin_ext n (a b : R) (fz fx fy : nat -> R) :
  (forall k, (k < n)%nat -> fz k = a * fx k + b * fy k) ->
  rsum n fz = a * rsum n fx + b * rsum n fy.
Proof.
  intros H. rewrite <- rsum_lincomb. apply rsum_ext. exact H.
Qed.

Section Step.

Variables (E : fit_ext) (self : PSmoothSetup) (a b : R) (X Y : shaped4).

Let Zf := lincomb a X b Y.

Lemma b1_linear n_grid s L l rgd (realspace : bool) p q :
  (if realspace
   then get_b1_pb E self n_grid (fun b0 g => data4 Zf s b0 L g) l rgd
   else get_b1_pb_recip E self n_grid (fun b0 g => data4 Zf s b0 L g) l rgd) p q =
  a * (if realspace
       then get_b1_pb E self n_grid (fun b0 g => data4 X s b0 L g) l rgd
       else get_b1_pb_recip E self n_grid (fun b0 g => data4 X s b0 L g) l rgd) p q
  + b * (if realspace
         then get_b1_pb E self n_grid (fun b0 g => data4 Y s b0 L g) l rgd
         else get_b1_pb_recip E self n_grid (fun b0 g => data4 Y s b0 L g) l rgd) p q.
Proof.
  destruct realspace; unfold get_b1_pb, get_b1_pb_recip, Zf, lincomb; cbn [data4];
    match goal with
    | |- rsum ?n ?FZ * _ = _ * (rsum _ ?FX * _) + _ * (rsum _ ?FY * _) =>
        assert (K : rsum n FZ = a * rsum n FX + b * rsum n FY)
          by (apply rsum_lin_ext; intros; ring);
        rewrite K; ring
    end.
Qed.

Lemma b2_linear nb n_grid s L l rgd (realspace : bool) j q :
  (if realspace
   then get_b2_ja E self nb n_grid (fun b0 g => data4 Zf s b0 L g) l rgd
   else get_b2_ja_recip E self nb n_grid (fun b0 g => data4 Zf s b0 L g) l rgd) j q =
  a * (if realspace
       then get_b2_ja E self nb n_grid (fun b0 g => data4 X s b0 L g) l rgd
       else get_b2_ja_recip E self nb n_grid (fun b0 g => data4 X s b0 L g) l rgd) j q
  + b * (if realspace
         then get_b2_ja E self nb n_grid (fun b0 g => data4 Y s b0 L g) l rgd
         else get_b2_ja_recip E self nb n_grid (fun b0 g => data4 Y s b0 L g) l rgd) j q.
Proof.
  destruct realspace; unfold get_b2_ja, get_b2_ja_recip, Zf, lincomb; cbn [data4];
    apply rsum_lin_ext; intros b0 _; apply rsum_lin_ext; intros g _; ring.
Qed.

(** One iteration of the innermost loop keeps the three runs combined. *)
Lemma step_linear (realspace : bool) accz accx accy t :
  same_shape X Y ->
  lin_acc a b accz accx accy ->
  lin_acc a b (c_and_df_step E self Zf realspace accz t)
              (c_and_df_step E self X realspace accx t)
              (c_and_df_step E self Y realspace accy t).
Proof.
  intros (H0 & H1 & H2 & H3) [Hc Hd].
  destruct accz as [cz dz], accx as [cx dx], accy as [cy dy], t as [[s l] L].
  cbn [fst snd] in Hc, Hd.
  unfold c_and_df_step. cbn [dim0 dim1 dim2 dim3 Zf lincomb].
  rewrite <- H1, <- H3.
  set (nb := dim1 X). set (n_grid := dim3 X).
  set (rgd := sbt_rgd (ps_data self)).
  set (Nsm := length (alphas (ps_data self))).
  set (N1 := (NP self * nb)%nat).
  set (F := stored_factor self l).
  set (bz := cat_b_vecs N1 _ _). set (bx := cat_b_vecs N1 _ _).
  set (by_ := cat_b_vecs N1 _ _).
  assert (Hb : forall k, bz k = a * bx k + b * by_ k).
  { intros k. unfold bz, bx, by_, cat_b_vecs, flatten.
    destruct (Nat.ltb k N1).
    - apply (b1_linear n_grid s L l rgd realspace).
    - apply (b2_linear nb n_grid s L l rgd realspace). }
  assert (Hx : forall k, cho_solve F bz k = a * cho_solve F bx k + b * cho_solve F by_ k).
  { intros k. rewrite <- cho_solve_linear. apply cho_solve_ext. intros i _. apply Hb. }
  split; cbn [fst snd].
  - intros s' i q. destruct (_ && _).
    + unfold reshape. rewrite Hc, Hx. ring.
    + apply Hc.
  - intros s' L' p q. destruct (_ && _).
    + unfold reshape. rewrite Hd, Hx. ring.
    + apply Hd.
Qed.

Lemma loop_linear (realspace : bool) ts : forall accz accx accy,
  same_shape X Y ->
  lin_acc a b accz accx accy ->
  lin_acc a b (fold_left (c_and_df_step E self Zf realspace) ts accz)
              (fold_left (c_and_df_step E self X realspace) ts accx)
              (fold_left (c_and_df_step E self Y realspace) ts accy).
Proof.
  induction ts as [|t ts IH]; intros accz accx accy HS H; simpl; [exact H|].
  apply IH; [exact HS|]. apply step_linear; assumption.
Qed.

End Step.

(** C7. The basis-projection solve is linear: for input fields [x] and
    [y] of one shape and scalars [a] and [b], [get_c_and_df] applied to
    [a x + b y] returns, in both components [c_sib] and [df_sLpb] and for
    both values of [realspace], [a] times its result on [x] plus [b]
    times its result on [y]. *)
Theorem C7_get_c_and_df_linear (E : fit_ext) (self : PSmoothSetup)
    (a b : R) (x y : shaped4) (realspace : bool) :
  same_shape x y ->
  let rz := get_c_and_df E self (lincomb a x b y) realspace in
  let rx := get_c_and_df E self x realspace in
  let ry := get_c_and_df E self y realspace in
  (forall s i q, fst rz s i q = a * fst rx s i q + b * fst ry s i q) /\
  (forall s L p q, snd rz s L p q = a * snd rx s L p q + b * snd ry s L p q).
Proof.
  intros HS rz rx ry. unfold rz, rx, ry, get_c_and_df.
  destruct HS as (H0 & H1 & H2 & H3).
  cbn [dim0 lincomb]. rewrite <- H0.
  apply (loop_linear E self a b x y realspace); [repeat split; assumption|].
  split; intros; cbn [fst snd]; ring.
Qed.

(** *** The factorization loop of [initialize_a2g] *)

(** The channels on which [cho_factor] is called are an initial segment
    of the channels of the loop, each once and in order; all of them
    when the loop returns. *)
Lemma factor_loop_calls p ls : forall acc calls,
  exists k,
    snd (factor_loop p ls acc calls) = calls ++ firstn k ls /\
    (is_ok (fst (factor_loop p ls acc calls)) = true -> k = length ls).
Proof.
  induction ls as [|l ls IH]; intros acc calls; simpl.
  - exists O. rewrite app_nil_r. auto.
  - destruct (getindex p l) as [[n P]|e].
    + destruct (cho_factor n P) as [F|e].
      * destruct (IH (fst acc ++ [F], snd acc ++ [cho_solve_mat F identity])
                    (calls ++ [l])) as (k & Hk & Hok).
        exists (S k). rewrite Hk, <- app_assoc. simpl. split; [reflexivity|].
        intros H. rewrite (Hok H). reflexivity.
      * exists 1%nat. simpl. split; [reflexivity|discriminate].
    + exists O. simpl. rewrite app_nil_r. split; [reflexivity|discriminate].
Qed.

(** When the loop returns, it has appended one factor per channel: the
    [cho_factor] of that channel's matrix, and with it the inverse
    obtained by [cho_solve]. *)
Lemma factor_loop_ok p ls : forall acc calls pc pi cs,
  factor_loop p ls acc calls = (Ok (pc, pi), cs) ->
  exists Fs,
    pc = fst acc ++ Fs /\
    pi = snd acc ++ map (fun F => cho_solve_mat F identity) Fs /\
    length Fs = length ls /\
    forall i l, ls !! i = Some l ->
      exists n P F,
        p !! l = Some (n, P) /\ cho_factor n P = Ok F /\ Fs !! i = Some F.
Proof.
  induction ls as [|l ls IH]; intros acc calls pc pi cs H; simpl in H.
  - injection H as Hacc Hcs. subst acc. cbn [fst snd].
    exists []. rewrite !app_nil_r. repeat split. intros i l Hi. discriminate.
  - destruct (getindex p l) as [[n P]|e] eqn:Ep; [|discriminate].
    destruct (cho_factor n P) as [F|e] eqn:EF; [|discriminate].
    destruct (IH _ _ _ _ _ H) as (Fs & -> & -> & Hlen & Hall). cbn [fst snd].
    exists (F :: Fs). rewrite <- !app_assoc. simpl.
    split; [reflexivity|]. split; [reflexivity|]. split; [lia|].
    intros i l' Hi. destruct i as [|i]; simpl in Hi.
    + injection Hi as <-. exists n, P, F.
      unfold getindex in Ep. destruct (p !! l) as [[n' P']|]; [|discriminate].
      injection Ep as -> ->. auto.
    + apply Hall, Hi.
Qed.

(** The loop fails at the first channel whose matrix [cho_factor]
    rejects. *)
Lemma factor_loop_fails p ls l n P : forall acc calls,
  (forall l', l' ∈ ls -> is_Some (p !! l')) ->
  l ∈ ls -> p !! l = Some (n, P) -> cho_factor n P = Raise LinAlgError ->
  fst (factor_loop p ls acc calls) = Raise LinAlgError.
Proof.
  induction ls as [|l0 ls IH]; intros acc calls Hall Hin Hp HF.
  - inversion Hin.
  - simpl. unfold getindex.
    destruct (Hall l0 ltac:(left)) as [[n0 P0] E0]. rewrite E0.
    destruct (cho_factor n0 P0) as [F0|e0] eqn:EF0.
    + apply IH; [intros l' Hl'; apply Hall; right; exact Hl'| |exact Hp|exact HF].
      inversion Hin; subst; [|assumption].
      rewrite Hp in E0. injection E0 as <- <-. rewrite HF in EF0. discriminate.
    + simpl. unfold cho_factor in EF0. destruct (chol_rows P0 n0); [discriminate|].
      injection EF0 as <-. reflexivity.
Qed.

(** What [a2g_assemble] returns, read off its definition. *)
Lemma a2g_assemble_blocks E self pf2 m :
  a2g_assemble E self pf2 = Ok m ->
  m_p11_lpp m = get_p11_matrix E (m_delta_lpg m) (sbt_rgd self) (Some REG11) /\
  m_p22_ljaja m =
    map (p22_channel E self (m_phi_jabg m) (m_w_b m)) (seq 0 (lmax self + 1)) /\
  exists p12_pbja p21_japb,
    m_p_l_ii m =
      construct_full_p_matrices E (m_p11_lpp m) p12_pbja p21_japb (m_p22_ljaja m)
        (m_w_b m) (nbas_loc self).
Proof.
  unfold a2g_assemble.
  destruct (ones_over_square _ _) as [w|]; [|discriminate]. cbn [mbind res_bind bind].
  destruct (match pmax self with Some p => _ | None => _ end) as [pm|];
    [|discriminate]. cbn [mbind res_bind bind].
  destruct (get_delta_lpg E _ _ (sbt_rgd self) _ _) as [np dl].
  destruct (get_p12_p21_matrix E _ _ _ _ _) as [p12 p21].
  intros H. injection H as <-. cbn.
  split; [reflexivity|]. split; [reflexivity|]. exists p12, p21. reflexivity.
Qed.


(** The theorem on two constant fields of one shape. *)
Lemma C7_get_c_and_df_linear_witness :
  same_shape field1 field2 /\
  forall s i q,
    fst (get_c_and_df fit1 smooth1 (lincomb 2 field1 3 field2) false) s i q =
    2 * fst (get_c_and_df fit1 smooth1 field1 false) s i q
    + 3 * fst (get_c_and_df fit1 smooth1 field2 false) s i q.
Proof.
  assert (HS : same_shape field1 field2) by (repeat split; reflexivity).
  split; [exact HS|].
  destruct (C7_get_c_and_df_linear fit1 smooth1 2 3 field1 field2 false HS)
    as [Hc _].
  exact Hc.
Defined.


End SmoothFacts.

(** ** The cutoff functions *)

Module CutoffFacts.

Import LA Setups Cutoffs.

Local Open Scope R_scope.

Lemma half_cos_bounds x : 0 <= 0.5 + 0.5 * cos x <= 1.
Proof. destruct (COS_bound x). lra. Qed.

Lemma ramp_arg_bounds r lo hi :
  lo < hi -> lo <= r <= hi -> 0 <= PI * (r - lo) / (hi - lo) <= PI.
Proof.
  intros Hlt [H1 H2]. assert (HP := PI_RGT_0).
  assert (Hd : 0 < hi - lo) by lra.
  assert (Hq : 0 <= (r - lo) / (hi - lo) <= 1).
  { split.
    - apply Rmult_le_pos; [lra|]. left. apply Rinv_0_lt_compat. exact Hd.
    - apply Rmult_le_reg_r with (hi - lo); [exact Hd|].
      unfold Rdiv. rewrite Rmult_assoc, Rinv_l by lra. lra. }
  replace (PI * (r - lo) / (hi - lo)) with (PI * ((r - lo) / (hi - lo)))
    by (unfold Rdiv; ring).
  split; [apply Rmult_le_pos; lra|].
  rewrite <- (Rmult_1_r PI) at 2. apply Rmult_le_compat_l; lra.
Qed.

Lemma ramp_arg_mono r1 r2 lo hi :
  lo < hi -> r1 <= r2 ->
  PI * (r1 - lo) / (hi - lo) <= PI * (r2 - lo) / (hi - lo).
Proof.
  intros Hlt H. assert (HP := PI_RGT_0).
  unfold Rdiv. apply Rmult_le_compat_r.
  - left. apply Rinv_0_lt_compat. lra.
  - apply Rmult_le_compat_l; lra.
Qed.

Lemma ramp_decr r1 r2 lo hi :
  lo < hi -> lo <= r1 -> r1 <= r2 -> r2 <= hi ->
  0.5 + 0.5 * cos (PI * (r2 - lo) / (hi - lo))
  <= 0.5 + 0.5 * cos (PI * (r1 - lo) / (hi - lo)).
Proof.
  intros Hlt H1 H12 H2.
  destruct (ramp_arg_bounds r1 lo hi Hlt) as [A1 B1]; [lra|].
  destruct (ramp_arg_bounds r2 lo hi Hlt) as [A2 B2]; [lra|].
  assert (Hc := cos_decr_1 _ _ A1 B1 A2 B2 (ramp_arg_mono r1 r2 lo hi Hlt H12)).
  lra.
Qed.

Lemma ramp_end r lo hi :
  lo < hi -> r = hi -> 0.5 + 0.5 * cos (PI * (r - lo) / (hi - lo)) = 0.
Proof.
  intros Hlt ->. replace (PI * (hi - lo) / (hi - lo)) with PI by (field; lra).
  rewrite cos_PI. lra.
Qed.

Lemma ramp_start r lo hi :
  r = lo -> 0.5 + 0.5 * cos (PI * (r - lo) / (hi - lo)) = 1.
Proof.
  intros ->. replace (PI * (lo - lo) / (hi - lo)) with 0 by (unfold Rdiv; ring).
  rewrite cos_0. lra.
Qed.

Lemma filt_as_ramp x R : PI * x / R = PI * (x - 0) / (R - 0).
Proof. rewrite !Rminus_0_r. reflexivity. Qed.

Lemma get_filt_bounds (self : PASDWData) (r : vec) (g : nat) :
  0 < rcut_feat self -> 0 <= get_filt self r g <= 1.
Proof.
  intros HR. unfold get_filt. destruct (Rlt_dec _ _); [lra|apply half_cos_bounds].
Qed.

Lemma get_filt_one (self : PASDWData) (r : vec) (g : nat) :
  0 < rcut_feat self -> r g = 0 -> get_filt self r g = 1.
Proof.
  intros HR E. unfold get_filt. rewrite E. destruct (Rlt_dec _ _); [lra|].
  rewrite filt_as_ramp. apply ramp_start. reflexivity.
Qed.

Lemma get_filt_zero (self : PASDWData) (r : vec) (g : nat) :
  0 < rcut_feat self -> rcut_feat self <= r g -> get_filt self r g = 0.
Proof.
  intros HR Hge. unfold get_filt. destruct (Rlt_dec _ _) as [|Hn]; [reflexivity|].
  rewrite filt_as_ramp. apply ramp_end; lra.
Qed.

(** The filter of [PAugSetup.get_filt] lies between 0 and 1, is 1 at
    the origin, vanishes from [rcut_feat] on and never grows with the
    radius. *)
Theorem get_filt_profile (self : PASDWData) (r : vec) (g g' : nat) :
  0 < rcut_feat self ->
  0 <= get_filt self r g <= 1 /\
  (r g = 0 -> get_filt self r g = 1) /\
  (rcut_feat self <= r g -> get_filt self r g = 0) /\
  (0 <= r g -> r g <= r g' -> get_filt self r g' <= get_filt self r g).
Proof.
  intros HR. unfold get_filt. split; [|split; [|split]].
  - destruct (Rlt_dec _ _); [lra|apply half_cos_bounds].
  - intros ->. destruct (Rlt_dec _ _); [lra|].
    rewrite filt_as_ramp. apply ramp_start. reflexivity.
  - intros Hge. destruct (Rlt_dec _ _) as [|Hn]; [reflexivity|].
    rewrite filt_as_ramp. apply ramp_end; lra.
  - intros H0 Hle.
    destruct (Rlt_dec (rcut_feat self) (r g')) as [|Hn'].
    + destruct (Rlt_dec _ _); [lra|apply half_cos_bounds].
    + destruct (Rlt_dec (rcut_feat self) (r g)) as [|Hn]; [lra|].
      rewrite (filt_as_ramp (r g')), (filt_as_ramp (r g)). apply ramp_decr; lra.
Qed.

Lemma get_filt_profile_witness :
  0 <= get_filt data1 (fun _ => 0) O <= 1 /\
  get_filt data1 (fun _ => 0) O = 1.
Proof.
  assert (HR : 0 < rcut_feat data1) by (simpl; lra).
  destruct (get_filt_profile data1 (fun _ => 0) O O HR) as (Hb & H1 & _).
  split; [exact Hb|apply H1; reflexivity].
Defined.

(** [PAugSetup.get_fcut] is 1 up to [rcut_feat], lies between 0 and 1,
    vanishes from twice [rcut_feat] on and never grows with the radius. *)
Theorem get_fcut_profile (self : PASDWData) (r : vec) (g g' : nat) :
  0 < rcut_feat self ->
  0 <= get_fcut self r g <= 1 /\
  (r g <= rcut_feat self -> get_fcut self r g = 1) /\
  (2 * rcut_feat self <= r g -> get_fcut self r g = 0) /\
  (r g <= r g' -> get_fcut self r g' <= get_fcut self r g).
Proof.
  intros HR. unfold get_fcut. cbv zeta.
  set (R0 := rcut_feat self) in *.
  assert (Ea : forall x, PI * (x - R0) / R0 = PI * (x - R0) / (2 * R0 - R0)).
  { intros x. replace (2 * R0 - R0) with R0 by ring. reflexivity. }
  split; [|split; [|split]].
  - destruct (Rlt_dec _ _); [lra|].
    destruct (Rlt_dec _ _); [apply half_cos_bounds|lra].
  - intros Hle. destruct (Rlt_dec _ _); [lra|].
    destruct (Rlt_dec _ _); [lra|reflexivity].
  - intros Hge. destruct (Rlt_dec _ _) as [|Hn]; [reflexivity|].
    destruct (Rlt_dec _ _); [|lra].
    rewrite Ea. apply ramp_end; lra.
  - intros Hle.
    destruct (Rlt_dec (2 * R0) (r g')) as [|Hn'].
    + destruct (Rlt_dec _ _); [lra|].
      destruct (Rlt_dec _ _); [apply half_cos_bounds|lra].
    + destruct (Rlt_dec (2 * R0) (r g)) as [|Hn]; [lra|].
      destruct (Rlt_dec R0 (r g')) as [H'|H'].
      * destruct (Rlt_dec R0 (r g)) as [H|H].
        -- rewrite !Ea. apply ramp_decr; lra.
        -- apply half_cos_bounds.
      * destruct (Rlt_dec R0 (r g)); [lra|lra].
Qed.

Lemma get_fcut_profile_witness :
  get_fcut data1 (fun _ => 1) O = 1 /\ get_fcut data1 (fun _ => 4) O = 0.
Proof.
  assert (HR : 0 < rcut_feat data1) by (simpl; lra).
  split.
  - destruct (get_fcut_profile data1 (fun _ => 1) O O HR) as (_ & H1 & _).
    apply H1. simpl. lra.
  - destruct (get_fcut_profile data1 (fun _ => 4) O O HR) as (_ & _ & H0 & _).
    apply H0. simpl. lra.
Defined.

(** The cutoff of the feature and potential stages is 1 below [rcut],
    lies between 0 and 1, vanishes from [rmax] on and never grows with
    the radius; an array cut by it is unchanged inside [rcut], vanishes
    from [rmax] on and is nowhere larger in magnitude. *)
Theorem stage_fcut_profile (rcut rmax : R) (r : vec) (x : arr4) (g g' : nat) :
  rcut < rmax ->
  0 <= stage_fcut rcut rmax r g <= 1 /\
  (r g <= rcut -> stage_fcut rcut rmax r g = 1) /\
  (rmax <= r g -> stage_fcut rcut rmax r g = 0) /\
  (r g <= r g' -> stage_fcut rcut rmax r g' <= stage_fcut rcut rmax r g) /\
  (forall s L q,
     (r g <= rcut -> apply_fcut (stage_fcut rcut rmax r) x s g L q = x s g L q) /\
     (rmax <= r g -> apply_fcut (stage_fcut rcut rmax r) x s g L q = 0) /\
     Rabs (apply_fcut (stage_fcut rcut rmax r) x s g L q) <= Rabs (x s g L q)).
Proof.
  intros Hlt.
  assert (Hb : forall k, 0 <= stage_fcut rcut rmax r k <= 1).
  { intros k. unfold stage_fcut. destruct (Rlt_dec _ _); [lra|].
    destruct (Rlt_dec _ _); [lra|apply half_cos_bounds]. }
  assert (H1 : r g <= rcut -> stage_fcut rcut rmax r g = 1).
  { intros Hle. unfold stage_fcut. destruct (Rlt_dec _ _); [lra|].
    destruct (Rlt_dec _ _); [reflexivity|]. apply ramp_start. lra. }
  assert (H0 : rmax <= r g -> stage_fcut rcut rmax r g = 0).
  { intros Hge. unfold stage_fcut. destruct (Rlt_dec _ _); [reflexivity|].
    destruct (Rlt_dec _ _); [lra|]. apply ramp_end; lra. }
  split; [apply Hb|]. split; [exact H1|]. split; [exact H0|]. split.
  - intros Hle. unfold stage_fcut.
    destruct (Rlt_dec rmax (r g')) as [|Hn'].
    + destruct (Rlt_dec _ _); [lra|].
      destruct (Rlt_dec _ _); [lra|apply half_cos_bounds].
    + destruct (Rlt_dec rmax (r g)) as [|Hn]; [lra|].
      destruct (Rlt_dec (r g') rcut) as [H'|H'].
      * destruct (Rlt_dec (r g) rcut); [lra|lra].
      * destruct (Rlt_dec (r g) rcut) as [H|H].
        -- apply half_cos_bounds.
        -- apply ramp_decr; lra.
  - intros s L q. unfold apply_fcut. split; [|split].
    + intros Hle. rewrite (H1 Hle). ring.
    + intros Hge. rewrite (H0 Hge). ring.
    + rewrite Rabs_mult. rewrite (Rabs_right (stage_fcut rcut rmax r g)).
      * rewrite <- (Rmult_1_r (Rabs (x s g L q))) at 2.
        apply Rmult_le_compat_l; [apply Rabs_pos|apply Hb].
      * apply Rle_ge. apply Hb.
Qed.

Lemma stage_fcut_profile_witness :
  stage_fcut 1 2 (fun _ => 1) O = 1 /\ stage_fcut 1 2 (fun _ => 2) O = 0.
Proof.
  assert (Hlt : 1 < 2) by lra.
  split.
  - destruct (stage_fcut_profile 1 2 (fun _ => 1) (fun _ _ _ _ => 1) O O Hlt)
      as (_ & H1 & _).
    apply H1. lra.
  - destruct (stage_fcut_profile 1 2 (fun _ => 2) (fun _ _ _ _ => 1) O O Hlt)
      as (_ & _ & H0 & _).
    apply H0. lra.
Defined.

End CutoffFacts.

(** ** [PSmoothSetup]: the projections and their transposes *)

Module SmoothOpsFacts.

Import Py LA LAFacts Setups SmoothOps.

Local Open Scope R_scope.

(** Factors are moved into a sum, innermost sums first. *)
Ltac sum_in :=
  repeat first [ rewrite <- rsum_scal | rewrite <- rsum_scal_r ].

Ltac sum_ext := apply rsum_ext; intros ? _.

Tactic Notation "sum_ext" "as" ident(i) := apply rsum_ext; intros i _.

Lemma rsum_swap3 n m k (f : nat -> nat -> nat -> R) :
  rsum n (fun a => rsum m (fun b => rsum k (fun c => f a b c))) =
  rsum m (fun b => rsum k (fun c => rsum n (fun a => f a b c))).
Proof.
  rewrite rsum_swap. sum_ext. rewrite rsum_swap. reflexivity.
Qed.

Lemma rsum_swap4 n m k q (f : nat -> nat -> nat -> nat -> R) :
  rsum n (fun a => rsum m (fun b => rsum k (fun c => rsum q (fun d => f a b c d)))) =
  rsum k (fun c => rsum q (fun d => rsum n (fun a => rsum m (fun b => f a b c d)))).
Proof.
  rewrite (rsum_swap3 n m k (fun a b c => rsum q (fun d => f a b c d))).
  rewrite (rsum_swap3 m k n (fun b c a => rsum q (fun d => f a b c d))).
  apply rsum_ext; intros c _.
  rewrite (rsum_swap3 n m q (fun a b d => f a b c d)).
  rewrite (rsum_swap3 m q n (fun b d a => f a b c d)).
  reflexivity.
Qed.

Lemma b1_vb1_dot (NPn nb ng : nat) (B F : mat) (delta : mat) (dv w : vec) :
  dot2 NPn nb B (fun p b => rsum ng (fun g => F b g * delta p g * dv g) * w b) =
  dot2 nb ng (fun b g => rsum NPn (fun p => B p b * delta p g) * w b)
    (fun b g => F b g * dv g).
Proof.
  unfold dot2.
  transitivity (rsum NPn (fun p => rsum nb (fun b => rsum ng (fun g =>
                  B p b * F b g * delta p g * dv g * w b)))).
  { sum_ext. sum_ext. sum_in. sum_ext. ring. }
  rewrite rsum_swap3. sum_ext. sum_ext. sum_in. sum_ext. ring.
Qed.

Lemma b2_vb2_dot (nc na nb ng : nat) (B F : mat) (phi : arr4) (dv w : vec) :
  dot2 nc na B (fun j a => rsum nb (fun b => rsum ng (fun g =>
                  F b g * phi j a b g * w b * dv g))) =
  dot2 nb ng (fun b g => rsum nc (fun j => rsum na (fun a =>
                  B j a * phi j a b g)) * w b)
    (fun b g => F b g * dv g).
Proof.
  unfold dot2.
  transitivity (rsum nc (fun j => rsum na (fun a => rsum nb (fun b =>
                  rsum ng (fun g => B j a * F b g * phi j a b g * w b * dv g))))).
  { sum_ext. sum_ext. sum_in. sum_ext. sum_in. sum_ext. ring. }
  rewrite rsum_swap4. sum_ext. sum_ext. sum_in. sum_ext. sum_in. sum_ext. ring.
Qed.

Lemma rsum_split a b (f : nat -> R) :
  rsum (a + b) f = rsum a f + rsum b (fun t => f (a + t)%nat).
Proof.
  induction b as [|b IH].
  - rewrite Nat.add_0_r. simpl. ring.
  - replace (a + S b)%nat with (S (a + b)) by lia. simpl. rewrite IH. ring.
Qed.

Lemma rsum_rows m n (g : nat -> R) :
  rsum (m * n) g = rsum m (fun r => rsum n (fun c => g (r * n + c)%nat)).
Proof.
  induction m as [|m IH]; [reflexivity|].
  replace (S m * n)%nat with (m * n + n)%nat by lia.
  rewrite rsum_split, IH. reflexivity.
Qed.

Lemma sym_sym A i j : sym A i j = sym A j i.
Proof.
  unfold sym. destruct (Nat.leb_spec i j), (Nat.leb_spec j i); try reflexivity; try lia.
  replace j with i by lia. reflexivity.
Qed.

(** [cho_solve] with the factor of a symmetric matrix is a symmetric
    operator. *)
Lemma cho_solve_sym n A F (u v : vec) :
  fsize F = n -> is_cholesky n A (fU F) ->
  rsum n (fun i => u i * cho_solve F v i) = rsum n (fun i => cho_solve F u i * v i).
Proof.
  intros Hn HC.
  set (a := cho_solve F u). set (b := cho_solve F v).
  transitivity (rsum n (fun i => rsum n (fun j => sym A i j * a j * b i))).
  { apply rsum_ext. intros i Hi.
    rewrite <- (cho_solve_correct n A F u Hn HC i Hi). fold a.
    sum_in. sum_ext. ring. }
  rewrite rsum_swap. apply rsum_ext. intros i Hi.
  rewrite <- (cho_solve_correct n A F v Hn HC i Hi). fold b.
  sum_in. sum_ext. rewrite (sym_sym A i). ring.
Qed.

Lemma filter_bool {A} (f : A -> bool) (l : list A) :
  filter (fun x => f x) l = List.filter f l.
Proof.
  induction l as [|a l IH]; [reflexivity|].
  rewrite filter_cons. simpl. rewrite IH.
  destruct (decide (f a)) as [H|H]; destruct (f a); simpl in H; try reflexivity;
    contradiction.
Qed.

Lemma mask_rows_snoc lm x L :
  mask_rows (lm ++ [x]) L =
  mask_rows lm L ++ (if Nat.eqb x L then [length lm] else []).
Proof.
  unfold mask_rows. rewrite !filter_bool. rewrite length_app. simpl length.
  rewrite seq_app, List.filter_app. simpl.
  f_equal.
  - apply List.filter_ext_in. intros i Hi. apply in_seq in Hi.
    unfold itemn. rewrite app_nth1 by lia. reflexivity.
  - unfold itemn. rewrite app_nth2 by lia. rewrite Nat.sub_diag. simpl.
    reflexivity.
Qed.

Lemma mask_rank_snoc lm x L i :
  (i <= length lm)%nat -> mask_rank (lm ++ [x]) L i = mask_rank lm L i.
Proof.
  intros Hi. unfold mask_rank. rewrite firstn_app.
  replace (i - length lm)%nat with O by lia. simpl. rewrite app_nil_r. reflexivity.
Qed.

Lemma mask_rows_length lm L :
  length (mask_rows lm L) = mask_rank lm L (length lm).
Proof.
  induction lm as [|x lm IH] using rev_ind; [reflexivity|].
  rewrite mask_rows_snoc, length_app, IH.
  unfold mask_rank. rewrite !firstn_all. rewrite !filter_bool.
  rewrite List.filter_app, length_app. simpl.
  destruct (Nat.eqb x L); reflexivity.
Qed.

(** A sum over the rows a mask selects, by position among them. *)
Lemma mask_sum lm L (f : nat -> nat -> R) :
  rsum (length lm) (fun i =>
    if Nat.eqb (itemn lm i) L then f i (mask_rank lm L i) else 0)
  = rsum (length (mask_rows lm L)) (fun k => f (nth k (mask_rows lm L) O) k).
Proof.
  induction lm as [|x lm IH] using rev_ind; [reflexivity|].
  rewrite length_app. simpl length. rewrite Nat.add_1_r. cbn [rsum].
  rewrite (rsum_ext (length lm) _
             (fun i => if Nat.eqb (itemn lm i) L then f i (mask_rank lm L i) else 0)).
  2:{ intros i Hi. unfold itemn. rewrite app_nth1 by lia.
      rewrite mask_rank_snoc by lia. reflexivity. }
  rewrite IH. rewrite mask_rows_snoc.
  unfold itemn at 1. rewrite app_nth2 by lia. rewrite Nat.sub_diag. cbn [nth].
  rewrite mask_rank_snoc by lia. rewrite <- mask_rows_length.
  destruct (Nat.eqb x L).
  - rewrite length_app. simpl length. rewrite Nat.add_1_r. cbn [rsum].
    rewrite app_nth2 by lia. rewrite Nat.sub_diag. cbn [nth].
    f_equal. apply rsum_ext. intros k Hk. rewrite app_nth1 by lia. reflexivity.
  - rewrite app_nil_r. ring.
Qed.

(** The four back-projections are the transposes of the four
    projections: for every field [F] on [nb] exponents and [ng] grid
    points and all coefficient arrays [B1], [B2], the sum of [B1] times
    [get_b1_pb(F)] equals the quadrature-weighted sum of [get_vb1_pb(B1)]
    times [F], and likewise for [get_b2_ja] with [get_vb2_ja], and for
    the reciprocal-space pairs with the weights [get_dvk]. *)
Theorem vb_transposes_b (E : fit_ext) (self : PSmoothSetup) (nb ng : nat)
    (F B1 B2 : mat) (l : nat) (rgd : rgd_t) :
  dot2 (NP self) nb B1 (get_b1_pb E self ng F l rgd)
  = dot2 nb ng (get_vb1_pb self B1 l) (fun b g => F b g * get_dv E rgd g) /\
  dot2 (chan_size self l) (Nalpha_sm self) B2 (get_b2_ja E self nb ng F l rgd)
  = dot2 nb ng (get_vb2_ja self B2 l) (fun b g => F b g * get_dv E rgd g) /\
  dot2 (NP self) nb B1 (get_b1_pb_recip E self ng F l rgd)
  = dot2 nb ng (get_vb1_pb_recip self B1 l) (fun b g => F b g * get_dvk E rgd g) /\
  dot2 (chan_size self l) (Nalpha_sm self) B2 (get_b2_ja_recip E self nb ng F l rgd)
  = dot2 nb ng (get_vb2_ja_recip self B2 l) (fun b g => F b g * get_dvk E rgd g).
Proof.
  split; [|split; [|split]].
  - exact (b1_vb1_dot (NP self) nb ng B1 F (delta_lpg self l) (get_dv E rgd)
             (item (w_b self))).
  - exact (b2_vb2_dot (chan_size self l) (Nalpha_sm self) nb ng B2 F
             (fun j a b g => phi_jabg self (chan_off self l + j)%nat a b g)
             (get_dv E rgd) (item (w_b self))).
  - exact (b1_vb1_dot (NP self) nb ng B1 F (delta_lpk self l) (get_dvk E rgd)
             (item (w_b self))).
  - exact (b2_vb2_dot (chan_size self l) (Nalpha_sm self) nb ng B2 F
             (fun j a b g => phi_jabk self (chan_off self l + j)%nat a b g)
             (get_dvk E rgd) (item (w_b self))).
Qed.

(** *** [get_v_from_c_and_df] is the transpose of [get_c_and_df] *)

Lemma in_c_and_df_loops nspin lmax s l L :
  In (s, l, L) (c_and_df_loops nspin lmax) ->
  (s < nspin)%nat /\ (l <= lmax)%nat /\ (l * l <= L < l * l + (2 * l + 1))%nat.
Proof.
  unfold c_and_df_loops. intros H.
  apply in_flat_map in H. destruct H as (s0 & Hs & H).
  apply in_flat_map in H. destruct H as (l0 & Hl & H).
  apply in_map_iff in H. destruct H as (L0 & HE & HL).
  injection HE as -> -> ->.
  apply in_seq in Hs. apply in_seq in Hl. apply in_seq in HL. lia.
Qed.

Lemma dot3_plus A B C (V x y z : arr3) :
  (forall a b c, z a b c = x a b c + y a b c) ->
  dot3 A B C V z = dot3 A B C V x + dot3 A B C V y.
Proof.
  intros H. unfold dot3. rewrite <- rsum_plus. sum_ext.
  rewrite <- rsum_plus. sum_ext. rewrite <- rsum_plus. sum_ext.
  rewrite H. ring.
Qed.

Lemma dot4_plus A B C D (V x y z : arr4) :
  (forall a b c d, z a b c d = x a b c d + y a b c d) ->
  dot4 A B C D V z = dot4 A B C D V x + dot4 A B C D V y.
Proof.
  intros H. unfold dot4. rewrite <- rsum_plus. sum_ext.
  rewrite <- rsum_plus. sum_ext. rewrite <- rsum_plus. sum_ext.
  rewrite <- rsum_plus. sum_ext. rewrite H. ring.
Qed.

Lemma dot4_comm A B C D (x y : arr4) : dot4 A B C D x y = dot4 A B C D y x.
Proof. unfold dot4. sum_ext. sum_ext. sum_ext. sum_ext. ring. Qed.

Lemma dot3_zero A B C (V : arr3) : dot3 A B C V (fun _ _ _ => 0) = 0.
Proof.
  unfold dot3. apply rsum_zero. intros a _. apply rsum_zero. intros b _.
  apply rsum_zero. intros c _. ring.
Qed.

Lemma dot4_zero A B C D (V : arr4) : dot4 A B C D V (fun _ _ _ _ => 0) = 0.
Proof.
  unfold dot4. apply rsum_zero. intros a _. apply rsum_zero. intros b _.
  apply rsum_zero. intros c _. apply rsum_zero. intros d _. ring.
Qed.

Local Abbreviation zero3 := (fun _ _ _ : nat => 0).
Local Abbreviation zero4 := (fun _ _ _ _ : nat => 0).

(** A step adds to the accumulators what it adds to empty ones. *)
Lemma c_step_affine E self y rs (acc : arr3 * arr4) k :
  (forall s i q,
     fst (c_and_df_step E self y rs acc k) s i q =
     fst acc s i q + fst (c_and_df_step E self y rs (zero3, zero4) k) s i q) /\
  (forall s L p q,
     snd (c_and_df_step E self y rs acc k) s L p q =
     snd acc s L p q + snd (c_and_df_step E self y rs (zero3, zero4) k) s L p q).
Proof.
  destruct k as [[s0 l] L0]. destruct acc as [c df].
  unfold c_and_df_step. cbn [fst snd]. split.
  - intros s i q. destruct (_ && _); ring.
  - intros s L p q. destruct (_ && _); ring.
Qed.

Lemma v_step_affine self vc vdf rs (acc : arr4) k :
  forall s b L g,
    v_step self vc vdf rs acc k s b L g =
    acc s b L g + v_step self vc vdf rs zero4 k s b L g.
Proof.
  destruct k as [[s0 l] L0]. intros s b L g.
  unfold v_step, add4. destruct (_ && _); ring.
Qed.

Lemma rsum_pick n k (f : nat -> R) :
  (k < n)%nat -> rsum n (fun i => if Nat.eqb i k then f i else 0) = f k.
Proof.
  intros Hk. rewrite (rsum_single n k).
  - rewrite Nat.eqb_refl. reflexivity.
  - exact Hk.
  - intros i _ Hne. destruct (Nat.eqb_spec i k); [contradiction|reflexivity].
Qed.

Lemma dot3_ext A B C (V x x' : arr3) :
  (forall a b c, x a b c = x' a b c) -> dot3 A B C V x = dot3 A B C V x'.
Proof. intros H. unfold dot3. sum_ext. sum_ext. sum_ext. rewrite H. reflexivity. Qed.

Lemma dot4_ext A B C D (V x x' : arr4) :
  (forall a b c d, x a b c d = x' a b c d) -> dot4 A B C D V x = dot4 A B C D V x'.
Proof.
  intros H. unfold dot4. sum_ext. sum_ext. sum_ext. sum_ext. rewrite H. reflexivity.
Qed.

(** The sums against an array that is zero off one [(s, L)]. *)
Lemma dot4_pick01 A B C D (V : arr4) (T : mat) s L :
  (s < A)%nat -> (L < B)%nat ->
  dot4 A B C D V (fun a b c d => if Nat.eqb a s && Nat.eqb b L then T c d else 0)
  = dot2 C D (V s L) T.
Proof.
  intros Hs HL. unfold dot4, dot2.
  rewrite <- (rsum_pick A s (fun a => rsum C (fun c => rsum D (fun d =>
                 V a L c d * T c d))) Hs).
  sum_ext as x. destruct (Nat.eqb_spec x s) as [->|Hne]; cbn [andb].
  - rewrite <- (rsum_pick B L (fun b => rsum C (fun c => rsum D (fun d =>
                   V s b c d * T c d))) HL).
    sum_ext as x. destruct (Nat.eqb x L).
    + reflexivity.
    + apply rsum_zero. intros c _. apply rsum_zero. intros d _. ring.
  - apply rsum_zero. intros b _. apply rsum_zero. intros c _.
    apply rsum_zero. intros d _. ring.
Qed.

Lemma dot4_pick02 A B C D (T : mat) (W : arr4) s L :
  (s < A)%nat -> (L < C)%nat ->
  dot4 A B C D (fun a b c d => if Nat.eqb a s && Nat.eqb c L then T b d else 0) W
  = dot2 B D T (fun b d => W s b L d).
Proof.
  intros Hs HL. unfold dot4, dot2.
  rewrite <- (rsum_pick A s (fun a => rsum B (fun b => rsum D (fun d =>
                 T b d * W a b L d))) Hs).
  sum_ext as x. destruct (Nat.eqb_spec x s) as [->|Hne]; cbn [andb].
  - sum_ext as x.
    rewrite <- (rsum_pick C L (fun c => rsum D (fun d => T x d * W s x c d)) HL).
    sum_ext as x0. destruct (Nat.eqb x0 L).
    + reflexivity.
    + apply rsum_zero. intros d _. ring.
  - apply rsum_zero. intros b _. apply rsum_zero. intros c _.
    apply rsum_zero. intros d _. ring.
Qed.

Lemma dot3_pick0 A B C (V : arr3) (m : nat -> bool) (T : mat) s :
  (s < A)%nat ->
  dot3 A B C V (fun a b c => if Nat.eqb a s && m b then T b c else 0)
  = rsum B (fun b => if m b then rsum C (fun c => V s b c * T b c) else 0).
Proof.
  intros Hs. unfold dot3.
  rewrite <- (rsum_pick A s (fun a => rsum B (fun b =>
                 if m b then rsum C (fun c => V a b c * T b c) else 0)) Hs).
  sum_ext as x. destruct (Nat.eqb_spec x s) as [->|Hne]; cbn [andb].
  - sum_ext as x. destruct (m x).
    + reflexivity.
    + apply rsum_zero. intros c _. ring.
  - apply rsum_zero. intros b _. apply rsum_zero. intros c _. ring.
Qed.

Lemma flat_index r n c : (c < n)%nat ->
  ((r * n + c) / n = r)%nat /\ ((r * n + c) mod n = c)%nat.
Proof.
  intros Hc. split.
  - rewrite Nat.div_add_l by lia. rewrite Nat.div_small by lia. lia.
  - rewrite Nat.add_comm, Nat.Div0.mod_add. apply Nat.mod_small. exact Hc.
Qed.

Section Key.
Variables (E : fit_ext) (self : PSmoothSetup) (y : shaped4) (vc : shaped3)
  (vdf : shaped4) (rs : bool).
Hypothesis HS : solve_shapes self (dim1 y).
Hypothesis HT : transposed_shapes self y vc vdf.

Lemma key_lhs s l L :
  (s < dim0 y)%nat -> (l <= lmax (ps_data self))%nat ->
  (l * l <= L < l * l + (2 * l + 1))%nat ->
  dot3 (d3_0 vc) (d3_1 vc) (d3_2 vc) (data3 vc)
    (fst (c_and_df_step E self y rs (fun _ _ _ => 0, fun _ _ _ _ => 0) (s, l, L)))
  + dot4 (dim0 vdf) (dim1 vdf) (dim2 vdf) (dim3 vdf) (data4 vdf)
      (snd (c_and_df_step E self y rs (fun _ _ _ => 0, fun _ _ _ _ => 0) (s, l, L)))
  = rsum (fsize (stored_factor self l)) (fun t =>
      v_rhs self vc vdf s L t
      * cho_solve (stored_factor self l) (c_rhs E self y rs s l L) t).
Proof.
  intros Hs Hl HL.
  destruct HT as (T0 & T1 & T2 & T3 & T4 & T5 & T6 & T7 & T8).
  destruct (sizes_ok _ _ HS l L Hl HL) as [Hcnt Hsize].
  rewrite Hsize, rsum_split.
  set (x := cho_solve (stored_factor self l) (c_rhs E self y rs s l L)).
  assert (HLm : (L < dim1 vdf)%nat) by nia.
  rewrite Rplus_comm. f_equal.
  - unfold c_and_df_step. cbn [snd].
    fold (Nalpha_sm self). fold (c_rhs E self y rs s l L). fold x.
    rewrite (dot4_ext _ _ _ _ _ _
               (fun s' L' p q => if Nat.eqb s' s && Nat.eqb L' L
                                 then reshape (dim1 y) x p q else 0))
      by (intros; destruct (_ && _); ring).
    rewrite dot4_pick01 by lia.
    unfold dot2. rewrite T2, T3, rsum_rows.
    apply rsum_ext; intros p Hp. apply rsum_ext; intros q Hq.
    unfold v_rhs, cat_b_vecs, flatten, reshape. rewrite T2, T3.
    destruct (flat_index p (dim1 y) q Hq) as [-> ->].
    destruct (Nat.ltb_spec (p * dim1 y + q) (NP self * dim1 y)); [reflexivity|nia].
  - unfold c_and_df_step. cbn [fst].
    fold (Nalpha_sm self). fold (c_rhs E self y rs s l L). fold x.
    set (lm := lmlist_i (ps_data self)) in *.
    set (N1 := (NP self * dim1 y)%nat).
    set (f := fun i k : nat => rsum (Nalpha_sm self) (fun q =>
                data3 vc s i q * x (N1 + (k * Nalpha_sm self + q))%nat)).
    rewrite (dot3_ext _ _ _ _ _
               (fun s' i q =>
                  if Nat.eqb s' s && (Nat.ltb i (length lm) && Nat.eqb (itemn lm i) L)
                  then reshape (Nalpha_sm self) (fun t => x (N1 + t)%nat)
                         (mask_rank lm L i) q
                  else 0))
      by (intros; rewrite <- andb_assoc; destruct (_ && _); ring).
    rewrite (dot3_pick0 _ _ _ _
               (fun i => Nat.ltb i (length lm) && Nat.eqb (itemn lm i) L)) by lia.
    rewrite T5, T6.
    rewrite (rsum_ext (length lm) _
               (fun i => if Nat.eqb (itemn lm i) L then f i (mask_rank lm L i) else 0)).
    2:{ intros i Hi. destruct (Nat.ltb_spec i (length lm)); [|lia]. reflexivity. }
    rewrite mask_sum, Hcnt, rsum_rows.
    apply rsum_ext; intros k Hk. unfold f. apply rsum_ext; intros q Hq.
    unfold v_rhs, cat_b_vecs. rewrite T2, T3, T6. fold N1.
    destruct (Nat.ltb_spec (N1 + (k * Nalpha_sm self + q)) N1); [lia|].
    replace (N1 + (k * Nalpha_sm self + q) - N1)%nat
      with (k * Nalpha_sm self + q)%nat by lia.
    destruct (flat_index k (Nalpha_sm self) q Hq) as [-> ->]. reflexivity.
Qed.

Lemma key_rhs s l L :
  (s < dim0 y)%nat -> (l <= lmax (ps_data self))%nat ->
  (l * l <= L < l * l + (2 * l + 1))%nat ->
  dot4 (dim0 y) (dim1 y) (dim2 y) (dim3 y)
    (v_step self vc vdf rs (fun _ _ _ _ => 0) (s, l, L))
    (fun s' b L' g => data4 y s' b L' g * solve_dv E self rs g)
  = rsum (fsize (stored_factor self l)) (fun t =>
      cho_solve (stored_factor self l) (v_rhs self vc vdf s L) t
      * c_rhs E self y rs s l L t).
Proof.
  intros Hs Hl HL.
  destruct HT as (T0 & T1 & T2 & T3 & T4 & T5 & T6 & T7 & T8).
  destruct (sizes_ok _ _ HS l L Hl HL) as [Hcnt Hsize].
  rewrite Hsize, rsum_split.
  set (bb := cho_solve (stored_factor self l) (v_rhs self vc vdf s L)).
  assert (HLm : (L < dim2 y)%nat) by nia.
  unfold v_step. fold bb. rewrite T2, T3.
  set (N1 := (NP self * dim1 y)%nat).
  set (B1 := reshape (dim1 y) bb).
  set (B2 := reshape (Nalpha_sm self) (fun t => bb (N1 + t)%nat)).
  set (v1 := if rs then get_vb1_pb self B1 l else get_vb1_pb_recip self B1 l).
  set (v2 := if rs then get_vb2_ja self B2 l else get_vb2_ja_recip self B2 l).
  set (F := fun b g : nat => data4 y s b L g).
  rewrite dot4_comm.
  rewrite (dot4_ext _ _ _ _ _ _
             (fun s' b L' g => if Nat.eqb s' s && Nat.eqb L' L
                               then v1 b g + v2 b g else 0))
    by (intros; unfold add4; destruct (_ && _); ring).
  rewrite dot4_comm, dot4_pick02 by lia.
  transitivity (dot2 (dim1 y) (dim3 y) v1 (fun b g => F b g * solve_dv E self rs g)
                + dot2 (dim1 y) (dim3 y) v2 (fun b g => F b g * solve_dv E self rs g)).
  { unfold dot2. rewrite <- rsum_plus. sum_ext. rewrite <- rsum_plus. sum_ext.
    unfold F. ring. }
  set (rgd := sbt_rgd (ps_data self)).
  f_equal.
  - set (b1 := if rs then get_b1_pb E self (dim3 y) F l rgd
               else get_b1_pb_recip E self (dim3 y) F l rgd).
    transitivity (dot2 (NP self) (dim1 y) B1 b1).
    + unfold v1, b1, solve_dv. fold rgd. destruct rs; symmetry.
      * exact (b1_vb1_dot (NP self) (dim1 y) (dim3 y) B1 F (delta_lpg self l)
                 (get_dv E rgd) (item (w_b self))).
      * exact (b1_vb1_dot (NP self) (dim1 y) (dim3 y) B1 F (delta_lpk self l)
                 (get_dvk E rgd) (item (w_b self))).
    + unfold dot2. unfold N1 at 1. rewrite rsum_rows.
      apply rsum_ext; intros p Hp. apply rsum_ext; intros q Hq.
      unfold B1, reshape. f_equal.
      unfold c_rhs, cat_b_vecs, flatten. fold N1 F rgd b1.
      destruct (Nat.ltb_spec (p * dim1 y + q) N1); [|unfold N1 in *; nia].
      destruct (flat_index p (dim1 y) q Hq) as [-> ->]. reflexivity.
  - set (b2 := if rs then get_b2_ja E self (dim1 y) (dim3 y) F l rgd
               else get_b2_ja_recip E self (dim1 y) (dim3 y) F l rgd).
    transitivity (dot2 (chan_size self l) (Nalpha_sm self) B2 b2).
    + unfold v2, b2, solve_dv. fold rgd. destruct rs; symmetry.
      * exact (b2_vb2_dot (chan_size self l) (Nalpha_sm self) (dim1 y) (dim3 y)
                 B2 F (fun j a b g => phi_jabg self (chan_off self l + j)%nat a b g)
                 (get_dv E rgd) (item (w_b self))).
      * exact (b2_vb2_dot (chan_size self l) (Nalpha_sm self) (dim1 y) (dim3 y)
                 B2 F (fun j a b g => phi_jabk self (chan_off self l + j)%nat a b g)
                 (get_dvk E rgd) (item (w_b self))).
    + unfold dot2. rewrite rsum_rows.
      apply rsum_ext; intros k Hk. apply rsum_ext; intros q Hq.
      unfold B2, reshape. f_equal.
      unfold c_rhs, cat_b_vecs, flatten. fold N1 F rgd b2.
      destruct (Nat.ltb_spec (N1 + (k * Nalpha_sm self + q)) N1); [lia|].
      replace (N1 + (k * Nalpha_sm self + q) - N1)%nat
        with (k * Nalpha_sm self + q)%nat by lia.
      destruct (flat_index k (Nalpha_sm self) q Hq) as [-> ->]. reflexivity.
Qed.

Lemma key_transpose s l L :
  (s < dim0 y)%nat -> (l <= lmax (ps_data self))%nat ->
  (l * l <= L < l * l + (2 * l + 1))%nat ->
  dot3 (d3_0 vc) (d3_1 vc) (d3_2 vc) (data3 vc)
    (fst (c_and_df_step E self y rs (fun _ _ _ => 0, fun _ _ _ _ => 0) (s, l, L)))
  + dot4 (dim0 vdf) (dim1 vdf) (dim2 vdf) (dim3 vdf) (data4 vdf)
      (snd (c_and_df_step E self y rs (fun _ _ _ => 0, fun _ _ _ _ => 0) (s, l, L)))
  = dot4 (dim0 y) (dim1 y) (dim2 y) (dim3 y)
      (v_step self vc vdf rs (fun _ _ _ _ => 0) (s, l, L))
      (fun s' b L' g => data4 y s' b L' g * solve_dv E self rs g).
Proof.
  intros Hs Hl HL. rewrite (key_lhs s l L Hs Hl HL), (key_rhs s l L Hs Hl HL).
  destruct (factors_ok _ _ HS l Hl) as [A HA].
  apply (cho_solve_sym _ A); [reflexivity|exact HA].
Qed.

Lemma fold_transpose ks :
  (forall s l L, In (s, l, L) ks ->
     (s < dim0 y)%nat /\ (l <= lmax (ps_data self))%nat /\
     (l * l <= L < l * l + (2 * l + 1))%nat) ->
  forall (acc : arr3 * arr4) (accv : arr4),
    dot3 (d3_0 vc) (d3_1 vc) (d3_2 vc) (data3 vc) (fst acc)
    + dot4 (dim0 vdf) (dim1 vdf) (dim2 vdf) (dim3 vdf) (data4 vdf) (snd acc)
    = dot4 (dim0 y) (dim1 y) (dim2 y) (dim3 y) accv
        (fun s' b L' g => data4 y s' b L' g * solve_dv E self rs g) ->
    dot3 (d3_0 vc) (d3_1 vc) (d3_2 vc) (data3 vc)
      (fst (fold_left (c_and_df_step E self y rs) ks acc))
    + dot4 (dim0 vdf) (dim1 vdf) (dim2 vdf) (dim3 vdf) (data4 vdf)
        (snd (fold_left (c_and_df_step E self y rs) ks acc))
    = dot4 (dim0 y) (dim1 y) (dim2 y) (dim3 y)
        (fold_left (v_step self vc vdf rs) ks accv)
        (fun s' b L' g => data4 y s' b L' g * solve_dv E self rs g).
Proof.
  induction ks as [|k ks IH]; intros Hks acc accv H; [exact H|].
  cbn [fold_left]. apply IH.
  { intros s l L Hin. apply Hks. right. exact Hin. }
  destruct (c_step_affine E self y rs acc k) as [Hc Hd].
  rewrite (dot3_plus _ _ _ _ _ _ _ Hc), (dot4_plus _ _ _ _ _ _ _ _ Hd).
  rewrite (dot4_comm _ _ _ _ (v_step self vc vdf rs accv k)).
  rewrite (dot4_plus _ _ _ _ _ _ _ _ (v_step_affine self vc vdf rs accv k)).
  rewrite !(dot4_comm _ _ _ _ (fun s' b L' g => data4 y s' b L' g * _)).
  destruct k as [[s l] L].
  destruct (Hks s l L (or_introl eq_refl)) as (Hs & Hl & HL).
  rewrite <- (key_transpose s l L Hs Hl HL). lra.
Qed.

End Key.

(** [get_v_from_c_and_df] is the transpose of [get_c_and_df]: on a
    setup whose stored factors are Cholesky factors of the right order,
    and for arrays of matching shapes, the sum of [vc_sib] times the
    coefficients [c_sib] plus the sum of [vdf_sLpb] times [df_sLpb]
    that [get_c_and_df] returns for [y] equals the quadrature-weighted
    sum of [get_v_from_c_and_df(vc_sib, vdf_sLpb)] times [y], in both
    modes. *)
Theorem v_transposes_c_and_df (E : fit_ext) (self : PSmoothSetup) (y : shaped4)
    (vc : shaped3) (vdf : shaped4) (realspace : bool) :
  solve_shapes self (dim1 y) -> transposed_shapes self y vc vdf ->
  let c_df := get_c_and_df E self y realspace in
  let vy := get_v_from_c_and_df self vc vdf realspace in
  dot3 (d3_0 vc) (d3_1 vc) (d3_2 vc) (data3 vc) (fst c_df)
  + dot4 (dim0 vdf) (dim1 vdf) (dim2 vdf) (dim3 vdf) (data4 vdf) (snd c_df)
  = dot4 (dim0 vy) (dim1 vy) (dim2 vy) (dim3 vy) (data4 vy)
      (fun s b L g => data4 y s b L g * solve_dv E self realspace g).
Proof.
  intros HS HT c_df vy. unfold c_df, vy, get_c_and_df, get_v_from_c_and_df.
  cbn [dim0 dim1 dim2 dim3 data4].
  pose proof HT as (T0 & T1 & T2 & T3 & T4 & T5 & T6 & T7 & T8).
  rewrite <- T7.
  replace (dot4 (dim0 vdf) (dim3 vdf) (dim1 vdf) (dim3 y))
    with (dot4 (dim0 y) (dim1 y) (dim2 y) (dim3 y))
    by (rewrite T0, T1, T3; reflexivity).
  replace (c_and_df_loops (dim0 vdf) (lmax (ps_data self)))
    with (c_and_df_loops (dim0 y) (lmax (ps_data self)))
    by (rewrite T0; reflexivity).
  apply (fold_transpose E self y vc vdf realspace HS HT).
  - intros s l L Hin. apply in_c_and_df_loops in Hin. exact Hin.
  - cbn [fst snd]. rewrite dot3_zero, dot4_zero, dot4_comm, dot4_zero. ring.
Qed.


Lemma identity_is_cholesky_2 : is_cholesky 2 identity identity.
Proof.
  split.
  - intros i j H. unfold identity. destruct (Nat.eqb_spec i j); [lia|reflexivity].
  - intros i _. unfold identity. rewrite Nat.eqb_refl. lra.
  - intros i j Hij Hi. unfold identity.
    destruct i as [|[|i]]; [| |lia]; cbn [rsum Nat.eqb].
    + destruct j; ring.
    + destruct j as [|[|j]]; cbn [Nat.eqb]; ring.
Qed.

Lemma smooth1_solve_shapes : solve_shapes smooth1 1.
Proof.
  split.
  - intros l Hl. cbn in Hl. assert (l = O) by lia. subst l.
    exists identity. exact identity_is_cholesky_2.
  - intros l L Hl HL. cbn in Hl. assert (l = O) by lia. subst l.
    assert (L = O) by lia. subst L. split; reflexivity.
Qed.

Lemma smooth1_transposed_shapes : transposed_shapes smooth1 field1 vc1 field2.
Proof. unfold transposed_shapes. cbn. repeat split; lia. Qed.

(** The theorem on the one-function setup. *)
Lemma v_transposes_c_and_df_witness :
  let c_df := get_c_and_df fit1 smooth1 field1 true in
  let vy := get_v_from_c_and_df smooth1 vc1 field2 true in
  dot3 1 1 1 (data3 vc1) (fst c_df) + dot4 1 1 1 1 (data4 field2) (snd c_df)
  = dot4 1 1 1 1 (data4 vy)
      (fun s b L g => data4 field1 s b L g * solve_dv fit1 smooth1 true g).
Proof.
  exact (v_transposes_c_and_df fit1 smooth1 field1 vc1 field2 true
           smooth1_solve_shapes smooth1_transposed_shapes).
Defined.

End SmoothOpsFacts.

(** ** [PSmoothSetup]: the contributions and their transposes *)

Module ContribFacts.

Import Py LA LAFacts Setups SmoothOps SmoothOpsFacts.

Local Open Scope R_scope.

(** A guarded loop returns when every key passes its guard, with the
    result of the loop without guards, and raises at the first key
    that does not. *)
Lemma for_res_guard_ok {K A} (ok : K -> bool) (err : K -> pyerr)
    (step : A -> K -> A) ks : forall acc,
  forallb ok ks = true ->
  for_res (fun a k => if ok k then Ok (step a k) else Raise (err k)) ks acc
  = Ok (fold_left step ks acc).
Proof.
  induction ks as [|k ks IH]; intros acc H; [reflexivity|].
  simpl in H. apply andb_prop in H. destruct H as [Hk Hks].
  simpl. rewrite Hk. apply IH, Hks.
Qed.

Lemma for_res_guard_inv {K A} (ok : K -> bool) (err : K -> pyerr)
    (step : A -> K -> A) ks : forall acc out,
  for_res (fun a k => if ok k then Ok (step a k) else Raise (err k)) ks acc = Ok out ->
  forallb ok ks = true /\ out = fold_left step ks acc.
Proof.
  induction ks as [|k ks IH]; intros acc out H; simpl in H.
  - injection H as <-. split; reflexivity.
  - destruct (ok k) eqn:Hk; [|discriminate].
    destruct (IH _ _ H) as [H1 H2]. simpl. rewrite Hk. split; assumption.
Qed.

Lemma for_res_guard_fail {K A} (ok : K -> bool) (err : K -> pyerr)
    (step : A -> K -> A) ks : forall acc,
  forallb ok ks = false ->
  exists k, In k ks /\ ok k = false /\
    for_res (fun a k => if ok k then Ok (step a k) else Raise (err k)) ks acc
    = Raise (err k).
Proof.
  induction ks as [|k ks IH]; intros acc H; simpl in H; [discriminate|].
  destruct (ok k) eqn:Hk.
  - simpl in H. destruct (IH (step acc k) H) as (k' & Hin & Hok & E).
    exists k'. split; [right; exact Hin|]. split; [exact Hok|].
    simpl. rewrite Hk. exact E.
  - exists k. split; [left; reflexivity|]. split; [exact Hk|].
    simpl. rewrite Hk. reflexivity.
Qed.

(** Two loops over the same keys whose steps add equal amounts to two
    quantities keep the quantities equal. *)
Lemma fold_pair {K A B} (stepL : A -> K -> A) (stepR : B -> K -> B)
    (QL : A -> R) (QR : B -> R) (dL dR : K -> R) ks :
  (forall a k, QL (stepL a k) = QL a + dL k) ->
  (forall b k, QR (stepR b k) = QR b + dR k) ->
  (forall k, In k ks -> dL k = dR k) ->
  forall a b, QL a = QR b ->
    QL (fold_left stepL ks a) = QR (fold_left stepR ks b).
Proof.
  intros HL HR. induction ks as [|k ks IH]; intros Hd a b H; [exact H|].
  cbn [fold_left]. apply IH.
  - intros k' Hin. apply Hd. right. exact Hin.
  - rewrite HL, HR, H, (Hd k (or_introl eq_refl)). reflexivity.
Qed.

Lemma dot4_add4 A B C D sel (term acc W : arr4) :
  dot4 A B C D (add4 sel term acc) W
  = dot4 A B C D acc W
    + dot4 A B C D (fun a b c d => if sel a b c d then term a b c d else 0) W.
Proof.
  rewrite !(dot4_comm _ _ _ _ _ W). apply dot4_plus.
  intros a b c d. unfold add4. destruct (sel a b c d); ring.
Qed.

Lemma dot3_add3 A B C sel (term acc V : arr3) :
  dot3 A B C V (add3 sel term acc)
  = dot3 A B C V acc
    + dot3 A B C V (fun a b c => if sel a b c then term a b c else 0).
Proof.
  apply dot3_plus. intros a b c. unfold add3. destruct (sel a b c); ring.
Qed.

Lemma dot4_add4_r A B C D sel (term acc V : arr4) :
  dot4 A B C D V (add4 sel term acc)
  = dot4 A B C D V acc
    + dot4 A B C D V (fun a b c d => if sel a b c d then term a b c d else 0).
Proof.
  apply dot4_plus. intros a b c d. unfold add4. destruct (sel a b c d); ring.
Qed.

(** Sums against an array that is zero off one index of one axis. *)
Lemma dot4_pick1 A B C D (V : arr4) (T : arr3) L :
  (L < B)%nat ->
  dot4 A B C D V (fun a b c d => if Nat.eqb b L then T a c d else 0)
  = rsum A (fun a => rsum C (fun c => rsum D (fun d => V a L c d * T a c d))).
Proof.
  intros HL. unfold dot4. sum_ext as a.
  rewrite <- (rsum_pick B L (fun b => rsum C (fun c => rsum D (fun d =>
                 V a b c d * T a c d))) HL).
  sum_ext as b. destruct (Nat.eqb b L); [reflexivity|].
  apply rsum_zero. intros c _. apply rsum_zero. intros d _. ring.
Qed.

Lemma dot4_pick2 A B C D (V : arr4) (T : arr3) L :
  (L < C)%nat ->
  dot4 A B C D V (fun a b c d => if Nat.eqb c L then T a b d else 0)
  = rsum A (fun a => rsum B (fun b => rsum D (fun d => V a b L d * T a b d))).
Proof.
  intros HL. unfold dot4. sum_ext as a. sum_ext as b.
  rewrite <- (rsum_pick C L (fun c => rsum D (fun d => V a b c d * T a b d)) HL).
  sum_ext as c. destruct (Nat.eqb c L); [reflexivity|].
  apply rsum_zero. intros d _. ring.
Qed.

Lemma dot3_pick1 A B C (V : arr3) (T : mat) i :
  (i < B)%nat ->
  dot3 A B C V (fun a b c => if Nat.eqb b i then T a c else 0)
  = rsum A (fun a => rsum C (fun c => V a i c * T a c)).
Proof.
  intros Hi. unfold dot3. sum_ext as a.
  rewrite <- (rsum_pick B i (fun b => rsum C (fun c => V a b c * T a c)) Hi).
  sum_ext as b. destruct (Nat.eqb b i); [reflexivity|].
  apply rsum_zero. intros c _. ring.
Qed.

(** The loop of a method that has returned. *)
Ltac run_loop H out E :=
  match type of H with
  | context [for_res ?b ?k ?a] =>
      destruct (for_res b k a) as [out|] eqn:E; [|discriminate H]
  end.

(** [get_vf_realspace_contribs] is the transpose of
    [get_f_realspace_contribs]: when both return, on arrays of matching
    shapes, the quadrature-weighted sum of [get_f_realspace_contribs(c)]
    times [vyt] equals the sum of [c] times
    [get_vf_realspace_contribs(vyt)]. *)
Theorem vf_transposes_f (E : fit_ext) (self : PSmoothSetup) (c : shaped3)
    (vyt : shaped4) (rgd : option rgd_t) (sl : bool) (yt : shaped4) (vc : shaped3) :
  get_f_realspace_contribs self c sl = Ok yt ->
  get_vf_realspace_contribs E self vyt rgd sl = Ok vc ->
  dim0 vyt = d3_0 c -> dim1 vyt = length (alphas_ae (ps_data self)) ->
  dim3 vyt = grid_of self sl -> d3_2 c = dim1 vyt ->
  dot4 (dim0 yt) (dim1 yt) (dim2 yt) (dim3 yt) (data4 yt)
    (fun s b L g => data4 vyt s b L g * dv_or_ones E rgd g)
  = dot3 (d3_0 vc) (d3_1 vc) (d3_2 vc) (data3 c) (data3 vc).
Proof.
  intros Hf Hv H0 H1 H3 Ha.
  unfold get_f_realspace_contribs in Hf. unfold get_vf_realspace_contribs in Hv.
  cbv zeta in Hf, Hv.
  run_loop Hf y0 Ef. run_loop Hv v0 Ev.
  cbn [mbind res_bind bind] in Hf, Hv. injection Hf as <-. injection Hv as <-.
  cbn [dim0 dim1 dim2 dim3 data4 d3_0 d3_1 d3_2 data3].
  apply (for_res_guard_inv
           (fun i => Nat.ltb (itemn (lmlist_i (ps_data self)) i) Lmax_f)
           (fun i => IndexError (itemn (lmlist_i (ps_data self)) i))
           (f_add self c sl)) in Ef.
  apply (for_res_guard_inv
           (fun i => Nat.ltb (itemn (lmlist_i (ps_data self)) i) (dim2 vyt))
           (fun i => IndexError (itemn (lmlist_i (ps_data self)) i))
           (vf_add E self vyt rgd sl)) in Ev.
  destruct Ef as [Okf ->]. destruct Ev as [Okv ->].
  rewrite forallb_forall in Okf.
  set (W := fun s b L g => data4 vyt s b L g * dv_or_ones E rgd g).
  set (S0 := d3_0 c). set (Bn := length (alphas_ae (ps_data self))).
  set (G := grid_of self sl). set (I := ni (ps_data self)).
  apply (fold_pair (f_add self c sl) (vf_add E self vyt rgd sl)
           (fun acc => dot4 S0 Bn Lmax_f G acc W)
           (fun acc => dot3 (dim0 vyt) I (dim1 vyt) (data3 c) acc)
           (fun i => dot4 S0 Bn Lmax_f G
                       (fun s b L' g =>
                          if Nat.eqb L' (itemn (lmlist_i (ps_data self)) i)
                          then rsum (d3_2 c) (fun a =>
                                 phi_of self sl (itemn (jlist_i (ps_data self)) i) a b g
                                 * data3 c s i a)
                          else 0) W)
           (fun i => dot3 (dim0 vyt) I (dim1 vyt) (data3 c)
                       (fun s i' a =>
                          if Nat.eqb i' i
                          then rsum (dim1 vyt) (fun b => rsum (dim3 vyt) (fun g =>
                                 phi_of self sl (itemn (jlist_i (ps_data self)) i) a b g
                                 * data4 vyt s b (itemn (lmlist_i (ps_data self)) i) g
                                 * dv_or_ones E rgd g))
                          else 0))).
  - intros acc i. unfold f_add. apply dot4_add4.
  - intros acc i. unfold vf_add. apply dot3_add3.
  - intros i Hi. apply in_seq in Hi.
    assert (HL : (itemn (lmlist_i (ps_data self)) i < Lmax_f)%nat).
    { apply Nat.ltb_lt. apply Okf. apply in_seq. exact Hi. }
    set (L := itemn (lmlist_i (ps_data self)) i) in *.
    set (j := itemn (jlist_i (ps_data self)) i).
    rewrite dot4_comm.
    rewrite (dot4_pick2 _ _ _ _ W _ L HL).
    rewrite (dot3_pick1 _ _ _ (data3 c) _ i) by (fold I; lia).
    unfold W, S0, Bn, G. rewrite H0, <- H1, <- H3, Ha.
    sum_ext as s.
    transitivity (rsum (dim1 vyt) (fun b => rsum (dim3 vyt) (fun g =>
                    rsum (dim1 vyt) (fun a =>
                      data3 c s i a * (phi_of self sl j a b g * data4 vyt s b L g
                                       * dv_or_ones E rgd g))))).
    { sum_ext as b. sum_ext as g. sum_in. sum_ext as a. ring. }
    rewrite <- (rsum_swap3 (dim1 vyt) (dim1 vyt) (dim3 vyt)
                  (fun a b g => data3 c s i a * (phi_of self sl j a b g
                                  * data4 vyt s b L g * dv_or_ones E rgd g))).
    sum_ext as a. sum_in. sum_ext as b. sum_in. sum_ext as g. ring.
  - rewrite dot3_zero. rewrite dot4_comm, dot4_zero. reflexivity.
Qed.

Lemma in_sq_loops nspin lmax s l L :
  In (s, l, L) (sq_loops nspin lmax) -> (s < nspin)%nat.
Proof.
  unfold sq_loops. intros H.
  apply in_flat_map in H. destruct H as (s0 & Hs & H).
  apply in_flat_map in H. destruct H as (l0 & Hl & H).
  apply in_map_iff in H. destruct H as (L0 & HE & HL).
  injection HE as -> -> ->. apply in_seq in Hs. lia.
Qed.

(** [get_vdf_realspace_contribs] is the transpose of
    [get_df_realspace_contribs]: when both return, on arrays of
    matching shapes, the quadrature-weighted sum of
    [get_df_realspace_contribs(df)] times [vy] equals the sum of [df]
    times [get_vdf_realspace_contribs(vy)]. *)
Theorem vdf_real_transposes_df_real (E : fit_ext) (self : PSmoothSetup)
    (df vy : shaped4) (rgd : option rgd_t) (sl : bool) (y vdf : shaped4) :
  get_df_realspace_contribs self df sl = Ok y ->
  get_vdf_realspace_contribs E self vy rgd sl = Ok vdf ->
  dim0 vy = dim0 df -> dim1 vy = dim3 df -> dim2 vy = dim1 df ->
  dim3 vy = grid_of self sl -> dim2 df = NP self ->
  dot4 (dim0 y) (dim1 y) (dim2 y) (dim3 y) (data4 y)
    (fun s b L g => data4 vy s b L g * dv_or_ones E rgd g)
  = dot4 (dim0 vdf) (dim1 vdf) (dim2 vdf) (dim3 vdf) (data4 df) (data4 vdf).
Proof.
  intros Hf Hv H0 H1 H2 H3 HP.
  unfold get_df_realspace_contribs in Hf. unfold get_vdf_realspace_contribs in Hv.
  run_loop Hf y0 Ef. run_loop Hv v0 Ev.
  cbn [mbind res_bind bind] in Hf, Hv. injection Hf as <-. injection Hv as <-.
  cbn [dim0 dim1 dim2 dim3 data4].
  apply (for_res_guard_inv
           (fun slL : nat * nat * nat => Nat.ltb (snd slL) (dim1 df))
           (fun slL => IndexError (snd slL))
           (df_real_add self df sl)) in Ef.
  apply (for_res_guard_inv
           (fun slL : nat * nat * nat => Nat.ltb (snd slL) (dim2 vy))
           (fun slL => IndexError (snd slL))
           (vdf_real_add E self vy rgd sl)) in Ev.
  destruct Ef as [Okf ->]. destruct Ev as [Okv ->].
  rewrite forallb_forall in Okf.
  rewrite H0, H1, H2, <- H3, <- HP.
  set (W := fun s b L g => data4 vy s b L g * dv_or_ones E rgd g).
  apply (fold_pair (df_real_add self df sl) (vdf_real_add E self vy rgd sl)
           (fun acc => dot4 (dim0 df) (dim3 df) (dim1 df) (dim3 vy) acc W)
           (fun acc => dot4 (dim0 df) (dim1 df) (dim2 df) (dim3 df) (data4 df) acc)
           (fun k => let '(s, l, L) := k in
              dot4 (dim0 df) (dim3 df) (dim1 df) (dim3 vy)
                (fun s' b L' g =>
                   if Nat.eqb s' s && Nat.eqb L' L
                   then rsum (dim2 df) (fun p =>
                          data4 df s L p b * delta_of self sl l p g)
                   else 0) W)
           (fun k => let '(s, l, L) := k in
              dot4 (dim0 df) (dim1 df) (dim2 df) (dim3 df) (data4 df)
                (fun s' L' p b =>
                   if Nat.eqb s' s && Nat.eqb L' L
                   then rsum (dim3 vy) (fun g =>
                          data4 vy s b L g * delta_of self sl l p g
                          * dv_or_ones E rgd g)
                   else 0))).
  - intros acc [[s l] L]. unfold df_real_add. apply dot4_add4.
  - intros acc [[s l] L]. unfold vdf_real_add. apply dot4_add4_r.
  - intros [[s l] L] Hin.
    assert (Hs : (s < dim0 df)%nat) by (apply (in_sq_loops _ _ _ _ _ Hin)).
    assert (HL : (L < dim1 df)%nat).
    { apply Nat.ltb_lt. apply (Okf (s, l, L) Hin). }
    rewrite (dot4_pick02 _ _ _ _ _ W s L Hs HL).
    rewrite (dot4_pick01 _ _ _ _ (data4 df) _ s L Hs HL).
    unfold dot2, W.
    transitivity (rsum (dim3 df) (fun b => rsum (dim3 vy) (fun g =>
                    rsum (dim2 df) (fun p =>
                      data4 df s L p b * delta_of self sl l p g
                      * data4 vy s b L g * dv_or_ones E rgd g)))).
    { sum_ext as b. sum_ext as g. sum_in. sum_ext as p. ring. }
    rewrite <- (rsum_swap3 (dim2 df) (dim3 df) (dim3 vy)
                  (fun p b g => data4 df s L p b * delta_of self sl l p g
                                * data4 vy s b L g * dv_or_ones E rgd g)).
    sum_ext as p. sum_ext as b. sum_in. sum_ext as g. ring.
  - rewrite dot4_zero. rewrite dot4_comm, dot4_zero. reflexivity.
Qed.

(** [get_vdf_only] is the transpose of [get_df_only], in real and in
    reciprocal space: when both return, on arrays of matching shapes,
    the sum of [V] times [get_df_only(y)] equals the quadrature-weighted
    sum of [get_vdf_only(V)] times [y]. *)
Theorem vdf_only_transposes_df_only (E : fit_ext) (self : PSmoothSetup)
    (y V : shaped4) (rgd : rgd_t) (sl realspace : bool) (df yv : shaped4) :
  get_df_only E self y rgd sl realspace = Ok df ->
  get_vdf_only self V sl realspace = Ok yv ->
  dim0 V = dim0 y -> dim1 V = dim2 y -> dim2 V = NP self -> dim3 V = dim1 y ->
  dim3 y = only_grid self sl realspace ->
  dot4 (dim0 df) (dim1 df) (dim2 df) (dim3 df) (data4 V) (data4 df)
  = dot4 (dim0 yv) (dim1 yv) (dim2 yv) (dim3 yv) (data4 yv)
      (fun s b L g => data4 y s b L g * only_dv E rgd realspace g).
Proof.
  intros Hf Hv H0 H1 H2 H3 HG.
  unfold get_df_only in Hf. unfold get_vdf_only in Hv.
  destruct (only_delta self sl realspace) as [delta|e]; [|discriminate].
  cbn [mbind res_bind bind] in Hf, Hv.
  run_loop Hf d0 Ef. run_loop Hv y0 Ev.
  cbn [mbind res_bind bind] in Hf, Hv. injection Hf as <-. injection Hv as <-.
  cbn [dim0 dim1 dim2 dim3 data4].
  apply (for_res_guard_inv
           (fun lL : nat * nat => Nat.ltb (snd lL) (dim2 y))
           (fun lL => IndexError (snd lL))
           (df_only_add y delta (only_dv E rgd realspace))) in Ef.
  apply (for_res_guard_inv
           (fun lL : nat * nat => Nat.ltb (snd lL) (dim1 V))
           (fun lL => IndexError (snd lL))
           (vdf_only_add V delta)) in Ev.
  destruct Ef as [Okf ->]. destruct Ev as [Okv ->].
  rewrite forallb_forall in Okf.
  rewrite H0, H1, H3, <- H2, <- HG.
  set (dv := only_dv E rgd realspace).
  set (W := fun s b L g => data4 y s b L g * dv g).
  apply (fold_pair (df_only_add y delta dv) (vdf_only_add V delta)
           (fun acc => dot4 (dim0 y) (dim2 y) (dim2 V) (dim1 y) (data4 V) acc)
           (fun acc => dot4 (dim0 y) (dim1 y) (dim2 y) (dim3 y) acc W)
           (fun k => let '(l, L) := k in
              dot4 (dim0 y) (dim2 y) (dim2 V) (dim1 y) (data4 V)
                (fun s L' p b =>
                   if Nat.eqb L' L
                   then rsum (dim3 y) (fun g =>
                          data4 y s b L g * delta l p g * dv g)
                   else 0))
           (fun k => let '(l, L) := k in
              dot4 (dim0 y) (dim1 y) (dim2 y) (dim3 y)
                (fun s b L' g =>
                   if Nat.eqb L' L
                   then rsum (dim2 V) (fun p => data4 V s L p b * delta l p g)
                   else 0) W)).
  - intros acc [l L]. unfold df_only_add. apply dot4_add4_r.
  - intros acc [l L]. unfold vdf_only_add. apply dot4_add4.
  - intros [l L] Hin.
    assert (HL : (L < dim2 y)%nat).
    { apply Nat.ltb_lt. apply (Okf (l, L) Hin). }
    rewrite (dot4_pick1 _ _ _ _ (data4 V) _ L HL).
    rewrite dot4_comm, (dot4_pick2 _ _ _ _ W _ L HL).
    unfold W. sum_ext as s.
    transitivity (rsum (dim2 V) (fun p => rsum (dim1 y) (fun b =>
                    rsum (dim3 y) (fun g =>
                      data4 V s L p b * delta l p g * data4 y s b L g * dv g)))).
    { sum_ext as p. sum_ext as b. sum_in. sum_ext as g. ring. }
    rewrite (rsum_swap3 (dim2 V) (dim1 y) (dim3 y)
               (fun p b g => data4 V s L p b * delta l p g * data4 y s b L g * dv g)).
    sum_ext as b. sum_ext as g. sum_in. sum_ext as p. ring.
  - rewrite dot4_zero. rewrite dot4_comm, dot4_zero. reflexivity.
Qed.

(** The three theorems on the one-function setup. *)
Lemma vf_transposes_f_witness :
  exists yt vc,
    get_f_realspace_contribs smooth1 vc1 false = Ok yt /\
    get_vf_realspace_contribs fit1 smooth1 field1 None false = Ok vc /\
    dot4 (dim0 yt) (dim1 yt) (dim2 yt) (dim3 yt) (data4 yt)
      (fun s b L g => data4 field1 s b L g * dv_or_ones fit1 None g)
    = dot3 (d3_0 vc) (d3_1 vc) (d3_2 vc) (data3 vc1) (data3 vc).
Proof.
  eexists. eexists. split; [reflexivity|]. split; [reflexivity|].
  exact (vf_transposes_f fit1 smooth1 vc1 field1 None false _ _
           eq_refl eq_refl eq_refl eq_refl eq_refl eq_refl).
Defined.

Lemma vdf_real_transposes_df_real_witness :
  exists y vdf,
    get_df_realspace_contribs smooth1 field1 false = Ok y /\
    get_vdf_realspace_contribs fit1 smooth1 field2 None false = Ok vdf /\
    dot4 (dim0 y) (dim1 y) (dim2 y) (dim3 y) (data4 y)
      (fun s b L g => data4 field2 s b L g * dv_or_ones fit1 None g)
    = dot4 (dim0 vdf) (dim1 vdf) (dim2 vdf) (dim3 vdf) (data4 field1) (data4 vdf).
Proof.
  eexists. eexists. split; [reflexivity|]. split; [reflexivity|].
  exact (vdf_real_transposes_df_real fit1 smooth1 field1 field2 None false _ _
           eq_refl eq_refl eq_refl eq_refl eq_refl eq_refl eq_refl).
Defined.

Lemma vdf_only_transposes_df_only_witness :
  exists df yv,
    get_df_only fit1 smooth1 field1 rgd1 false true = Ok df /\
    get_vdf_only smooth1 field2 false true = Ok yv /\
    dot4 (dim0 df) (dim1 df) (dim2 df) (dim3 df) (data4 field2) (data4 df)
    = dot4 (dim0 yv) (dim1 yv) (dim2 yv) (dim3 yv) (data4 yv)
        (fun s b L g => data4 field1 s b L g * only_dv fit1 rgd1 true g).
Proof.
  eexists. eexists. split; [reflexivity|]. split; [reflexivity|].
  exact (vdf_only_transposes_df_only fit1 smooth1 field1 field2 rgd1 false true _ _
           eq_refl eq_refl eq_refl eq_refl eq_refl eq_refl eq_refl).
Defined.

(** [get_f_realspace_contribs] allocates 25 components [L]: it returns
    when every [lmlist_i[i]] is below 25 and raises [IndexError] as soon
    as one is not, that is for a setup with a function of [l >= 5];
    the tables of both [from_setup] constructors stay below 25 for every
    atomic number.  In reciprocal space [get_df_only] and [get_vdf_only]
    refuse [sl=True] with an [AssertionError]. *)
Theorem f_realspace_L_bound (E : fit_ext) (self : PSmoothSetup) (c : shaped3)
    (y df : shaped4) (rgd : rgd_t) (sl : bool) :
  ((forall i, (i < ni (ps_data self))%nat ->
      (itemn (lmlist_i (ps_data self)) i < Lmax_f)%nat) ->
   is_ok (get_f_realspace_contribs self c sl) = true) /\
  (forall i, (i < ni (ps_data self))%nat ->
     (Lmax_f <= itemn (lmlist_i (ps_data self)) i)%nat ->
     exists L, (Lmax_f <= L)%nat /\
       get_f_realspace_contribs self c sl = Raise (IndexError L)) /\
  (forall Zat : Z,
     Forall (fun L => (L < Lmax_f)%nat)
       (Shells.lmlist_i (Shells.PAugSetup_from_setup_table Zat)) /\
     Forall (fun L => (L < Lmax_f)%nat)
       (Shells.lmlist_i (Shells.PSmoothSetup_from_setup_table Zat))) /\
  get_df_only E self y rgd true false = Raise AssertionError /\
  get_vdf_only self df true false = Raise AssertionError.
Proof.
  split; [|split; [|split; [|split; reflexivity]]].
  - intros H. unfold get_f_realspace_contribs. cbv zeta.
    rewrite (for_res_guard_ok
               (fun i => Nat.ltb (itemn (lmlist_i (ps_data self)) i) Lmax_f)
               (fun i => IndexError (itemn (lmlist_i (ps_data self)) i))
               (f_add self c sl)); [reflexivity|].
    apply forallb_forall. intros i Hi. apply in_seq in Hi.
    apply Nat.ltb_lt, H. lia.
  - intros i Hi HL. unfold get_f_realspace_contribs. cbv zeta.
    destruct (for_res_guard_fail
                (fun i => Nat.ltb (itemn (lmlist_i (ps_data self)) i) Lmax_f)
                (fun i => IndexError (itemn (lmlist_i (ps_data self)) i))
                (f_add self c sl) (seq 0 (ni (ps_data self)))
                (fun _ _ _ _ => 0)) as (k & Hin & Hk & Ek).
    { apply not_true_is_false. intros Hall. rewrite forallb_forall in Hall.
      specialize (Hall i). rewrite in_seq in Hall.
      assert (Hlt : (itemn (lmlist_i (ps_data self)) i < Lmax_f)%nat)
        by (apply Nat.ltb_lt, Hall; lia).
      lia. }
    exists (itemn (lmlist_i (ps_data self)) k). split.
    + apply Nat.ltb_ge. exact Hk.
    + rewrite Ek. reflexivity.
  - intros Zat. unfold Shells.PAugSetup_from_setup_table,
      Shells.PSmoothSetup_from_setup_table.
    split.
    + destruct (1000 <? Zat)%Z; [|destruct (18 <? Zat)%Z; [|destruct (0 <? Zat)%Z]];
        (match goal with |- Forall _ ?l => let v := eval vm_compute in l in
                                           change l with v end;
         unfold Lmax_f; repeat (constructor; [lia|]); constructor).
    + destruct (100 <? Zat)%Z; [|destruct (0 <? Zat)%Z];
        (match goal with |- Forall _ ?l => let v := eval vm_compute in l in
                                           change l with v end;
         unfold Lmax_f; repeat (constructor; [lia|]); constructor).
Qed.

End ContribFacts.

(** ** The loops of the [from_setup] constructors *)

Module ShellLoopFacts.

Import Shells ShellLoops.

Lemma in_expand_shells ls : forall j0 lm j,
  In (lm, j) (expand_shells j0 ls) <->
  exists l m, ls !! (j - j0) = Some l /\ j0 <= j /\ m < 2 * l + 1 /\ lm = l * l + m.
Proof.
  induction ls as [|l0 ls IH]; intros j0 lm j; simpl.
  - split; [contradiction|]. intros (l & m & H & _). discriminate.
  - rewrite in_app_iff, in_map_iff, IH. split.
    + intros [(m & HE & Hm)|(l & m & Hl & Hj & Hm & ->)].
      * injection HE as <- <-. apply in_seq in Hm.
        exists l0, m. rewrite Nat.sub_diag.
        split; [reflexivity|]. split; [lia|]. split; [lia|reflexivity].
      * exists l, m. replace (j - j0) with (S (j - S j0)) by lia.
        split; [exact Hl|]. split; [lia|]. split; [exact Hm|reflexivity].
    + intros (l & m & Hl & Hj & Hm & ->).
      destruct (Nat.eq_dec j j0) as [->|Hne].
      * rewrite Nat.sub_diag in Hl. injection Hl as <-.
        left. exists m. split; [reflexivity|]. apply in_seq. lia.
      * right. exists l, m. replace (j - j0) with (S (j - S j0)) in Hl by lia.
        split; [exact Hl|]. split; [lia|]. split; [exact Hm|reflexivity].
Qed.

Lemma expand_shells_length ls : forall j0,
  length (expand_shells j0 ls) = List.list_sum (map (fun l => 2 * l + 1) ls).
Proof.
  induction ls as [|l0 ls IH]; intros j0; [reflexivity|].
  cbn [expand_shells map List.list_sum fold_right].
  rewrite length_app, length_map, length_seq, IH. reflexivity.
Qed.

Lemma expand_shells_NoDup ls : forall j0, List.NoDup (expand_shells j0 ls).
Proof.
  induction ls as [|l0 ls IH]; intros j0; simpl; [constructor|].
  apply List.NoDup_app.
  - apply Finite.Injective_map_NoDup; [|apply seq_NoDup].
    intros m m' H. injection H as H. lia.
  - apply IH.
  - intros [lm j] H1 H2. apply in_map_iff in H1. destruct H1 as (m & HE & _).
    injection HE as <- <-. apply in_expand_shells in H2.
    destruct H2 as (l & m' & _ & Hj & _). lia.
Qed.

Lemma combine_fst_snd {A B} (e : list (A * B)) :
  combine (map fst e) (map snd e) = e.
Proof.
  induction e as [|[a b] e IH]; [reflexivity|]. simpl. rewrite IH. reflexivity.
Qed.

(** The loop [for j, n in enumerate(nlist_j): for m in range(2 * l + 1)]
    of both [from_setup] constructors, for any list of angular momenta:
    [lmlist_i] and [jlist_i] have one entry for each function [j] and
    each [m] below [2 l + 1] with [l = llist_j[j]], no pair twice, and
    the entry is [lm = l * l + m]. *)
Theorem shell_loop_enumerates (t : shell_table) :
  length (lmlist_i t) = ni t /\ length (jlist_i t) = ni t /\
  ni t = List.list_sum (map (fun l => 2 * l + 1) (llist_j t)) /\
  List.NoDup (combine (lmlist_i t) (jlist_i t)) /\
  forall lm j,
    In (lm, j) (combine (lmlist_i t) (jlist_i t)) <->
    exists l m, llist_j t !! j = Some l /\ m < 2 * l + 1 /\ lm = l * l + m.
Proof.
  unfold ni, lmlist_i, jlist_i. rewrite !length_map, combine_fst_snd.
  split; [reflexivity|]. split; [reflexivity|].
  split; [apply expand_shells_length|]. split; [apply expand_shells_NoDup|].
  intros lm j. rewrite in_expand_shells. rewrite Nat.sub_0_r.
  split; intros (l & m & H); exists l, m.
  - destruct H as (H1 & _ & H2 & H3). auto.
  - destruct H as (H1 & H2 & H3). split; [exact H1|]. split; [lia|]. auto.
Qed.

Ltac table_row :=
  do 4 eexists; repeat split; try reflexivity; try (vm_compute; lia).

Ltac table_rows j Hj :=
  do 20 (destruct j as [|j]; [first [exfalso; vm_compute in Hj; lia | table_row]|]);
  exfalso; vm_compute in Hj; lia.

Ltac table_adj j H1 H2 H3 H4 :=
  do 20 (destruct j as [|j]; [cbv in H1, H2, H3, H4; simplify_eq; lia|]);
  cbv in H1; discriminate.

Lemma table_well_formed t :
  t = table19 \/ t = table14 \/ t = table9 \/ t = table4 -> well_formed t.
Proof.
  intros [-> | [-> | [-> | ->]]]; (split; [reflexivity|split]);
    try (intros j Hj; table_rows j Hj);
    try (intros j l n n' H1 H2 H3 H4; table_adj j H1 H2 H3 H4).
Qed.

(** For every atomic number the tables that [PAugSetup.from_setup] and
    [PSmoothSetup.from_setup] select are well formed: the functions of
    one angular momentum are the slice of [nbas_loc], every radial
    index is a row of the arrays of [nn] functions, at least [l] and of
    the parity of [l], and the radial indices of a channel increase. *)
Theorem from_setup_tables_well_formed (Zat : Z) :
  well_formed (PAugSetup_from_setup_table Zat) /\
  well_formed (PSmoothSetup_from_setup_table Zat).
Proof.
  unfold PAugSetup_from_setup_table, PSmoothSetup_from_setup_table.
  split.
  - destruct (1000 <? Zat)%Z; [|destruct (18 <? Zat)%Z; [|destruct (0 <? Zat)%Z]];
      apply table_well_formed; auto.
  - destruct (100 <? Zat)%Z; [|destruct (0 <? Zat)%Z];
      apply table_well_formed; auto.
Qed.

End ShellLoopFacts.

(** ** [PAugSetup.initialize_g2a]: what it leaves and when it fails *)

Module AugMoreFacts.

Import Py LA LAFacts Setups AugFacts Cutoffs CutoffFacts.

Local Open Scope R_scope.

Lemma data1_initializes : exists out, initialize_g2a aug1 data1 = Ok out.
Proof.
  apply initialize_g2a_returns.
  intros l Hl. cbn [lmax data1] in Hl. assert (l = O) by lia. subst l.
  destruct (cho_factor_1 (channel_ovlp data1 0)) as [F HF].
  - rewrite data1_overlap. lra.
  - exists O, 1%nat, F. cbn. repeat split. exact HF.
Defined.

(** Once [initialize_g2a] has returned, the projectors it leaves in
    [self.pfuncs_ng] vanish at every grid point from [rcut_feat] on, are
    nowhere larger in magnitude than before and are unchanged where
    [r = 0]; [rcut_func] has become [rcut_feat], and the shell
    bookkeeping is as it was. *)
Theorem initialize_g2a_filters (E : aug_ext) (self : PASDWData) (out : PAugSetup) :
  0 < rcut_feat self -> initialize_g2a E self = Ok out ->
  (forall n g, rcut_feat self <= r_g (slrgd self) g ->
     pfuncs_ng (pa_data out) n g = 0) /\
  (forall n g, Rabs (pfuncs_ng (pa_data out) n g) <= Rabs (pfuncs_ng self n g)) /\
  (forall n g, r_g (slrgd self) g = 0 ->
     pfuncs_ng (pa_data out) n g = pfuncs_ng self n g) /\
  rcut_func (pa_data out) = rcut_feat self /\
  rcut_feat (pa_data out) = rcut_feat self /\
  nbas_loc (pa_data out) = nbas_loc self /\
  nlist_j (pa_data out) = nlist_j self /\
  llist_j (pa_data out) = llist_j self /\
  lmlist_i (pa_data out) = lmlist_i self /\
  jlist_i (pa_data out) = jlist_i self.
Proof.
  intros HR H. unfold initialize_g2a in H. cbv zeta in H.
  destruct (g2a_loop self _ _) as [[fj ft]|e]; [|discriminate].
  cbn [mbind res_bind bind] in H. injection H as <-.
  cbn [pa_data pfuncs_ng rcut_func rcut_feat nbas_loc nlist_j llist_j
       lmlist_i jlist_i].
  assert (P := fun g => get_filt_bounds self (r_g (slrgd self)) g HR).
  split; [|split; [|split]].
  - intros n g Hg. rewrite (get_filt_zero self (r_g (slrgd self)) g HR Hg). ring.
  - intros n g. rewrite Rabs_mult.
    rewrite (Rabs_right (get_filt self (r_g (slrgd self)) g))
      by (apply Rle_ge, P).
    rewrite <- (Rmult_1_r (Rabs (pfuncs_ng self n g))) at 2.
    apply Rmult_le_compat_l; [apply Rabs_pos|apply P].
  - intros n g Hg. rewrite (get_filt_one self (r_g (slrgd self)) g HR Hg). ring.
  - repeat split.
Qed.

Lemma initialize_g2a_filters_witness :
  exists out,
    initialize_g2a aug1 data1 = Ok out /\
    rcut_func (pa_data out) = rcut_feat data1 /\
    nbas_loc (pa_data out) = nbas_loc data1.
Proof.
  destruct data1_initializes as [out H]. exists out. split; [exact H|].
  assert (HR : 0 < rcut_feat data1) by (cbn; lra).
  destruct (initialize_g2a_filters aug1 data1 out HR H)
    as (_ & _ & _ & H1 & _ & H2 & _).
  split; [exact H1|exact H2].
Defined.

Lemma cho_factor_error n A e : cho_factor n A = Raise e -> e = LinAlgError.
Proof.
  unfold cho_factor. destruct (chol_rows A n); [discriminate|].
  intros H. injection H as <-. reflexivity.
Qed.

Lemma g2a_loop_fails self ls l a b : forall acc,
  (forall l', In l' ls ->
     is_Some (nbas_loc self !! l') /\ is_Some (nbas_loc self !! (l' + 1)%nat)) ->
  In l ls ->
  nbas_loc self !! l = Some a -> nbas_loc self !! (l + 1)%nat = Some b ->
  cho_factor (clip (nj self) b - clip (nj self) a)
    (channel_ovlp self (clip (nj self) a)) = Raise LinAlgError ->
  g2a_loop self acc ls = Raise LinAlgError.
Proof.
  induction ls as [|l0 ls IH]; intros acc Hall Hin Ha Hb HF; [destruct Hin|].
  cbn [g2a_loop].
  destruct (Hall l0 (or_introl eq_refl)) as [[a0 Ha0] [b0 Hb0]].
  unfold g2a_channel at 1. destruct acc as [fj ft].
  apply getindex_ok in Ha0. apply getindex_ok in Hb0.
  rewrite Ha0. cbn [mbind res_bind bind]. rewrite Hb0. cbn [mbind res_bind bind].
  destruct (Nat.eq_dec l0 l) as [->|Hne].
  - apply getindex_ok in Ha0. apply getindex_ok in Hb0.
    rewrite Ha in Ha0. injection Ha0 as <-.
    rewrite Hb in Hb0. injection Hb0 as <-.
    rewrite HF. reflexivity.
  - destruct (cho_factor (clip (nj self) b0 - clip (nj self) a0)
                (channel_ovlp self (clip (nj self) a0))) as [F|e] eqn:EF;
      cbn [mbind res_bind bind].
    + apply IH; try assumption.
      * intros l' Hl'. apply Hall. right. exact Hl'.
      * destruct Hin as [E|Hin]; [contradiction|exact Hin].
    + rewrite (cho_factor_error _ _ _ EF). reflexivity.
Qed.

(** [initialize_g2a] raises [LinAlgError] when the overlap matrix of
    some channel is not positive definite, as it is when the filtered
    projectors of the channel are linearly dependent on the grid. *)
Theorem initialize_g2a_not_posdef (E : aug_ext) (self : PASDWData) (l a b : nat) :
  (forall l', (l' <= lmax self + 1)%nat -> is_Some (nbas_loc self !! l')) ->
  (l <= lmax self)%nat ->
  nbas_loc self !! l = Some a -> nbas_loc self !! (l + 1)%nat = Some b ->
  ~ posdef (clip (nj self) b - clip (nj self) a)
      (sym (channel_ovlp self (clip (nj self) a))) ->
  initialize_g2a E self = Raise LinAlgError.
Proof.
  intros Hall Hl Ha Hb Hnp. unfold initialize_g2a. cbv zeta.
  rewrite (g2a_loop_fails self (seq 0 (lmax self + 1)) l a b).
  - reflexivity.
  - intros l' Hl'. apply in_seq in Hl'. split; apply Hall; lia.
  - apply in_seq. lia.
  - exact Ha.
  - exact Hb.
  - apply cho_factor_not_posdef. exact Hnp.
Qed.

Lemma initialize_g2a_not_posdef_witness :
  initialize_g2a aug1 data_zero = Raise LinAlgError.
Proof.
  apply (initialize_g2a_not_posdef aug1 data_zero 0 0 1).
  - intros l' Hl'. cbn [lmax data_zero] in Hl'.
    destruct l' as [|[|l']]; [eexists; reflexivity|eexists; reflexivity|lia].
  - cbn. lia.
  - reflexivity.
  - reflexivity.
  - intros Hp. cbn [nj data_zero clip Nat.min Nat.sub] in Hp.
    specialize (Hp (fun _ => 1)).
    assert (Hx : exists i, (i < 1)%nat /\ (fun _ : nat => 1) i <> 0).
    { exists O. split; [lia|]. cbv beta. lra. }
    specialize (Hp Hx). cbn [rsum] in Hp.
    unfold sym, channel_ovlp, channel_rows in Hp.
    cbn [Nat.leb ng data_zero rsum pfuncs_ng] in Hp. lra.
Defined.

End AugMoreFacts.

(** ** [PSmoothSetup.initialize_a2g]: the stored inverse *)

Module A2GMoreFacts.

Import Py LA LAFacts Setups AugFacts SmoothFacts SmoothOps SmoothOpsFacts.

Local Open Scope R_scope.

(** What a setup that [initialize_a2g] has returned holds for channel
    [l]. *)
Lemma initialize_a2g_stored E d pf2 ps l :
  fst (initialize_a2g E d pf2) = Ok ps -> (l <= lmax d)%nat ->
  exists n P F,
    p_l_ii ps !! l = Some (n, P) /\ cho_factor n P = Ok F /\
    stored_factor ps l = F /\
    nth l (pinv_l_ii ps) identity = cho_solve_mat F identity /\
    ps_data ps = d.
Proof.
  intros H Hl. unfold initialize_a2g in H.
  destruct (a2g_assemble E d pf2) as [m|e]; [|discriminate].
  pose proof (factor_loop_ok (m_p_l_ii m) (seq 0 (lmax d + 1)) ([], []) []) as Hok.
  destruct (factor_loop (m_p_l_ii m) (seq 0 (lmax d + 1)) ([], []) [])
    as [[[pc pi]|e] cs]; [|discriminate].
  cbn [fst] in H. injection H as <-.
  destruct (Hok pc pi cs eq_refl) as (Fs & -> & -> & Hlen & HFs). cbn [fst snd app].
  assert (Hls : seq 0 (lmax d + 1) !! l = Some l).
  { apply lookup_seq. split; [reflexivity|lia]. }
  destruct (HFs l l Hls) as (n & P & F & HP & HF & HFl).
  exists n, P, F. cbn [p_l_ii pinv_l_ii ps_data]. unfold stored_factor.
  cbn [p_cl_l_ii].
  apply nth_lookup_Some with (d := mk_factor 0 (fun _ _ => 0)) in HFl.
  split; [exact HP|]. split; [exact HF|]. split; [exact HFl|].
  split; [|reflexivity].
  rewrite (nth_indep _ _ (cho_solve_mat (mk_factor 0 (fun _ _ => 0)) identity)).
  - rewrite (map_nth (fun F0 => cho_solve_mat F0 identity)). rewrite HFl. reflexivity.
  - rewrite length_map, Hlen, length_seq. lia.
Qed.

(** Once [initialize_a2g] has returned, the matrix kept in
    [pinv_l_ii[l]] is the inverse of the symmetric matrix [P_l] that was
    factorized, it is symmetric, and the solve with the stored factor
    that [get_c_and_df] performs is the product with it, which is what
    the line [x = self.pinv_l_ii[l].dot(b)] left as a comment would
    compute. *)
Theorem stored_inverse (E : fit_ext) (d : PASDWData) (pf2 : mat)
    (ps : PSmoothSetup) (l : nat) :
  fst (initialize_a2g E d pf2) = Ok ps -> (l <= lmax d)%nat ->
  exists n P,
    p_l_ii ps !! l = Some (n, P) /\
    fsize (stored_factor ps l) = n /\
    is_cholesky n P (fU (stored_factor ps l)) /\
    let pinv := nth l (pinv_l_ii ps) identity in
    (forall (b : vec) i,
       cho_solve (stored_factor ps l) b i = rsum n (fun k => pinv i k * b k)) /\
    (forall i k, (i < n)%nat ->
       rsum n (fun j => sym P i j * pinv j k) = identity i k) /\
    (forall i k, (i < n)%nat -> (k < n)%nat -> pinv i k = pinv k i).
Proof.
  intros H Hl.
  destruct (initialize_a2g_stored E d pf2 ps l H Hl)
    as (n & P & F & HP & HF & -> & -> & _).
  destruct (cho_factor_correct n P F HF) as [Hn HC].
  exists n, P. split; [exact HP|]. split; [exact Hn|]. split; [exact HC|].
  cbv zeta.
  assert (Hspan : forall (b : vec) i,
            cho_solve F b i = rsum n (fun k => cho_solve_mat F identity i k * b k)).
  { intros b i.
    rewrite <- Hn. exact (cho_solve_mat_span F (fun k _ => b k) i O). }
  split; [exact Hspan|]. split.
  - intros i k Hi.
    exact (cho_solve_correct n P F (fun i' => identity i' k) Hn HC i Hi).
  - intros i k Hi Hk.
    pose proof (cho_solve_sym n P F (fun t => identity t i) (fun t => identity t k)
                  Hn HC) as Hs.
    unfold cho_solve_mat.
    rewrite (rsum_single n i) in Hs; [|exact Hi|].
    2:{ intros t _ Hne. unfold identity.
        destruct (Nat.eqb_spec t i); [contradiction|ring]. }
    rewrite (rsum_single n k) in Hs; [|exact Hk|].
    2:{ intros t _ Hne. unfold identity.
        destruct (Nat.eqb_spec t k); [contradiction|ring]. }
    assert (Ei : forall t, identity t t = 1)
      by (intros t; unfold identity; rewrite Nat.eqb_refl; reflexivity).
    rewrite !Ei in Hs. lra.
Qed.

Lemma fit1_initializes :
  exists ps, fst (initialize_a2g fit1 data1 (fun _ _ => 1)) = Ok ps.
Proof.
  unfold initialize_a2g.
  assert (Ha : exists m, a2g_assemble fit1 data1 (fun _ _ => 1) = Ok m
                         /\ m_p_l_ii m = [(1%nat, fun _ _ => 1)]).
  { eexists. split; reflexivity. }
  destruct Ha as (m & -> & Hp). rewrite Hp.
  cbn [lmax data1 Nat.add seq factor_loop getindex lookup list_lookup].
  destruct (cho_factor_1 (fun _ _ => 1)) as [F HF]; [lra|].
  rewrite HF. cbn [fst]. eexists. reflexivity.
Defined.

Lemma stored_inverse_witness :
  exists ps n P,
    fst (initialize_a2g fit1 data1 (fun _ _ => 1)) = Ok ps /\
    p_l_ii ps !! O = Some (n, P) /\
    forall (b : vec) i,
      cho_solve (stored_factor ps O) b i
      = rsum n (fun k => nth O (pinv_l_ii ps) identity i k * b k).
Proof.
  destruct fit1_initializes as [ps H].
  destruct (stored_inverse fit1 data1 (fun _ _ => 1) ps O H (Nat.le_0_l _))
    as (n & P & HP & _ & _ & Hs & _).
  exists ps, n, P. split; [exact H|]. split; [exact HP|exact Hs].
Defined.

End A2GMoreFacts.


(** ** The orchestrator: a round in order *)

Module KernelMoreFacts.

Import Py Kernel KernelMore.

Section Rounds.

Context {arr xc_t nlxc_t contribs_t ps_t pa_t : Type}.
Local Abbreviation setup := (setup arr xc_t nlxc_t contribs_t ps_t pa_t).
Local Abbreviation numerics := (numerics arr xc_t nlxc_t contribs_t ps_t pa_t).
Local Abbreviation kernel := (kernel arr).

Ltac run_M :=
  cbv [mbind M_bind mret M_ret pure assert_ getattr
       read_fr read_df read_c read_vfr read_vdf
       assign_fr assign_df assign_c assign_vfr assign_vdf
       store_fr store_df store_c store_vfr store_vdf];
  cbv beta iota;
  cbn [fr_asgLq df_asgLq c_asiq vfr_asgLq vdf_asgLq fst snd].

Local Set Warnings "-clear-no-such-hyp".

Variable N : numerics.
Hypothesis HN : numerics_total N.

Lemma features_body_ok (setups : list setup) a D fr df c v1 v2 su :
  setups !! a = Some su -> initialized su ->
  exists x y z,
    features_body N setups a D (mk_kernel (Some fr) (Some df) (Some c) v1 v2)
    = (Ok tt, mk_kernel (Some (<[a := x]> fr)) (Some (<[a := y]> df))
                (Some (<[a := z]> c)) v1 v2).
Proof.
  intros Hsu ([xcc Hxc] & [nl Hnl] & [cc Hcc] & [ps Hps] & _).
  unfold features_body. run_M. unfold getindex. rewrite Hsu. run_M.
  rewrite Hps, Hnl, Hxc, Hcc. run_M.
  destruct (feature_terms_ok N HN ps nl xcc (rcut_j su) cc D)
    as ([[[c_siq df_sgLq] yt] dfr] & ->).
  run_M.
  destruct (add_dfr_ok N HN ps yt dfr) as (fr2 & ->). run_M.
  exists fr2, df_sgLq, c_siq. rewrite insert_insert_eq. reflexivity.
Qed.

Lemma ready_cons (setups : list setup) a (D : arr) items :
  setups_ready setups ((a, D) :: items) ->
  (exists su, setups !! a = Some su /\ initialized su) /\ setups_ready setups items.
Proof.
  intros H. split.
  - apply (H a D). left. reflexivity.
  - intros a' D' Hin. apply (H a' D'). right. exact Hin.
Qed.

Lemma atoms_cons a (D : arr) items : atoms ((a, D) :: items) = {[a]} ∪ atoms items.
Proof. reflexivity. Qed.

Lemma features_loop_ok (setups : list setup) items : forall fr df c v1 v2,
  setups_ready setups items ->
  exists fr' df' c',
    for_items (features_body N setups) items
      (mk_kernel (Some fr) (Some df) (Some c) v1 v2)
    = (Ok tt, mk_kernel (Some fr') (Some df') (Some c') v1 v2) /\
    dom fr' = dom fr ∪ atoms items /\ dom df' = dom df ∪ atoms items /\
    dom c' = dom c ∪ atoms items.
Proof.
  induction items as [|[a D] items IH]; intros fr df c v1 v2 Hr.
  - exists fr, df, c. split; [reflexivity|]. unfold atoms. cbn. set_solver.
  - destruct (ready_cons _ _ _ _ Hr) as [(su & Hsu & Hi) Hr'].
    destruct (features_body_ok setups a D fr df c v1 v2 su Hsu Hi)
      as (x & y & z & E).
    destruct (IH (<[a := x]> fr) (<[a := y]> df) (<[a := z]> c) v1 v2 Hr')
      as (fr' & df' & c' & E' & H1 & H2 & H3).
    exists fr', df', c'. split.
    + cbn [for_items]. unfold mbind, M_bind. rewrite E. exact E'.
    + rewrite atoms_cons, H1, H2, H3, !dom_insert_L. set_solver.
Qed.

Lemma energy_body_ok nspin (setups : list setup) D_asiq out a D fr df c vfr vdf su :
  setups !! a = Some su -> initialized su ->
  is_Some (D_asiq !! a) -> is_Some (df !! a) -> is_Some (fr !! a) ->
  exists x y o1 o2 o3,
    energy_body N nspin setups D_asiq out a D
      (mk_kernel (Some fr) (Some df) c (Some vfr) (Some vdf))
    = (Ok (mk_energy_out (<[a := o1]> (dvD_asiq out)) (<[a := o2]> (deltaE out))
             (<[a := o3]> (deltaV out))),
       mk_kernel (Some fr) (Some df) c (Some (<[a := x]> vfr))
         (Some (<[a := y]> vdf))).
Proof.
  intros Hsu ([xcc Hxc] & _ & [cc Hcc] & _ & [pa Hpa]) [Ds HD] [dfa Hdf] [fra Hfr].
  unfold energy_body. run_M. unfold getindex. rewrite Hsu. run_M.
  rewrite Hpa. run_M. unfold getitem. rewrite HD. run_M. rewrite Hxc. run_M.
  rewrite Hdf. run_M. rewrite Hfr. run_M.
  destruct (energy_ft_ok N HN nspin pa xcc Ds dfa fra) as (ft & ->). run_M.
  rewrite Hcc. run_M.
  destruct (energy_terms_ok N HN nspin pa xcc cc D Ds ft dfa)
    as ([[[[dvD dE] dV] vfr1] vf1] & ->).
  run_M. exists vfr1, vf1, dvD, dE, dV. reflexivity.
Qed.

Lemma energy_loop_ok nspin (setups : list setup) D_asiq items : forall out fr df c vfr vdf,
  setups_ready setups items ->
  (forall a D, In (a, D) items ->
     is_Some (D_asiq !! a) /\ is_Some (df !! a) /\ is_Some (fr !! a)) ->
  exists out' vfr' vdf',
    energy_loop N nspin setups D_asiq out items
      (mk_kernel (Some fr) (Some df) c (Some vfr) (Some vdf))
    = (Ok out', mk_kernel (Some fr) (Some df) c (Some vfr') (Some vdf')) /\
    dom vfr' = dom vfr ∪ atoms items /\ dom vdf' = dom vdf ∪ atoms items /\
    dom (dvD_asiq out') = dom (dvD_asiq out) ∪ atoms items /\
    dom (deltaE out') = dom (deltaE out) ∪ atoms items /\
    dom (deltaV out') = dom (deltaV out) ∪ atoms items.
Proof.
  induction items as [|[a D] items IH]; intros out fr df c vfr vdf Hr Hin.
  - exists out, vfr, vdf. split; [reflexivity|]. unfold atoms. cbn. set_solver.
  - destruct (ready_cons _ _ _ _ Hr) as [(su & Hsu & Hi) Hr'].
    destruct (Hin a D (or_introl eq_refl)) as (HD & Hdf & Hfr).
    destruct (energy_body_ok nspin setups D_asiq out a D fr df c vfr vdf su
                Hsu Hi HD Hdf Hfr) as (x & y & o1 & o2 & o3 & E).
    destruct (IH (mk_energy_out (<[a := o1]> (dvD_asiq out))
                    (<[a := o2]> (deltaE out)) (<[a := o3]> (deltaV out)))
                fr df c (<[a := x]> vfr) (<[a := y]> vdf) Hr')
      as (out' & vfr' & vdf' & E' & H1 & H2 & H3 & H4 & H5).
    { intros a' D' Hin'. apply (Hin a' D'). right. exact Hin'. }
    exists out', vfr', vdf'. split.
    + cbn [energy_loop]. unfold mbind, M_bind. rewrite E. exact E'.
    + cbn [dvD_asiq deltaE deltaV] in H3, H4, H5.
      rewrite atoms_cons, H1, H2, H3, H4, H5, !dom_insert_L. set_solver.
Qed.

Lemma potential_body_ok nspin (setups : list setup) vc_asiq a D (st : kernel) vfr vdf su :
  vfr_asgLq st = Some vfr -> vdf_asgLq st = Some vdf ->
  setups !! a = Some su -> initialized su ->
  is_Some (vc_asiq !! a) -> is_Some (vdf !! a) -> is_Some (vfr !! a) ->
  exists dH, potential_body N nspin setups vc_asiq a D st = (Ok dH, st).
Proof.
  intros E1 E2 Hsu ([xcc Hxc] & [nl Hnl] & [cc Hcc] & [ps Hps] & _)
    [vc Hvc] [vdfa Hvdf] [vfra Hvfr].
  unfold potential_body. run_M. unfold getindex. rewrite Hsu. run_M.
  rewrite Hps. run_M. rewrite Hxc. run_M. unfold getitem. rewrite Hvc. run_M.
  rewrite E2. run_M. rewrite Hvdf. run_M. rewrite E1. run_M. rewrite Hvfr. run_M.
  destruct (potential_solve_ok N HN ps vc vdfa vfra) as (vdy & ->). run_M.
  rewrite Hnl, Hcc. run_M.
  destruct (potential_terms_ok N HN nspin ps xcc nl cc (rcut_j su) D vfra vdy)
    as (dH & ->).
  exists dH. reflexivity.
Qed.

Lemma potential_loop_ok nspin (setups : list setup) vc_asiq items (st : kernel) vfr vdf :
  forall dH0,
  vfr_asgLq st = Some vfr -> vdf_asgLq st = Some vdf ->
  setups_ready setups items ->
  (forall a D, In (a, D) items ->
     is_Some (vc_asiq !! a) /\ is_Some (vdf !! a) /\ is_Some (vfr !! a)) ->
  exists dH,
    potential_loop N nspin setups vc_asiq dH0 items st = (Ok dH, st) /\
    dom dH = dom dH0 ∪ atoms items.
Proof.
  induction items as [|[a D] items IH]; intros dH0 E1 E2 Hr Hin.
  - exists dH0. split; [reflexivity|]. unfold atoms. cbn. set_solver.
  - destruct (ready_cons _ _ _ _ Hr) as [(su & Hsu & Hi) Hr'].
    destruct (Hin a D (or_introl eq_refl)) as (Hvc & Hvdf & Hvfr).
    destruct (potential_body_ok nspin setups vc_asiq a D st vfr vdf su
                E1 E2 Hsu Hi Hvc Hvdf Hvfr) as (dHa & E).
    destruct (IH (<[a := dHa]> dH0) E1 E2 Hr') as (dH & E' & Hd).
    { intros a' D' Hin'. apply (Hin a' D'). right. exact Hin'. }
    exists dH. split.
    + cbn [potential_loop]. unfold mbind, M_bind. rewrite E. exact E'.
    + rewrite atoms_cons, Hd, dom_insert_L. set_solver.
Qed.

Lemma in_atoms a (D : arr) items : In (a, D) items -> a ∈ atoms items.
Proof.
  intros H. unfold atoms. apply elem_of_list_to_set, list_elem_of_In.
  apply in_map_iff. exists (a, D). split; [reflexivity|exact H].
Qed.

Lemma dom_has {A} (m : gmap nat A) (X : gset nat) a :
  dom m = ∅ ∪ X -> a ∈ X -> is_Some (m !! a).
Proof. intros Hd Ha. apply elem_of_dom. rewrite Hd. set_solver. Qed.

(** A round in the order features, energy, potential returns at every
    stage when every atom of [D_asp] has an initialized setup, the
    mappings passed in have an entry for every atom and the numerical
    parts do not raise; the mappings returned have exactly the atoms of
    [D_asp] as keys, whatever the kernel held before, and the potential
    stage leaves the state as the energy stage left it. *)
Theorem round_in_order (setups : list setup) (D_asp : list (nat * arr))
    (D_asiq df_arg vc_asiq : gmap nat arr) (st : kernel) :
  setups_ready setups D_asp ->
  (forall a D, In (a, D) D_asp ->
     is_Some (D_asiq !! a) /\ is_Some (vc_asiq !! a)) ->
  let r1 := calculate_paw_feat_corrections N setups D_asp None None None st in
  let r2 := calculate_paw_feat_corrections N setups D_asp
              (Some D_asiq) (Some df_arg) None (snd r1) in
  let r3 := calculate_paw_feat_corrections N setups D_asp
              None None (Some vc_asiq) (snd r2) in
  exists c df dvD dE dV dH,
    fst r1 = Ok (RFeatures (c, df)) /\
    fst r2 = Ok (REnergy (dvD, dE, dV)) /\
    fst r3 = Ok (RPotential dH) /\
    dom c = atoms D_asp /\ dom df = atoms D_asp /\
    dom dvD = atoms D_asp /\ dom dE = atoms D_asp /\ dom dV = atoms D_asp /\
    dom dH = atoms D_asp /\
    snd r3 = snd r2.
Proof.
  intros Hr Hin r1 r2 r3.
  destruct D_asp as [|[a0 D0] rest].
  - exists ∅, ∅, ∅, ∅, ∅, ∅. unfold atoms. cbn. repeat split; set_solver.
  - set (items := (a0, D0) :: rest) in *.
    destruct (features_loop_ok setups items ∅ ∅ ∅ (vfr_asgLq st) (vdf_asgLq st) Hr)
      as (fr & df & c & E1 & Hfr & Hdf & Hc).
    assert (R1 : r1 = (Ok (RFeatures (c, df)),
                       mk_kernel (Some fr) (Some df) (Some c)
                         (vfr_asgLq st) (vdf_asgLq st))).
    { unfold r1, calculate_paw_feat_corrections, calculate_paw_cider_features,
        items, is_cider_functional. rewrite orb_true_r.
      fold items. run_M. rewrite E1. reflexivity. }
    destruct (energy_loop_ok (shape0 N D0) setups D_asiq items
                (mk_energy_out ∅ ∅ ∅) fr df (Some c) ∅ ∅ Hr)
      as (out & vfr & vdf & E2 & Hvfr & Hvdf & H3 & H4 & H5).
    { intros a D Ha. destruct (Hin a D Ha) as [HD _].
      split; [exact HD|].
      split; [apply (dom_has df _ a Hdf), (in_atoms a D), Ha
             |apply (dom_has fr _ a Hfr), (in_atoms a D), Ha]. }
    assert (R2 : r2 = (Ok (REnergy (dvD_asiq out, deltaE out, deltaV out)),
                       mk_kernel (Some fr) (Some df) (Some c)
                         (Some vfr) (Some vdf))).
    { unfold r2. rewrite R1. cbn [snd].
      unfold calculate_paw_feat_corrections, calculate_paw_cider_energy, items.
      fold items. run_M.
      rewrite bool_decide_true by (eexists; reflexivity). run_M.
      rewrite E2. reflexivity. }
    destruct (potential_loop_ok (shape0 N D0) setups vc_asiq items
                (mk_kernel (Some fr) (Some df) (Some c) (Some vfr) (Some vdf))
                vfr vdf ∅ eq_refl eq_refl Hr)
      as (dH & E3 & HdH).
    { intros a D Ha. destruct (Hin a D Ha) as [_ Hvc].
      split; [exact Hvc|].
      split; [apply (dom_has vdf _ a Hvdf), (in_atoms a D), Ha
             |apply (dom_has vfr _ a Hvfr), (in_atoms a D), Ha]. }
    assert (R3 : r3 = (Ok (RPotential dH),
                       mk_kernel (Some fr) (Some df) (Some c)
                         (Some vfr) (Some vdf))).
    { unfold r3. rewrite R2. cbn [snd].
      unfold calculate_paw_feat_corrections, calculate_paw_cider_potential,
        items, is_cider_functional. rewrite orb_true_r.
      fold items. run_M. rewrite E3. reflexivity. }
    exists c, df, (dvD_asiq out), (deltaE out), (deltaV out), dH.
    rewrite R1, R2, R3. cbn [fst snd dvD_asiq deltaE deltaV] in *.
    rewrite Hc, Hdf, H3, H4, H5, HdH.
    repeat split; set_solver.
Qed.

End Rounds.

Section Frames.

Context {arr xc_t nlxc_t contribs_t ps_t pa_t : Type}.
Local Abbreviation setup := (setup arr xc_t nlxc_t contribs_t ps_t pa_t).
Local Abbreviation numerics := (numerics arr xc_t nlxc_t contribs_t ps_t pa_t).
Local Abbreviation kernel := (kernel arr).

Local Set Warnings "-clear-no-such-hyp".

Ltac run_M :=
  cbv [mbind M_bind mret M_ret pure assert_ getattr
       read_fr read_df read_c read_vfr read_vdf
       assign_fr assign_df assign_c assign_vfr assign_vdf
       store_fr store_df store_c store_vfr store_vdf];
  cbv beta iota;
  cbn [fr_asgLq df_asgLq c_asiq vfr_asgLq vdf_asgLq fst snd].

(** Case analysis on every value a body inspects. *)
Ltac all_cases :=
  repeat match goal with
         | |- context [match ?x with _ => _ end] =>
             lazymatch x with
             | context [match _ with _ => _ end] => fail
             | _ => destruct x; run_M
             end
         end.

Variable N : numerics.

(** One iteration of the feature stage reads and writes [fr_asgLq],
    [df_asgLq] and [c_asiq] only. *)
Lemma features_body_frame (setups : list setup) a D f d c v1 v2 w1 w2 :
  exists r f' d' c',
    features_body N setups a D (mk_kernel f d c v1 v2)
    = (r, mk_kernel f' d' c' v1 v2) /\
    features_body N setups a D (mk_kernel f d c w1 w2)
    = (r, mk_kernel f' d' c' w1 w2).
Proof.
  unfold features_body. run_M. unfold getindex, getitem.
  all_cases; do 4 eexists; split; reflexivity.
Qed.

Lemma features_loop_frame (setups : list setup) items : forall f d c v1 v2 w1 w2,
  exists r f' d' c',
    for_items (features_body N setups) items (mk_kernel f d c v1 v2)
    = (r, mk_kernel f' d' c' v1 v2) /\
    for_items (features_body N setups) items (mk_kernel f d c w1 w2)
    = (r, mk_kernel f' d' c' w1 w2).
Proof.
  induction items as [|[a D] items IH]; intros f d c v1 v2 w1 w2.
  - exists (Ok tt), f, d, c. split; reflexivity.
  - destruct (features_body_frame setups a D f d c v1 v2 w1 w2)
      as (r & f1 & d1 & c1 & E1 & E2).
    cbn [for_items]. unfold mbind, M_bind. rewrite E1, E2.
    destruct r as [[]|e].
    + apply IH.
    + exists (Raise e), f1, d1, c1. split; reflexivity.
Qed.

(** The feature stage does not depend on what an earlier round has
    stored: its result, and the [fr_asgLq], [df_asgLq] and [c_asiq] it
    leaves for a non-empty [D_asp], are the same from every state, and
    it never touches [vfr_asgLq] and [vdf_asgLq]. *)
Theorem features_overwrite (setups : list setup) (D_asp : list (nat * arr))
    (st st' : kernel) :
  let r := calculate_paw_cider_features N setups D_asp st in
  let r' := calculate_paw_cider_features N setups D_asp st' in
  fst r = fst r' /\
  vfr_asgLq (snd r) = vfr_asgLq st /\ vdf_asgLq (snd r) = vdf_asgLq st /\
  (D_asp <> [] ->
   fr_asgLq (snd r) = fr_asgLq (snd r') /\
   df_asgLq (snd r) = df_asgLq (snd r') /\
   c_asiq (snd r) = c_asiq (snd r')).
Proof.
  intros r r'. unfold r, r', calculate_paw_cider_features.
  destruct D_asp as [|[a0 D0] rest].
  - cbn. split; [reflexivity|]. split; [reflexivity|]. split; [reflexivity|].
    intros Hne. contradiction.
  - set (items := (a0, D0) :: rest).
    unfold is_cider_functional. rewrite orb_true_r. run_M.
    destruct (features_loop_frame setups items (Some ∅) (Some ∅) (Some ∅)
                (vfr_asgLq st) (vdf_asgLq st) (vfr_asgLq st') (vdf_asgLq st'))
      as (res & f' & d' & c' & E1 & E2).
    rewrite E1, E2. destruct res as [[]|e]; run_M.
    + destruct c'; run_M; [destruct d'; run_M|]; repeat split.
    + repeat split.
Qed.

(** One iteration of the energy stage leaves [fr_asgLq], [df_asgLq] and
    [c_asiq] alone and adds at most the entry of its atom to
    [vfr_asgLq] and [vdf_asgLq]; when [df_asgLq] is absent it raises
    and adds nothing. *)
Lemma energy_body_frame nspin (setups : list setup) D_asiq out a D f d c
    (v1 v2 : gmap nat arr) :
  exists r v1' v2',
    energy_body N nspin setups D_asiq out a D (mk_kernel f d c (Some v1) (Some v2))
    = (r, mk_kernel f d c (Some v1') (Some v2')) /\
    dom v1' ⊆ dom v1 ∪ {[a]} /\ dom v2' ⊆ dom v2 ∪ {[a]} /\
    (d = None -> is_ok r = false /\ v1' = v1 /\ v2' = v2).
Proof.
  unfold energy_body. run_M. unfold getindex, getitem.
  all_cases; do 3 eexists;
    (split; [reflexivity|]);
    rewrite ?dom_insert_L;
    (split; [set_solver|]); (split; [set_solver|]);
    intros Hd; try discriminate Hd; repeat split.
Qed.

Lemma energy_loop_frame nspin (setups : list setup) D_asiq items :
  forall out f d c (v1 v2 : gmap nat arr),
  exists r v1' v2',
    energy_loop N nspin setups D_asiq out items (mk_kernel f d c (Some v1) (Some v2))
    = (r, mk_kernel f d c (Some v1') (Some v2')) /\
    dom v1' ⊆ dom v1 ∪ atoms items /\ dom v2' ⊆ dom v2 ∪ atoms items /\
    (d = None -> items <> [] -> is_ok r = false /\ v1' = v1 /\ v2' = v2).
Proof.
  induction items as [|[a D] items IH]; intros out f d c v1 v2.
  - exists (Ok out), v1, v2. split; [reflexivity|].
    split; [set_solver|]. split; [set_solver|]. intros _ H. contradiction.
  - destruct (energy_body_frame nspin setups D_asiq out a D f d c v1 v2)
      as (r & w1 & w2 & E & H1 & H2 & H3).
    cbn [energy_loop]. unfold mbind, M_bind. rewrite E.
    destruct r as [out1|e].
    + destruct (IH out1 f d c w1 w2) as (r' & u1 & u2 & E' & K1 & K2 & K3).
      exists r', u1, u2. split; [exact E'|].
      rewrite atoms_cons. split; [set_solver|]. split; [set_solver|].
      intros Hd _. destruct (H3 Hd) as [Habs _]. discriminate.
    + exists (Raise e), w1, w2. split; [reflexivity|].
      rewrite atoms_cons. split; [set_solver|]. split; [set_solver|].
      intros Hd _. destruct (H3 Hd) as (_ & -> & ->). repeat split.
Qed.

(** The energy stage on a non-empty [D_asp] starts by replacing
    [vfr_asgLq] and [vdf_asgLq] by empty dicts: whether it returns or
    raises, what they hold afterwards are entries of atoms of this
    call, and [fr_asgLq], [df_asgLq] and [c_asiq] are as before.  Called
    before the feature stage has ever run, it raises and leaves both
    dicts empty, so what an earlier round stored in them is gone. *)
Theorem energy_resets (setups : list setup) (a : nat) (D : arr)
    (rest : list (nat * arr)) (D_asiq : gmap nat arr) (st : kernel) :
  let r := calculate_paw_cider_energy N setups ((a, D) :: rest) D_asiq st in
  fr_asgLq (snd r) = fr_asgLq st /\ df_asgLq (snd r) = df_asgLq st /\
  c_asiq (snd r) = c_asiq st /\
  exists v1 v2,
    vfr_asgLq (snd r) = Some v1 /\ vdf_asgLq (snd r) = Some v2 /\
    dom v1 ⊆ atoms ((a, D) :: rest) /\ dom v2 ⊆ atoms ((a, D) :: rest) /\
    (df_asgLq st = None -> is_ok (fst r) = false /\ v1 = ∅ /\ v2 = ∅).
Proof.
  intros r. unfold r, calculate_paw_cider_energy. run_M.
  destruct (energy_loop_frame (shape0 N D) setups D_asiq ((a, D) :: rest)
              (mk_energy_out ∅ ∅ ∅) (fr_asgLq st) (df_asgLq st) (c_asiq st) ∅ ∅)
    as (res & v1 & v2 & E & H1 & H2 & H3).
  rewrite E. rewrite dom_empty_L in H1, H2.
  assert (Hne : (a, D) :: rest <> []) by discriminate.
  destruct res as [out|e]; run_M.
  - split; [reflexivity|]. split; [reflexivity|]. split; [reflexivity|].
    exists v1, v2. split; [reflexivity|]. split; [reflexivity|].
    split; [set_solver|]. split; [set_solver|].
    intros Hd. destruct (H3 Hd Hne) as (Hok & _). discriminate.
  - split; [reflexivity|]. split; [reflexivity|]. split; [reflexivity|].
    exists v1, v2. split; [reflexivity|]. split; [reflexivity|].
    split; [set_solver|]. split; [set_solver|].
    intros Hd. destruct (H3 Hd Hne) as (_ & Hv1 & Hv2).
    split; [reflexivity|]. split; assumption.
Qed.

End Frames.

Lemma N0_total : numerics_total N0.
Proof. split; intros; eexists; reflexivity. Qed.

Lemma setups0_ready : setups_ready setups0 D_asp0.
Proof.
  intros a D [H|[]]. injection H as <- <-.
  eexists. split; [reflexivity|]. repeat split; eexists; reflexivity.
Qed.

Lemma round_in_order_witness :
  let call := calculate_paw_feat_corrections N0 setups0 D_asp0 in
  let r1 := call None None None fresh in
  let r2 := call (Some D_asiq0) (Some ∅) None (snd r1) in
  let r3 := call None None (Some vc_asiq0) (snd r2) in
  exists c df dvD dE dV dH,
    fst r1 = Ok (RFeatures (c, df)) /\
    fst r2 = Ok (REnergy (dvD, dE, dV)) /\
    fst r3 = Ok (RPotential dH) /\
    dom c = atoms D_asp0 /\ dom df = atoms D_asp0 /\
    dom dvD = atoms D_asp0 /\ dom dE = atoms D_asp0 /\ dom dV = atoms D_asp0 /\
    dom dH = atoms D_asp0 /\
    snd r3 = snd r2.
Proof.
  apply (round_in_order N0 N0_total setups0 D_asp0 D_asiq0 ∅ vc_asiq0 fresh
           setups0_ready).
  intros a D [H|[]]. injection H as <- <-.
  split; eexists; reflexivity.
Defined.

End KernelMoreFacts.

(** ** Grid points around an atom *)

Module SlicesFacts.

Import Py LA Setups Slices.

Local Open Scope R_scope.

Lemma astype_int_IZR (z : Z) : astype_int (IZR z) = z.
Proof.
  unfold astype_int. destruct (Rle_dec 0 (IZR z)).
  - apply ZfloorZ.
  - unfold Zceil. rewrite ZfloorNZ. lia.
Qed.

(** [np.round] returns an integer at most one half away. *)
Lemma np_round_near (x : R) :
  exists c : Z, np_round x = IZR c /\ Rabs (IZR c - x) <= 1 / 2.
Proof.
  unfold np_round. pose proof (Zfloor_bound x) as [H1 H2].
  destruct (Rlt_dec (x - IZR (Zfloor x)) (1 / 2)) as [Hlo|Hlo].
  - exists (Zfloor x). split; [reflexivity|].
    apply Rabs_le. lra.
  - destruct (Rlt_dec (1 / 2) (x - IZR (Zfloor x))) as [Hhi|Hhi].
    + exists (Zfloor x + 1)%Z. split; [reflexivity|].
      rewrite plus_IZR. apply Rabs_le. lra.
    + destruct (Z.even (Zfloor x)).
      * exists (Zfloor x). split; [reflexivity|]. apply Rabs_le. lra.
      * exists (Zfloor x + 1)%Z. split; [reflexivity|].
        rewrite plus_IZR. apply Rabs_le. lra.
Qed.

Lemma ag_center_near (shape : nat -> Z) (spos_c : vec) (i : nat) :
  Rabs (IZR (ag_center shape spos_c i) - spos_c i * IZR (shape i)) <= 1 / 2.
Proof.
  unfold ag_center.
  destruct (np_round_near (spos_c i * IZR (shape i))) as (c & -> & H).
  rewrite astype_int_IZR. exact H.
Qed.

Lemma in_arange (lo hi n : Z) : In n (arange lo hi) <-> (lo <= n < hi)%Z.
Proof.
  unfold arange. rewrite in_map_iff. split.
  - intros (k & <- & Hk). apply in_seq in Hk. lia.
  - intros H. exists (Z.to_nat (n - lo)). split; [lia|].
    apply in_seq. lia.
Qed.

Lemma arange_length (lo hi : Z) : length (arange lo hi) = Z.to_nat (hi - lo).
Proof. unfold arange. rewrite length_map, length_seq. reflexivity. Qed.

Lemma combine_map_same {A B C} (f : A -> B) (g : A -> C) (l : list A) :
  combine (map f l) (map g l) = map (fun a => (f a, g a)) l.
Proof. induction l as [|a l IH]; cbn; [reflexivity|]. rewrite IH. reflexivity. Qed.

(** Selecting with a mask computed entry by entry is filtering. *)
Lemma bool_index_map {A B} (t : A -> bool) (g : A -> B) (l : list A) :
  bool_index (map t l) (map g l) = map g (List.filter t l).
Proof.
  unfold bool_index. induction l as [|a l IH]; cbn; [reflexivity|].
  destruct (t a); cbn; rewrite IH; reflexivity.
Qed.

(** The entries of one axis, in both modes, as images of the window. *)
Lemma ag_axis (fft_obj : fft_t) (gd : gd_t) (shape : nat -> Z) (spos_c : vec)
    (rmax : R) (buffer : Z) (global : bool) (i : nat) :
  (i < 3)%nat ->
  let out := get_ag_indices fft_obj gd shape spos_c rmax buffer global in
  let lb := if global then 0%Z else fst (get_bound_inds fft_obj) i in
  let ub := if global then shape i else snd (get_bound_inds fft_obj) i in
  let keep := fun n =>
    if global then true
    else (lb <=? np_mod n (shape i))%Z && (np_mod n (shape i) <? ub)%Z in
  let rows := List.filter keep (ag_window gd shape spos_c rmax buffer i) in
  fst out !! i = Some (map (fun n => (np_mod n (shape i) - lb)%Z) rows) /\
  snd out !! i = Some (map (fun n => IZR n / IZR (shape i) - spos_c i) rows).
Proof.
  intros Hi out lb ub keep rows.
  unfold out, get_ag_indices, rows, keep, lb, ub.
  destruct global.
  - assert (Hid : forall l : list Z, List.filter (fun _ => true) l = l).
    { induction l as [|a l IH]; cbn; [reflexivity|]. rewrite IH. reflexivity. }
    rewrite Hid.
    assert (Hz : forall l : list Z,
               map (fun n => (np_mod n (shape i) - 0)%Z) l
               = map (fun n => np_mod n (shape i)) l).
    { intros l. apply map_ext. intros a. lia. }
    rewrite Hz.
    destruct i as [|[|[|i]]]; [| | |lia]; split; reflexivity.
  - destruct (get_bound_inds fft_obj) as [lbf ubf]. cbn [fst snd].
    assert (E1 : forall j,
      map (fun a => (a - lbf j)%Z)
        (bool_index
           (map (fun a => (lbf j <=? a)%Z && (a <? ubf j)%Z)
              (map (fun a => np_mod a (shape j))
                 (ag_window gd shape spos_c rmax buffer j)))
           (map (fun a => np_mod a (shape j))
              (ag_window gd shape spos_c rmax buffer j)))
      = map (fun n => (np_mod n (shape j) - lbf j)%Z)
          (List.filter
             (fun n => (lbf j <=? np_mod n (shape j))%Z
                       && (np_mod n (shape j) <? ubf j)%Z)
             (ag_window gd shape spos_c rmax buffer j))).
    { intros j. rewrite (map_map (fun a => np_mod a (shape j))
                           (fun a => (lbf j <=? a)%Z && (a <? ubf j)%Z)).
      rewrite bool_index_map, map_map. reflexivity. }
    assert (E2 : forall j,
      bool_index
        (map (fun a => (lbf j <=? a)%Z && (a <? ubf j)%Z)
           (map (fun a => np_mod a (shape j))
              (ag_window gd shape spos_c rmax buffer j)))
        (map (fun a => IZR a / IZR (shape j) - spos_c j)
           (ag_window gd shape spos_c rmax buffer j))
      = map (fun n => IZR n / IZR (shape j) - spos_c j)
          (List.filter
             (fun n => (lbf j <=? np_mod n (shape j))%Z
                       && (np_mod n (shape j) <? ubf j)%Z)
             (ag_window gd shape spos_c rmax buffer j))).
    { intros j. rewrite (map_map (fun a => np_mod a (shape j))
                           (fun a => (lbf j <=? a)%Z && (a <? ubf j)%Z)).
      rewrite bool_index_map. reflexivity. }
    destruct i as [|[|[|i]]]; [| | |lia]; cbn [map axes lookup list_lookup];
      rewrite E1, E2; split; reflexivity.
Qed.

(** [get_ag_indices], on each axis [i] with a positive number of grid
    points: the two lists returned have the same length, [2 disp + 1]
    in global mode; every index is a valid position, below [shape[i]]
    in global mode and inside the local block [lbound, ubound)
    otherwise; and the displacement paired with an index belongs to a
    grid point [n] of the window around [center] that the index is the
    periodic image of, so that it differs from [(n - center) / shape[i]]
    by at most half a grid spacing. *)
Theorem get_ag_indices_entries (fft_obj : fft_t) (gd : gd_t) (shape : nat -> Z)
    (spos_c : vec) (rmax : R) (buffer : Z) (global : bool) (i : nat) :
  (i < 3)%nat -> (0 < shape i)%Z ->
  let out := get_ag_indices fft_obj gd shape spos_c rmax buffer global in
  let center := ag_center shape spos_c i in
  let disp := ag_disp gd shape rmax buffer i in
  let lb := if global then 0%Z else fst (get_bound_inds fft_obj) i in
  let ub := if global then shape i else snd (get_bound_inds fft_obj) i in
  exists ind fd,
    fst out !! i = Some ind /\ snd out !! i = Some fd /\
    length ind = length fd /\
    (global = true -> length ind = Z.to_nat (2 * disp + 1)) /\
    forall a x, In (a, x) (combine ind fd) ->
      (0 <= a < ub - lb)%Z /\
      exists n : Z,
        (center - disp <= n <= center + disp)%Z /\
        (a + lb)%Z = (n mod shape i)%Z /\
        x = IZR n / IZR (shape i) - spos_c i /\
        Rabs (x - IZR (n - center) / IZR (shape i)) <= 1 / (2 * IZR (shape i)).
Proof.
  intros Hi Hs out center disp lb ub.
  destruct (ag_axis fft_obj gd shape spos_c rmax buffer global i Hi) as [E1 E2].
  fold out lb ub in E1, E2.
  eexists _, _. split; [exact E1|]. split; [exact E2|].
  split; [rewrite !length_map; reflexivity|].
  split.
  { intros ->. rewrite length_map.
    assert (Hid : forall l : list Z, List.filter (fun _ => true) l = l).
    { induction l as [|a l IH]; cbn; [reflexivity|]. rewrite IH. reflexivity. }
    rewrite Hid. unfold ag_window. rewrite arange_length.
    fold center disp. f_equal. lia. }
  intros a x Hin. rewrite combine_map_same in Hin.
  apply in_map_iff in Hin. destruct Hin as (n & Heq & Hn).
  injection Heq as <- <-.
  apply filter_In in Hn. destruct Hn as [Hw Hk].
  unfold ag_window in Hw. apply in_arange in Hw. fold center disp in Hw.
  assert (Hm : np_mod n (shape i) = (n mod shape i)%Z).
  { unfold np_mod. destruct (Z.eqb_spec (shape i) 0); [lia|reflexivity]. }
  rewrite Hm in *.
  pose proof (Z.mod_pos_bound n (shape i) Hs) as Hb.
  split.
  { unfold lb, ub in *. destruct global; [lia|].
    apply andb_prop in Hk. destruct Hk as [K1 K2].
    apply Z.leb_le in K1. apply Z.ltb_lt in K2. lia. }
  exists n. split; [lia|]. split; [lia|]. split; [reflexivity|].
  pose proof (ag_center_near shape spos_c i) as Hc. fold center in Hc.
  assert (Hsr : 0 < IZR (shape i)) by (apply IZR_lt; exact Hs).
  replace (IZR n / IZR (shape i) - spos_c i - IZR (n - center) / IZR (shape i))
    with ((IZR center - spos_c i * IZR (shape i)) / IZR (shape i))
    by (rewrite minus_IZR; field; lra).
  unfold Rdiv at 1. rewrite Rabs_mult, (Rabs_right (/ IZR (shape i))).
  2:{ apply Rle_ge. left. apply Rinv_0_lt_compat. exact Hsr. }
  replace (1 / (2 * IZR (shape i))) with (1 / 2 * / IZR (shape i))
    by (field; lra).
  apply Rmult_le_compat_r; [|exact Hc].
  left. apply Rinv_0_lt_compat. exact Hsr.
Qed.

(** The index and the fraction of one grid point. *)
Lemma locate_point (oor : R -> Z) (h rad : R) (n : nat) :
  0 < h -> (2 <= n)%nat ->
  let gk := Z.min (astype_int32 oor (np_floor (rad / h))) (Z.of_nat n - 1) in
  let dgk := rad / h - IZR gk in
  rad = (IZR gk + dgk) * h /\ (gk <= Z.of_nat n - 1)%Z /\
  (0 <= rad -> rad / h < 2147483648 ->
   (0 <= gk)%Z /\ 0 <= dgk /\ (dgk < 1 <-> rad < INR n * h)).
Proof.
  intros Hh Hn. cbv zeta. unfold astype_int32, np_floor.
  rewrite astype_int_IZR.
  set (g0 := if int32_fits (Zfloor (rad / h)) then Zfloor (rad / h)
             else oor (IZR (Zfloor (rad / h)))).
  set (gk := Z.min g0 (Z.of_nat n - 1)).
  set (dgk := rad / h - IZR gk).
  pose proof (Zfloor_bound (rad / h)) as [F1 F2].
  split; [unfold dgk; field; lra|]. split; [unfold gk; lia|].
  intros Hr Hfit.
  assert (Hq : 0 <= rad / h).
  { unfold Rdiv. apply Rmult_le_pos; [exact Hr|].
    left. apply Rinv_0_lt_compat. exact Hh. }
  assert (Hf : (0 <= Zfloor (rad / h))%Z) by (apply Zfloor_lub; exact Hq).
  assert (Hf2 : (Zfloor (rad / h) < 2147483648)%Z).
  { apply lt_IZR. lra. }
  assert (Eg0 : g0 = Zfloor (rad / h)).
  { unfold g0, int32_fits.
    destruct (Z.leb_spec (-2147483648) (Zfloor (rad / h))); [|lia].
    destruct (Z.ltb_spec (Zfloor (rad / h)) 2147483648); [|lia].
    reflexivity. }
  assert (Hg : (0 <= gk)%Z) by (unfold gk; lia).
  assert (Hle : IZR gk <= IZR (Zfloor (rad / h))).
  { apply IZR_le. unfold gk. lia. }
  split; [exact Hg|]. split; [unfold dgk; lra|].
  assert (Hnn : IZR (Z.of_nat n) = INR n) by (symmetry; apply INR_IZR_INZ).
  assert (Hrad : rad = rad / h * h) by (field; lra).
  split.
  - intros Hd. unfold dgk in Hd.
    assert (Hg1 : IZR gk + 1 <= INR n).
    { rewrite <- Hnn. rewrite <- (plus_IZR gk 1). apply IZR_le. unfold gk. lia. }
    rewrite Hrad. apply Rmult_lt_compat_r; [exact Hh|]. lra.
  - intros Hlt.
    assert (Hq2 : rad / h < INR n).
    { apply (Rmult_lt_reg_r h); [exact Hh|]. rewrite <- Hrad. exact Hlt. }
    assert (Hfn : (Zfloor (rad / h) < Z.of_nat n)%Z).
    { apply lt_IZR. rewrite Hnn. lra. }
    assert (Hgk : gk = Zfloor (rad / h)) by (unfold gk; lia).
    unfold dgk. rewrite Hgk. lra.
Qed.

(** [from_gd_and_setup] reaches the constructor of the slice when
    overlap fitting is asked for on a global grid only, a radius is
    given or the setup has an [rcut], the grid routine returns and the
    interpolation grid has at least two and at most [2^31] points; what
    it returns or raises from there is what the constructor does with
    the arguments [args].  These hold one entry for each point kept,
    which with [sphere] are the points within [rmax].  On a grid of
    positive spacing [h] the index [g] and the fraction [dg] of a point
    satisfy [rad = (g + dg) * h] with [g] at most the last grid index;
    for a radius that is not negative and whose [rad / h] is inside the
    range of [np.int32], [g] and [dg] are not negative either and [dg]
    is below 1 exactly when the radius lies inside the grid,
    [rad < size * h]. *)
Theorem from_gd_and_setup_locates {S} (E : slice_ext S) (gd : gd_t)
    (spos_c : vec) (psetup : PASDWData) (rcut : option R) (fft_obj : fft_t)
    (rmax : R) (sphere ovlp_fit store_funcs is_global : bool) (rm : R)
    (pts : list point) :
  let rgd := interp_rgd psetup in
  let h := r_g rgd 1%nat - r_g rgd 0%nat in
  let ag := get_ag_indices fft_obj gd (get_size_of_global_array gd) spos_c rm 0
              is_global in
  ovlp_fit && negb is_global = false ->
  (if Req_dec_T rmax 0 then rcut else Some rmax) = Some rm ->
  get_radial_info_for_atom fft_obj (fst ag) (snd ag) = Ok pts ->
  (2 <= n_g rgd)%nat -> (Z.of_nat (n_g rgd) <= 2147483648)%Z -> 0 < h ->
  exists args,
    from_gd_and_setup E gd spos_c psetup rcut fft_obj rmax sphere ovlp_fit
      store_funcs is_global = FastAtomPASDWSlice_init E args /\
    sl_rmax args = rm /\ sl_h args = h /\ sl_psetup args = psetup /\
    sl_dv args = dv gd /\ sl_ovlp_fit args = ovlp_fit /\
    sl_store_funcs args = store_funcs /\
    length (sl_indset args) = length (sl_rad_g args) /\
    length (sl_g args) = length (sl_rad_g args) /\
    length (sl_dg args) = length (sl_rad_g args) /\
    length (sl_rhat_gv args) = length (sl_rad_g args) /\
    sl_rad_g args
    = (if sphere then List.filter (fun r => if Rle_dec r rm then true else false)
                        (map p_rad pts)
       else map p_rad pts) /\
    forall k rad gk dgk,
      sl_rad_g args !! k = Some rad -> sl_g args !! k = Some gk ->
      sl_dg args !! k = Some dgk ->
      rad = (IZR gk + dgk) * h /\ (gk <= Z.of_nat (n_g rgd) - 1)%Z /\
      (0 <= rad -> rad / h < 2147483648 ->
       (0 <= gk)%Z /\ 0 <= dgk /\ (dgk < 1 <-> rad < INR (n_g rgd) * h)).
Proof.
  intros rgd h ag Hov Hrm Hext Hn Hn31 Hh.
  unfold from_gd_and_setup. rewrite Hov.
  assert (E0 : (if Req_dec_T rmax 0 then getattr "rcut" rcut else Ok rmax)
               = Ok rm).
  { destruct (Req_dec_T rmax 0); [rewrite Hrm; reflexivity|].
    injection Hrm as ->. reflexivity. }
  rewrite E0. cbn [mbind res_bind Py.bind].
  fold ag. destruct ag as [indices fdisps] eqn:Eag. cbn [fst snd] in Hext.
  rewrite Hext. cbn [mbind res_bind Py.bind].
  fold rgd. unfold r_g_at.
  destruct (Nat.ltb_spec 1 (n_g rgd)) as [_|]; [|lia].
  destruct (Nat.ltb_spec 0 (n_g rgd)) as [_|]; [|lia].
  cbn [mbind res_bind Py.bind]. fold h.
  unfold minimum_int32.
  assert (Hb : int32_fits (Z.of_nat (n_g rgd) - 1) = true).
  { unfold int32_fits.
    destruct (Z.leb_spec (-2147483648) (Z.of_nat (n_g rgd) - 1)); [|lia].
    destruct (Z.ltb_spec (Z.of_nat (n_g rgd) - 1) 2147483648); [|lia].
    reflexivity. }
  rewrite Hb. cbn [mbind res_bind Py.bind].
  set (kept := if sphere then List.filter _ pts else pts).
  eexists. split; [reflexivity|].
  cbn [sl_rmax sl_h sl_indset sl_rad_g sl_g sl_dg sl_rhat_gv sl_psetup sl_dv
       sl_ovlp_fit sl_store_funcs].
  split; [reflexivity|]. split; [reflexivity|]. split; [reflexivity|].
  split; [reflexivity|]. split; [reflexivity|]. split; [reflexivity|].
  split; [rewrite !length_map; reflexivity|].
  split; [rewrite !length_map; reflexivity|].
  split.
  { rewrite length_zip_with, !length_map. lia. }
  split; [rewrite !length_map; reflexivity|].
  split.
  { unfold kept. destruct sphere; [|reflexivity].
    clear. induction pts as [|p pts IH]; cbn; [reflexivity|].
    destruct (Rle_dec (p_rad p) rm); cbn; rewrite IH; reflexivity. }
  intros k rad gk dgk Hrad Hgk Hdgk.
  change (map p_rad kept) with (p_rad <$> kept) in Hrad.
  rewrite list_lookup_fmap in Hrad.
  destruct (kept !! k) as [p|] eqn:Ep; [|discriminate].
  cbn in Hrad. injection Hrad as <-.
  apply lookup_zip_with_Some in Hdgk.
  destruct Hdgk as (x & z & -> & Hx & Hz).
  rewrite Hz in Hgk. injection Hgk as ->.
  repeat match type of Hx with
         | context [map ?f ?l] => change (map f l) with (f <$> l) in Hx
         end.
  repeat match type of Hz with
         | context [map ?f ?l] => change (map f l) with (f <$> l) in Hz
         end.
  rewrite !list_lookup_fmap, Ep in Hz. rewrite list_lookup_fmap, Ep in Hx.
  cbn in Hx, Hz. injection Hx as <-. injection Hz as <-.
  exact (locate_point (int32_out_of_range E) h (p_rad p) (n_g rgd) Hh Hn).
Qed.

(** What makes [from_gd_and_setup] raise, in the order of the checks:
    [ValueError] for overlap fitting on a grid that is not global,
    whatever the other arguments; then, with the default [rmax = 0],
    [AttributeError] for a setup without [rcut]; then what the grid
    routine raises; then [IndexError] for an interpolation grid of
    fewer than two points. *)
Theorem from_gd_and_setup_raises {S} (E : slice_ext S) (gd : gd_t)
    (spos_c : vec) (psetup : PASDWData) (rcut : option R) (fft_obj : fft_t)
    (rmax : R) (sphere ovlp_fit store_funcs is_global : bool) :
  let call := from_gd_and_setup E gd spos_c psetup rcut fft_obj rmax sphere
                ovlp_fit store_funcs is_global in
  (ovlp_fit = true -> is_global = false ->
   call = Raise (ValueError "Need global grid set for overlap fitting")) /\
  (ovlp_fit && negb is_global = false ->
   (rmax = 0 -> rcut = None -> call = Raise (AttributeError "rcut")) /\
   forall rm, (if Req_dec_T rmax 0 then rcut else Some rmax) = Some rm ->
     let ag := get_ag_indices fft_obj gd (get_size_of_global_array gd) spos_c
                 rm 0 is_global in
     (forall e, get_radial_info_for_atom fft_obj (fst ag) (snd ag) = Raise e ->
                call = Raise e) /\
     (forall pts, get_radial_info_for_atom fft_obj (fst ag) (snd ag) = Ok pts ->
        (n_g (interp_rgd psetup) < 2)%nat -> call = Raise (IndexError 1))).
Proof.
  intros call. unfold call, from_gd_and_setup. split.
  - intros -> ->. reflexivity.
  - intros ->. split.
    + intros -> ->. destruct (Req_dec_T 0 0) as [_|H]; [reflexivity|].
      contradiction H. reflexivity.
    + intros rm Hrm.
      assert (E0 : (if Req_dec_T rmax 0 then getattr "rcut" rcut else Ok rmax)
                   = Ok rm).
      { destruct (Req_dec_T rmax 0); [rewrite Hrm; reflexivity|].
        injection Hrm as ->. reflexivity. }
      rewrite E0. cbn [mbind res_bind Py.bind].
      destruct (get_ag_indices fft_obj gd (get_size_of_global_array gd) spos_c
                  rm 0 is_global) as [indices fdisps].
      cbn [fst snd]. split.
      * intros e ->. reflexivity.
      * intros pts -> Hn. cbn [mbind res_bind Py.bind]. unfold r_g_at.
        destruct (Nat.ltb_spec 1 (n_g (interp_rgd psetup))); [lia|].
        reflexivity.
Qed.

Lemma get_ag_indices_entries_witness :
  exists (ind : list Z) (fd : list R),
    fst (get_ag_indices fft0 gd0 (fun _ => 4%Z) (fun _ => 0) 1 0 false) !! 0%nat
    = Some ind /\
    snd (get_ag_indices fft0 gd0 (fun _ => 4%Z) (fun _ => 0) 1 0 false) !! 0%nat
    = Some fd /\
    length ind = length fd /\
    forall a x, In (a, x) (combine ind fd) -> (0 <= a < 4)%Z.
Proof.
  destruct (get_ag_indices_entries fft0 gd0 (fun _ => 4%Z) (fun _ => 0) 1 0
              false 0%nat ltac:(lia) ltac:(lia))
    as (ind & fd & E1 & E2 & HL & _ & H).
  exists ind, fd. split; [exact E1|]. split; [exact E2|]. split; [exact HL|].
  intros a x Hin. destruct (H a x Hin) as [Hb _]. cbn in Hb. lia.
Defined.

Lemma from_gd_and_setup_locates_witness :
  exists args,
    from_gd_and_setup slice_ext0 gd0 (fun _ => 0) data_lin None fft0 3 false
      false false false = Ok args /\
    sl_rmax args = 3 /\ length (sl_g args) = length (sl_rad_g args).
Proof.
  assert (H3 : (if Req_dec_T 3 0 then @None R else Some 3) = Some 3).
  { destruct (Req_dec_T 3 0) as [H|_]; [lra|reflexivity]. }
  assert (Hh : 0 < r_g (interp_rgd data_lin) 1%nat - r_g (interp_rgd data_lin) 0%nat).
  { cbn. lra. }
  destruct (from_gd_and_setup_locates slice_ext0 gd0 (fun _ => 0) data_lin None
              fft0 3 false false false false 3 pts0 eq_refl H3 eq_refl
              ltac:(cbn; lia) ltac:(cbn; lia) Hh)
    as (args & E & Hr & _ & _ & _ & _ & _ & _ & Hg & _).
  exists args. split; [|split; [exact Hr|exact Hg]].
  rewrite E. reflexivity.
Defined.

End SlicesFacts.
